(** * Momentum trading core of Omers_stocks

    Shallow embedding of [daytradebot/rick.py], [daytradebot/strategies_momentum.py],
    the [analyze_and_trade] loop and [parse_risk_input] of [daytradebot/bot.py],
    and the frame upsert of [daytradebot/adapters/alpaca_ws_provider.py].

    Numbers.  For the indicators, the signals and the state machine,
    Python and numpy floats are idealised as exact rationals together with
    one extra value [NaN], pandas' marker for a missing observation.
    Rounding and overflow are outside that model, and what is stated in it
    are comparisons and formulas as the code writes them; with exact
    arithmetic an infinity could only come from a division by zero, and the
    two divisions by a computed quantity ([cci] and [position_size]) are
    shown below to have non-zero divisors.  The sizing function of
    [rick.py] is embedded a second time on IEEE doubles ([Double]), with
    rounding to nearest, signed zeros, infinities and the exceptions Python
    raises. *)

From Stdlib Require Import QArith Qround Qminmax Qabs Lia Lqa ZArith Bool Ascii
  SpecFloat.
From stdpp Require Import base list option strings sorting.

Local Open Scope Q_scope.

(** ** Floats *)

Module PyFloat.

(** A number of the idealised model: an exact rational or NaN.  There is
    no infinity and no rounding here; [Double] below has both. *)
Inductive float : Type :=
| Fin (q : Q)
| NaN.

Definition Qltb (x y : Q) : bool := negb (Qle_bool y x).

Definition lift2 (f : Q -> Q -> Q) (a b : float) : float :=
  match a, b with
  | Fin x, Fin y => Fin (f x y)
  | _, _ => NaN
  end.

Definition fadd : float -> float -> float := lift2 Qplus.
Definition fsub : float -> float -> float := lift2 Qminus.
Definition fmul : float -> float -> float := lift2 Qmult.

(** Division.  A zero divisor gives a non-finite result (an infinity or
    NaN in numpy, [ZeroDivisionError] for a plain Python float); the
    model returns [NaN] for it. *)
Definition fdiv (a b : float) : float :=
  match a, b with
  | Fin x, Fin y => if Qeq_bool y 0 then NaN else Fin (x / y)
  | _, _ => NaN
  end.

Definition fabs (a : float) : float :=
  match a with
  | Fin x => Fin (Qabs x)
  | NaN => NaN
  end.

(** Comparisons: every comparison with NaN is false. *)
Definition cmp2 (f : Q -> Q -> bool) (a b : float) : bool :=
  match a, b with
  | Fin x, Fin y => f x y
  | _, _ => false
  end.

Definition fle : float -> float -> bool := cmp2 Qle_bool.
Definition flt : float -> float -> bool := cmp2 Qltb.
Definition fge (a b : float) : bool := fle b a.
Definition fgt (a b : float) : bool := flt b a.

(** [np.maximum] and [np.minimum] propagate NaN. *)
Definition np_maximum : float -> float -> float := lift2 Qmax.
Definition np_minimum : float -> float -> float := lift2 Qmin.

(** Python's builtin [max(a, b)]: keeps [a] unless [b > a]. *)
Definition pymax (a b : float) : float := if fgt b a then b else a.

Definition isfinite (a : float) : bool :=
  match a with
  | Fin _ => true
  | NaN => false
  end.

(** Truth value of a float ([if x:]): everything but zero. *)
Definition truthy (a : float) : bool :=
  match a with
  | Fin x => negb (Qeq_bool x 0)
  | NaN => true
  end.

(** [int(x)]: truncation toward zero; [ValueError] on NaN.  On doubles
    [int] also raises [OverflowError] on an infinity, see
    [Double.py_int]. *)
Definition py_int (a : float) : option Z :=
  match a with
  | Fin x => Some (Z.quot (Qnum x) (Zpos (Qden x)))
  | NaN => None
  end.

End PyFloat.
Export PyFloat.

Declare Scope float_scope.
Delimit Scope float_scope with fl.
Bind Scope float_scope with float.
Infix "+" := fadd : float_scope.
Infix "-" := fsub : float_scope.
Infix "*" := fmul : float_scope.
Infix "/" := fdiv : float_scope.
Infix "<=?" := fle : float_scope.
Infix "<?" := flt : float_scope.
Infix ">=?" := fge (at level 70) : float_scope.
Infix ">?" := fgt (at level 70) : float_scope.
Coercion Fin : Q >-> float.

(** ** rick.py *)

Module Rick.

(** The sizing formula in exact arithmetic; [Double.position_size] is the
    same function on doubles, where the product and the quotient round
    and may overflow. *)
Definition position_size (entry stop equity r_pct : float) : option Z :=
  let risk_per_share := pymax (Fin 0.01) (entry - stop)%fl in
  let risk_dollars := pymax (Fin 0) (equity * r_pct)%fl in
  if (risk_per_share >? Fin 0)%fl
  then py_int (risk_dollars / risk_per_share)%fl
  else Some 0%Z.

Definition immediate_stop_hit (price entry max_loss_pct : float) : bool :=
  (price <=? entry * (Fin 1 - max_loss_pct + Fin 1e-12))%fl.

End Rick.

(** ** rick.py on IEEE doubles

    The sizing function once more, this time on binary64 values with
    round-to-nearest-even, signed zeros, infinities and NaN, and with the
    exceptions Python raises.  The arguments are floats, as annotated and
    as the trading loop passes them; an integer equity such as the default
    10000 is converted exactly when it is multiplied by the risk
    fraction. *)

Module Double.

Local Open Scope Z_scope.

Definition prec : Z := 53.
Definition emax : Z := 1024.

Abbreviation double := spec_float.

(** A well-formed binary64 value: mantissa and exponent in canonical form. *)
Definition valid (x : double) : Prop := valid_binary prec emax x = true.

Definition sub : double -> double -> double := SFsub prec emax.
Definition mul : double -> double -> double := SFmul prec emax.
Definition lt : double -> double -> bool := SFltb.
Definition le : double -> double -> bool := SFleb.
Definition gt (a b : double) : bool := SFltb b a.

(** The integer [z] as a double (to nearest, ties to even). *)
Definition of_Z (z : Z) : double := binary_normalize prec emax z 0 false.

(** The literals [0.0] and [0.01]; the latter is the double nearest to
    1/100, that is [5764607523034235 * 2^-59]. *)
Definition zero : double := S754_zero false.
Definition d_0_01 : double := S754_finite false 5764607523034235 (-59).

(** [2^1000], about [1.07e301]. *)
Definition two_1000 : double := S754_finite false 4503599627370496 948.

Inductive exn : Type := ValueError | OverflowError | ZeroDivisionError.

Inductive outcome (A : Type) : Type :=
| Returns (a : A)
| Raises (e : exn).
Arguments Returns {A} a.
Arguments Raises {A} e.

(** [a / b] on floats: Python raises on a zero divisor. *)
Definition truediv (a b : double) : outcome double :=
  match b with
  | S754_zero _ => Raises ZeroDivisionError
  | _ => Returns (SFdiv prec emax a b)
  end.

(** The builtin [max(a, b)]: [b] when [b > a], else [a]. *)
Definition pymax (a b : double) : double := if gt b a then b else a.

(** [int(a)]: truncation toward zero; raises on NaN and on infinities. *)
Definition py_int (a : double) : outcome Z :=
  match a with
  | S754_zero _ => Returns 0
  | S754_finite s m e => Returns (cond_Zopp s (Z.shiftl (Zpos m) e))
  | S754_infinity _ => Raises OverflowError
  | S754_nan => Raises ValueError
  end.

Definition position_size (entry stop equity r_pct : double) : outcome Z :=
  let risk_per_share := pymax d_0_01 (sub entry stop) in
  let risk_dollars := pymax zero (mul equity r_pct) in
  if gt risk_per_share zero
  then match truediv risk_dollars risk_per_share with
       | Returns v => py_int v
       | Raises e => Raises e
       end
  else Returns 0.

(** The value [m * 2^e] is at least one. *)
Definition ge_one (m e : Z) : Prop := 0 < m /\ (e <= 0 -> 2 ^ (- e) <= m).

End Double.

(** ** pandas Series and DataFrame *)

Module Series.

(** A float Series is the list of its values in index order. *)
Abbreviation series := (list float).

(** [s.shift(1)]: every value moves one row down, the first row is NaN. *)
Definition shift1 (s : series) : series := take (length s) (NaN :: s).

(** Element-wise application of a four-argument function to aligned
    columns. *)
Definition map4 {A B C D E : Type} (f : A -> B -> C -> D -> E)
    (sa : list A) (sb : list B) (sc : list C) (sd : list D) : list E :=
  zip_with (fun g x => g x) (zip_with (fun g x => g x) (zip_with f sa sb) sc) sd.

Definition sand : list bool -> list bool -> list bool := zip_with andb.
Definition sor : list bool -> list bool -> list bool := zip_with orb.

(** Sum and mean of one rolling window; a NaN in the window makes both
    NaN, and so does an empty window. *)
Definition fsum (w : list float) : float := foldr fadd (Fin 0) w.

Definition window_mean (n : nat) (w : list float) : float :=
  (fsum w / Fin (inject_Z (Z.of_nat n)))%fl.

(** [s.rolling(n).mean()] with pandas' default [min_periods = n]: row [i]
    is NaN until [n] rows are available, then the mean of rows
    [i-n+1 .. i]. *)
Definition rolling_mean (n : nat) (s : series) : series :=
  imap (fun i _ =>
          if (S i <? n)%nat then NaN
          else window_mean n (take n (drop (S i - n) s))) s.

(** [s.replace(0, eps)] *)
Definition replace0 (eps : Q) (s : series) : series :=
  (fun x => match x with
            | Fin q => if Qeq_bool q 0 then Fin eps else x
            | NaN => NaN
            end) <$> s.

(** [s.ewm(alpha, adjust=False).mean()], following pandas' recurrence:
    [weighted] is the running average (NaN before the first observation),
    [old_wt] the weight it carries; a missing value repeats the running
    average and lets its weight decay.  The average is kept in lowest
    terms; the weight sum [o + alpha] is positive for every span of at
    least 1. *)
Fixpoint ewm_mean (alpha : Q) (weighted : float) (old_wt : Q) (vals : series)
    : series :=
  match vals with
  | [] => []
  | cur :: rest =>
      let '(w', o') :=
        match weighted, cur with
        | Fin w, Fin x =>
            let o := old_wt * (1 - alpha) in
            (Fin (Qred ((o * w + alpha * x) / (o + alpha))), 1)
        | Fin _, NaN => (weighted, old_wt * (1 - alpha))
        | NaN, _ => (cur, old_wt)
        end in
      w' :: ewm_mean alpha w' o' rest
  end.

(** Last value of a column, [s.iloc[-1]]. *)
Definition iloc_last {A : Type} (d : A) (s : list A) : A := default d (last s).

End Series.
Export Series.

(** One OHLCV bar and one row of the frame returned by
    [compute_indicators]. *)
Record Bar : Type := mkBar {
  open : float;
  high : float;
  low : float;
  close : float;
  volume : float
}.

Record Row : Type := mkRow {
  bar : Bar;
  ema20 : float;
  macd_line : float;
  macd_signal : float;
  macd_hist : float;
  cci_col : float
}.

(** ** strategies_momentum.py *)

Module Strategies.

(** *** helpers *)

(** [span] is a positive integer: pandas rejects [span < 1]. *)
Definition ema (s : series) (n : positive) : series :=
  ewm_mean (2 / (inject_Z (Zpos n) + 1)) NaN 1 s.

Definition macd (close : series) (fast slow signal : positive)
    : series * series * series :=
  let ema_fast := ema close fast in
  let ema_slow := ema close slow in
  let macd_line := zip_with fsub ema_fast ema_slow in
  let macd_signal := ema macd_line signal in
  let macd_hist := zip_with fsub macd_line macd_signal in
  (macd_line, macd_signal, macd_hist).

(** The three local series of [cci]. *)
Definition cci_tp (df : list Bar) : series :=
  (fun b => (high b + low b + close b) / Fin 3)%fl <$> df.

Definition cci_ma (df : list Bar) (n : nat) : series :=
  rolling_mean n (cci_tp df).

Definition cci_md (df : list Bar) (n : nat) : series :=
  replace0 1e-12
    (rolling_mean n (fabs <$> zip_with fsub (cci_tp df) (cci_ma df n))).

Definition cci (df : list Bar) (n : nat) : series :=
  zip_with fdiv
    (zip_with fsub (cci_tp df) (cci_ma df n))
    ((fun m => Fin 0.015 * m)%fl <$> cci_md df n).

Definition compute_indicators (df : list Bar)
    (macd_fast macd_slow macd_sig : positive) (cci_len : nat) : list Row :=
  let close := close <$> df in
  let e20 := ema close 20 in
  let '(m_line, m_sig, m_hist) := macd close macd_fast macd_slow macd_sig in
  let cc := cci df cci_len in
  imap (fun i b =>
          {| bar := b;
             ema20 := default NaN (e20 !! i);
             macd_line := default NaN (m_line !! i);
             macd_signal := default NaN (m_sig !! i);
             macd_hist := default NaN (m_hist !! i);
             cci_col := default NaN (cc !! i) |}) df.

(** *** candlestick anatomy *)

Definition _body (o c : float) : float := fabs (c - o).
Definition _range (h l : float) : float := fabs (h - l).
Definition _upper (o h c : float) : float := (h - np_maximum o c)%fl.
Definition _lower (o l c : float) : float := (np_minimum o c - l)%fl.

(** *** pattern detectors

    The detectors are written with numpy's element-wise operators and so
    work on scalars and on columns alike; they are given here on scalars
    and applied row by row with [map4].  The comparisons are exact: a
    candle whose body sits on a threshold such as [rng * body_pct] up to
    rounding may be classified differently by the code. *)

Definition is_doji (o h l c body_pct : float) : bool :=
  let rng := _range h l in
  let body := _body o c in
  (rng >? Fin 0)%fl && (body <=? rng * body_pct)%fl.

Definition is_hammer (o h l c body_max_pct lower_to_body_min upper_max_pct : float)
    : bool :=
  let rng := _range h l in
  let body := _body o c in
  let upper := _upper o h c in
  let lower := _lower o l c in
  let small_body := (body <=? rng * body_max_pct)%fl in
  let long_lower := (lower >=? lower_to_body_min * (body + Fin 1e-12))%fl in
  let small_upper := (upper <=? rng * upper_max_pct)%fl in
  let body_near_top := (np_maximum o c >=? h - rng * Fin 0.25)%fl in
  small_body && long_lower && small_upper && body_near_top.

Definition is_inverted_hammer
    (o h l c body_max_pct upper_to_body_min lower_max_pct : float) : bool :=
  let rng := _range h l in
  let body := _body o c in
  let upper := _upper o h c in
  let lower := _lower o l c in
  let small_body := (body <=? rng * body_max_pct)%fl in
  let long_upper := (upper >=? upper_to_body_min * (body + Fin 1e-12))%fl in
  let small_lower := (lower <=? rng * lower_max_pct)%fl in
  let body_near_bottom := (np_minimum o c <=? l + rng * Fin 0.25)%fl in
  small_body && long_upper && small_lower && body_near_bottom.

Definition is_shooting_star
    (o h l c body_max_pct upper_to_body_min lower_max_pct : float) : bool :=
  is_inverted_hammer o h l c body_max_pct upper_to_body_min lower_max_pct.

Definition bullish_engulfing (prev_o prev_c o c : float) : bool :=
  (c >? o)%fl && (prev_c <? prev_o)%fl && (o <=? prev_c)%fl && (c >=? prev_o)%fl.

Definition bearish_engulfing (prev_o prev_c o c : float) : bool :=
  (c <? o)%fl && (prev_c >? prev_o)%fl && (o >=? prev_c)%fl && (c <=? prev_o)%fl.

(** Default keyword arguments of the detectors. *)
Definition body_max_pct_default : float := Fin 0.35.
Definition wick_to_body_min_default : float := Fin 2.
Definition wick_max_pct_default : float := Fin 0.25.

(** *** signal constructors *)

Definition use_patterns_default : list string :=
  ["doji"; "hammer"; "inverted_hammer"; "bullish_engulfing"]%string.

(** [momentum_entries]; its [macd_fast], [macd_slow] and [macd_signal]
    keywords are not used by the body and are left out.  The final
    [fillna(False)] acts on a boolean column without missing values. *)
Definition momentum_entries (df : list Row) (doji_body_pct cci_entry : float)
    (confirm_break_high : bool) (use_patterns : list string) : list bool :=
  let o := (open ∘ bar) <$> df in
  let h := (high ∘ bar) <$> df in
  let l := (low ∘ bar) <$> df in
  let c := (close ∘ bar) <$> df in
  let prev_o := shift1 o in
  let prev_h := shift1 h in
  let prev_l := shift1 l in
  let prev_c := shift1 c in
  let patt_prev := replicate (length df) false in
  let patt_prev :=
    if bool_decide ("doji"%string ∈ use_patterns)
    then sor patt_prev
           (map4 (fun o h l c => is_doji o h l c doji_body_pct)
              prev_o prev_h prev_l prev_c)
    else patt_prev in
  let patt_prev :=
    if bool_decide ("hammer"%string ∈ use_patterns)
    then sor patt_prev
           (map4 (fun o h l c =>
                    is_hammer o h l c body_max_pct_default
                      wick_to_body_min_default wick_max_pct_default)
              prev_o prev_h prev_l prev_c)
    else patt_prev in
  let patt_prev :=
    if bool_decide ("inverted_hammer"%string ∈ use_patterns)
    then sor patt_prev
           (map4 (fun o h l c =>
                    is_inverted_hammer o h l c body_max_pct_default
                      wick_to_body_min_default wick_max_pct_default)
              prev_o prev_h prev_l prev_c)
    else patt_prev in
  let patt_prev :=
    if bool_decide ("bullish_engulfing"%string ∈ use_patterns)
    then sor patt_prev
           (map4 bullish_engulfing (shift1 prev_o) (shift1 prev_c) prev_o prev_c)
    else patt_prev in
  let macd_line := macd_line <$> df in
  let macd_sig := macd_signal <$> df in
  let cci_v := cci_col <$> df in
  let cond :=
    sand (sand patt_prev (zip_with fgt macd_line macd_sig))
         ((fun x => x >? cci_entry)%fl <$> cci_v) in
  let cond := if confirm_break_high then sand cond (zip_with fgt c prev_h) else cond in
  cond.

Definition include_patterns_default : list string :=
  ["shooting_star"; "bearish_engulfing"]%string.

Definition momentum_exit_flip (df : list Row) (cci_exit : float)
    (include_patterns : list string) : list bool :=
  let o := (open ∘ bar) <$> df in
  let h := (high ∘ bar) <$> df in
  let l := (low ∘ bar) <$> df in
  let c := (close ∘ bar) <$> df in
  let prev_o := shift1 o in
  let prev_c := shift1 c in
  let macd_line := macd_line <$> df in
  let macd_sig := macd_signal <$> df in
  let cci_v := cci_col <$> df in
  let cross_down :=
    sand (zip_with fle macd_line macd_sig)
         (zip_with fgt (shift1 macd_line) (shift1 macd_sig)) in
  let momentum_flip := sand cross_down ((fun x => x <? cci_exit)%fl <$> cci_v) in
  let bearish := replicate (length df) false in
  let bearish :=
    if bool_decide ("shooting_star"%string ∈ include_patterns)
    then sor bearish
           (map4 (fun o h l c =>
                    is_shooting_star o h l c body_max_pct_default
                      wick_to_body_min_default wick_max_pct_default) o h l c)
    else bearish in
  let bearish :=
    if bool_decide ("bearish_engulfing"%string ∈ include_patterns)
    then sor bearish (map4 bearish_engulfing prev_o prev_c o c)
    else bearish in
  sor momentum_flip bearish.

End Strategies.

(** ** bot.py: the trade state machine *)

Module Bot.
Import Rick Strategies.

(** The [momentum] section of the configuration file. *)
Record Momo : Type := mkMomo {
  macd_fast : positive;
  macd_slow : positive;
  macd_signal_span : positive;
  cci_len : nat;
  doji_body_pct : float;
  cci_entry : float;
  cci_exit : float;
  confirm_break_high : bool
}.

(** The risk fields of the shared [STATE] object ([running], [task] and
    [symbol] play no part in the loop). *)
Record BotState : Type := mkBotState {
  equity : float;
  r_pct : float;
  tp_R : float;
  max_loss_pct : float;
  cmd_risk_pct : option float
}.

(** The local variables of [analyze_and_trade]. *)
Record Position : Type := mkPosition {
  in_pos : bool;
  entry : float;
  stop : float;
  qty : Z;
  last_trailing : option float
}.

Definition initial_position : Position :=
  {| in_pos := false; entry := Fin 0; stop := Fin 0; qty := 0%Z;
     last_trailing := None |}.

(** Messages sent to the channel. *)
Inductive Event : Type :=
| Enter (entry stop pattern_stop risk_stop : float) (qty : Z) (used_risk_pct : float)
| ExitFailSafe (max_loss_pct : float)
| ExitStop (stop : float)
| Weakening
| ExitTakeProfit (target tp_R : float)
| RaiseStop (stop : float)
| ErrorMessage.

Definition is_exit (e : Event) : bool :=
  match e with
  | ExitFailSafe _ | ExitStop _ | ExitTakeProfit _ _ => true
  | _ => false
  end.

Definition nan_row : Row :=
  {| bar := mkBar NaN NaN NaN NaN NaN; ema20 := NaN; macd_line := NaN;
     macd_signal := NaN; macd_hist := NaN; cci_col := NaN |}.

(** [STATE.cmd_risk_pct if STATE.cmd_risk_pct is not None else STATE.r_pct] *)
Definition used_risk_pct (S : BotState) : float :=
  match cmd_risk_pct S with
  | Some r => r
  | None => r_pct S
  end.

(** The branch taken while flat and [sig_enter] holds. *)
Definition try_enter (df : list Row) (price : float) (S : BotState) (L : Position)
    : BotState * Position * list Event :=
  let pattern_stop := iloc_last NaN (shift1 ((low ∘ bar) <$> df)) in
  let used_risk_pct := used_risk_pct S in
  let entry := price in
  let risk_stop := (entry * (Fin 1 - used_risk_pct))%fl in
  let stop := pymax pattern_stop risk_stop in
  match position_size entry stop (equity S) used_risk_pct with
  | None =>
      (* [int] raised: caught by the handler of the loop *)
      (S, {| in_pos := in_pos L; entry := entry; stop := stop; qty := qty L;
             last_trailing := last_trailing L |}, [ErrorMessage])
  | Some qty =>
      let S' := {| equity := equity S; r_pct := r_pct S; tp_R := tp_R S;
                   max_loss_pct := used_risk_pct;
                   cmd_risk_pct := cmd_risk_pct S |} in
      if (qty <=? 0)%Z || (entry <=? stop)%fl || negb (isfinite stop)
      then (S', {| in_pos := in_pos L; entry := entry; stop := stop; qty := qty;
                   last_trailing := last_trailing L |}, [])
      else (S', {| in_pos := true; entry := entry; stop := stop; qty := qty;
                   last_trailing := Some stop |},
            [Enter entry stop pattern_stop risk_stop qty used_risk_pct])
  end.

(** The branch taken while in a position. *)
Definition manage (last : Row) (price : float) (exit_flip : bool)
    (S : BotState) (L : Position) : BotState * Position * list Event :=
  let flat := {| in_pos := false; entry := entry L; stop := stop L; qty := qty L;
                 last_trailing := last_trailing L |} in
  if immediate_stop_hit price (entry L) (max_loss_pct S)
  then (S, flat, [ExitFailSafe (max_loss_pct S)])
  else if (low (bar last) <=? stop L)%fl
  then (S, flat, [ExitStop (stop L)])
  else
    let warn := if exit_flip then [Weakening] else [] in
    let target := (entry L + tp_R S * (entry L - stop L))%fl in
    if truthy (tp_R S) && (tp_R S >? Fin 0)%fl && (price >=? target)%fl
    then (S, flat, warn ++ [ExitTakeProfit target (tp_R S)])
    else
      let ema20 := ema20 last in
      let new_trail := pymax (stop L) ema20 in
      if match last_trailing L with
         | None => true
         | Some t => (new_trail >? t)%fl
         end
      then (S, {| in_pos := in_pos L; entry := entry L; stop := new_trail;
                  qty := qty L; last_trailing := Some new_trail |},
            warn ++ [RaiseStop new_trail])
      else (S, L, warn).

(** The frame with its indicator columns, and the two signals read off
    its last row. *)
Definition frame_rows (momo : Momo) (df : list Bar) : list Row :=
  compute_indicators df (macd_fast momo) (macd_slow momo)
    (macd_signal_span momo) (cci_len momo).

Definition sig_enter (momo : Momo) (df : list Row) : bool :=
  iloc_last false
    (momentum_entries df (doji_body_pct momo) (cci_entry momo)
       (confirm_break_high momo) use_patterns_default).

Definition exit_flip (momo : Momo) (df : list Row) : bool :=
  iloc_last false (momentum_exit_flip df (cci_exit momo) include_patterns_default).

(** One iteration of the [async for] loop on the frame [df0]. *)
Definition on_frame (momo : Momo) (df0 : list Bar) (S : BotState) (L : Position)
    : BotState * Position * list Event :=
  let df := frame_rows momo df0 in
  if (length df <? 30)%nat then (S, L, [])
  else
    let last := iloc_last nan_row df in
    let price := close (bar last) in
    let sig_enter := sig_enter momo df in
    let exit_flip := exit_flip momo df in
    if negb (in_pos L)
    then if sig_enter then try_enter df price S L else (S, L, [])
    else manage last price exit_flip S L.

(** What reaches the machine: a frame from the provider, or one of the
    commands [!risk] and [!sl] that write to [STATE] between frames. *)
Inductive Input : Type :=
| Frame (df : list Bar)
| CmdRisk (pct : float)
| CmdSl (pct : float).

Definition step (momo : Momo) (i : Input) (S : BotState) (L : Position)
    : BotState * Position * list Event :=
  match i with
  | Frame df => on_frame momo df S L
  | CmdRisk pct =>
      ({| equity := equity S; r_pct := pct; tp_R := tp_R S;
          max_loss_pct := max_loss_pct S; cmd_risk_pct := cmd_risk_pct S |}, L, [])
  | CmdSl pct =>
      ({| equity := equity S; r_pct := r_pct S; tp_R := tp_R S;
          max_loss_pct := pct; cmd_risk_pct := cmd_risk_pct S |}, L, [])
  end.

(** The states after each input of a run. *)
Fixpoint run (momo : Momo) (inputs : list Input) (S : BotState) (L : Position)
    : list (BotState * Position) :=
  match inputs with
  | [] => []
  | i :: rest =>
      let '(S', L', _) := step momo i S L in
      (S', L') :: run momo rest S' L'
  end.

End Bot.

(** ** Predicates used in the statements *)

Module Specs.

(** [x] is a finite value equal to [v] as a rational. *)
Definition near (v : Q) (x : float) : Prop := exists q, x = Fin q /\ q == v.

(** A bar of a perfectly flat series at price [k]. *)
Definition flat_bar (k : Q) (b : Bar) : Prop :=
  high b = Fin k /\ low b = Fin k /\ close b = Fin k.

(** The entry rule in the words of the specification, for the bar [cur],
    its predecessor [prev] and, when there is one, the bar [prev2] before
    that: a default pattern on [prev], MACD line above signal, CCI above
    0 and a close above the previous high. *)
Definition default_pattern (prev2 : option Row) (prev : Row) : bool :=
  let b := bar prev in
  Strategies.is_doji (open b) (high b) (low b) (close b) (Fin 0.2)
  || Strategies.is_hammer (open b) (high b) (low b) (close b)
       (Fin 0.35) (Fin 2) (Fin 0.25)
  || Strategies.is_inverted_hammer (open b) (high b) (low b) (close b)
       (Fin 0.35) (Fin 2) (Fin 0.25)
  || match prev2 with
     | Some pp =>
         Strategies.bullish_engulfing (open (bar pp)) (close (bar pp))
           (open b) (close b)
     | None => false
     end.

Definition entry_rule (prev2 : option Row) (prev cur : Row) : bool :=
  default_pattern prev2 prev
  && (macd_line cur >? macd_signal cur)%fl
  && (cci_col cur >? Fin 0)%fl
  && (close (bar cur) >? high (bar prev))%fl.

(** The row two places before row [S i], if any. *)
Definition row_before (df : list Row) (i : nat) : option Row :=
  match i with
  | O => None
  | S j => df !! j
  end.

(** While in a position the stop is finite and is the trailing
    high-water mark. *)
Definition tracking (L : Bot.Position) : Prop :=
  Bot.in_pos L = true ->
  exists q, Bot.stop L = Fin q /\ Bot.last_trailing L = Some (Fin q).

(** The stop of [L'] is at least the stop of [L]. *)
Definition stop_le (L L' : Bot.Position) : Prop :=
  exists q q', Bot.stop L = Fin q /\ Bot.stop L' = Fin q' /\ q <= q'.

(** The position [L] once it is closed: only [in_pos] changes. *)
Definition closed (L : Bot.Position) : Bot.Position :=
  {| Bot.in_pos := false; Bot.entry := Bot.entry L; Bot.stop := Bot.stop L;
     Bot.qty := Bot.qty L; Bot.last_trailing := Bot.last_trailing L |}.

Definition count_exits (ev : list Bot.Event) : nat :=
  length (filter (fun e => Bot.is_exit e = true) ev).

End Specs.
Export Specs.

(** ** Sample data *)

Module Examples.
Import Bot.

(** Default spans and thresholds; an account of 10000 risking 1% per
    trade, and the same account with an equity of 1. *)
Definition ex_momo : Momo :=
  {| macd_fast := 12; macd_slow := 26; macd_signal_span := 9; cci_len := 14;
     doji_body_pct := Fin 0.2; cci_entry := Fin 0; cci_exit := Fin 0;
     confirm_break_high := true |}.

Definition ex_state : BotState :=
  {| equity := Fin 10000; r_pct := Fin 0.01; tp_R := Fin 0;
     max_loss_pct := Fin 0.02; cmd_risk_pct := None |}.


(** A steady climb of one point per bar. *)
Definition ex_climb (k : nat) : Bar :=
  let q := inject_Z (Z.of_nat k) in
  mkBar (Fin (100 + q)) (Fin (101.5 + q)) (Fin (99.5 + q)) (Fin (101 + q))
    (Fin 1000).

(** 28 climbing bars, a doji, and a bar closing above the doji's high. *)
Definition ex_frame : list Bar :=
  (ex_climb <$> seq 0 28)
  ++ [mkBar (Fin 128) (Fin 129) (Fin 127) (Fin 128.1) (Fin 1000);
      mkBar (Fin 128.5) (Fin 130.5) (Fin 128.2) (Fin 130) (Fin 1000)].

(** The same frame followed by a collapse, or by two strong bars. *)
Definition ex_frame_crash : list Bar :=
  ex_frame ++ [mkBar (Fin 129) (Fin 129) (Fin 120) (Fin 121) (Fin 1000)].

Definition ex_frame_up1 : list Bar :=
  ex_frame ++ [mkBar (Fin 130) (Fin 200) (Fin 129.5) (Fin 200) (Fin 1000)].

Definition ex_frame_up2 : list Bar :=
  ex_frame_up1 ++ [mkBar (Fin 200) (Fin 300) (Fin 199) (Fin 300) (Fin 1000)].

Definition ex_inputs : list Input :=
  [Frame ex_frame; Frame ex_frame_up1; CmdSl (Fin 0.05); Frame ex_frame_up2].

(** The position opened by [ex_frame]. *)
Definition ex_long : Position :=
  {| in_pos := true; entry := Fin 130; stop := Fin 128.7; qty := 76%Z;
     last_trailing := Some (Fin 128.7) |}.

(** The state after the [k]-th input of the sample run. *)
Definition ex_after (k : nat) : BotState * Position :=
  default (ex_state, initial_position)
    (run ex_momo ex_inputs ex_state initial_position !! k).

(** Three rows with their indicator columns: a red bar, a doji, and a
    breakout bar with MACD above signal and a positive CCI. *)
Definition ex_rows : list Row :=
  [ {| bar := mkBar (Fin 10) (Fin 10.2) (Fin 8.9) (Fin 9) (Fin 1000);
       ema20 := Fin 10; macd_line := Fin 0; macd_signal := Fin 0;
       macd_hist := Fin 0; cci_col := NaN |};
    {| bar := mkBar (Fin 9) (Fin 9.6) (Fin 8.6) (Fin 9.1) (Fin 1000);
       ema20 := Fin 9.9; macd_line := Fin 0.1; macd_signal := Fin 0.05;
       macd_hist := Fin 0.05; cci_col := Fin 20 |};
    {| bar := mkBar (Fin 9.2) (Fin 10) (Fin 9.1) (Fin 9.9) (Fin 1000);
       ema20 := Fin 9.9; macd_line := Fin 0.2; macd_signal := Fin 0.1;
       macd_hist := Fin 0.1; cci_col := Fin 80 |} ].

(** Five bars of a flat series at 50. *)
Definition ex_flat : list Bar :=
  replicate 5 (mkBar (Fin 50) (Fin 50) (Fin 50) (Fin 50) (Fin 1000)).

End Examples.
Export Examples.

(** ** Further predicates *)

Module Specs2.

(** [x] is NaN or a finite value between [lo] and [hi]. *)
Definition nan_or_within (lo hi : Q) (x : float) : Prop :=
  x = NaN \/ exists q, x = Fin q /\ lo <= q <= hi.

(** The smoothing factor of a span, [2 / (span + 1)]. *)
Definition span_alpha (n : positive) : Q := 2 / (inject_Z (Zpos n) + 1).

(** The exit-flip rule for the bar [cur] and, when there is one, the bar
    [prev] before it: a MACD cross-down with CCI below the threshold, or a
    shooting star, or a bearish engulfing of [prev] by [cur]. *)
Definition exit_rule (cci_exit : float) (prev : option Row) (cur : Row) : bool :=
  let b := bar cur in
  (match prev with
   | Some p =>
       (macd_line cur <=? macd_signal cur)%fl && (macd_line p >? macd_signal p)%fl
   | None => false
   end && (cci_col cur <? cci_exit)%fl)
  || Strategies.is_shooting_star (open b) (high b) (low b) (close b)
       (Fin 0.35) (Fin 2) (Fin 0.25)
  || match prev with
     | Some p =>
         Strategies.bearish_engulfing (open (bar p)) (close (bar p))
           (open b) (close b)
     | None => false
     end.

(** The entry rule for an arbitrary configuration: [body_pct] for the doji
    test, the CCI threshold [ce], the breakout toggle [cbh] and the pattern
    names [ups] that are switched on. *)
Definition pattern_on (ups : list string) (body_pct : float)
    (prev2 : option Row) (prev : Row) : bool :=
  let b := bar prev in
  (bool_decide ("doji"%string ∈ ups)
   && Strategies.is_doji (open b) (high b) (low b) (close b) body_pct)
  || (bool_decide ("hammer"%string ∈ ups)
      && Strategies.is_hammer (open b) (high b) (low b) (close b)
           (Fin 0.35) (Fin 2) (Fin 0.25))
  || (bool_decide ("inverted_hammer"%string ∈ ups)
      && Strategies.is_inverted_hammer (open b) (high b) (low b) (close b)
           (Fin 0.35) (Fin 2) (Fin 0.25))
  || (bool_decide ("bullish_engulfing"%string ∈ ups)
      && match prev2 with
         | Some pp =>
             Strategies.bullish_engulfing (open (bar pp)) (close (bar pp))
               (open b) (close b)
         | None => false
         end).

Definition entry_rule_with (body_pct ce : float) (cbh : bool) (ups : list string)
    (prev2 : option Row) (prev cur : Row) : bool :=
  pattern_on ups body_pct prev2 prev
  && (macd_line cur >? macd_signal cur)%fl
  && (cci_col cur >? ce)%fl
  && (if cbh then (close (bar cur) >? high (bar prev))%fl else true).

Definition is_take_profit (e : Bot.Event) : bool :=
  match e with
  | Bot.ExitTakeProfit _ _ => true
  | _ => false
  end.

(** The price reflected about zero. *)
Definition fneg (x : float) : float := (Fin 0 - x)%fl.

(** Equality of floats as numbers: equal rationals, or both NaN. *)
Definition feq (a b : float) : Prop :=
  match a, b with
  | Fin x, Fin y => x == y
  | NaN, NaN => True
  | _, _ => False
  end.

End Specs2.
Export Specs2.

(** ** bot.py: reading the risk argument of [!start] *)

Module Commands.

(** Python's builtin [min(a, b)]: keeps [a] unless [b < a]. *)
Definition pymin (a b : float) : float := if (b <? a)%fl then b else a.

(** [s.replace('%', '')] *)
Fixpoint remove_percent (s : string) : string :=
  match s with
  | EmptyString => EmptyString
  | String c rest =>
      if Ascii.eqb c "%"%char then remove_percent rest
      else String c (remove_percent rest)
  end.

Section ParseRisk.

(** The two builtins the function relies on: [str.strip] and [float],
    the latter giving [None] where Python raises [ValueError].  A text
    that [float] reads as an infinity has no counterpart among the
    numbers of this development. *)
Variable py_strip : string -> string.
Variable py_float : string -> option float.

(** [parse_risk_input]; the argument is [None] when the command carries
    no risk text. *)
Definition parse_risk_input (risk_text : option string) : option float :=
  match risk_text with
  | None => None
  | Some EmptyString => None
  | Some t =>
      let s := remove_percent (py_strip t) in
      match py_float s with
      | None => None
      | Some val =>
          let val := if (val >? Fin 1)%fl then (val / Fin 100)%fl else val in
          Some (pymax (Fin 0.0001) (pymin val (Fin 0.20)))
      end
  end.

End ParseRisk.

End Commands.
Export Commands.

(** ** adapters/alpaca_ws_provider.py: the frame kept by [stream_bars] *)

Module Provider.

(** A decoded stream event: [T] and [S] as read with [ev.get], the
    timestamp as a UTC instant and the bar fields.  A bar event that lacks
    one of the fields read with [ev[...]] raises and sends the provider
    to its reconnect handler; such events are not represented.  Below,
    [sym] is the subscribed symbol after [symbol.upper()] and [maxlen] is
    not negative. *)
Record StreamEvent : Type := mkStreamEvent {
  ev_T : option string;
  ev_S : option string;
  ev_t : Z;
  ev_bar : Bar
}.

(** The frame: rows with their index values, in frame order. *)
Abbreviation frame := (list (Z * Bar)).

(** [sort_index]: rows in ascending index order.  The frame it is applied
    to has no two rows with the same index value (see [upsert] and the
    invariant [index_sorted]), so the order among equal values never
    matters. *)
Fixpoint insert_row (r : Z * Bar) (l : frame) : frame :=
  match l with
  | [] => [r]
  | x :: l' => if (r.1 <=? x.1)%Z then r :: l else x :: insert_row r l'
  end.

Definition sort_index (l : frame) : frame := foldr insert_row [] l.

(** [df.iloc[-maxlen:]]: the last [maxlen] rows, and every row for
    [maxlen = 0] since [-0] is [0]. *)
Definition iloc_tail (maxlen : nat) (l : frame) : frame :=
  if (maxlen =? 0)%nat then l else drop (length l - maxlen) l.

(** The upsert of one bar:
    [pd.concat([df[~df.index.isin(row.index)], row]).sort_index()]
    followed by [df.iloc[-maxlen:]]. *)
Definition upsert (maxlen : nat) (df : frame) (row : Z * Bar) : frame :=
  iloc_tail maxlen (sort_index (filter (fun r => r.1 <> row.1) df ++ [row])).

(** One event of a websocket message: a bar of the subscribed symbol is
    upserted and sets the [updated] flag, anything else is skipped. *)
Definition apply_event (sym : string) (maxlen : nat) (acc : frame * bool)
    (ev : StreamEvent) : frame * bool :=
  if bool_decide (ev_T ev = Some "b"%string) && bool_decide (ev_S ev = Some sym)
  then (upsert maxlen acc.1 (ev_t ev, ev_bar ev), true)
  else acc.

(** One websocket message: its events in turn; the flag tells whether the
    frame is yielded. *)
Definition on_message (sym : string) (maxlen : nat) (df : frame)
    (events : list StreamEvent) : frame * bool :=
  foldl (apply_event sym maxlen) (df, false) events.

(** Index strictly ascending. *)
Definition index_sorted (df : frame) : Prop :=
  StronglySorted (fun a b => (a.1 < b.1)%Z) df.

End Provider.
Export Provider.

(** * Properties *)

Import Rick Strategies Bot.

(** ** Facts about the float operations *)

Section FloatFacts.

Lemma Qltb_lt (x y : Q) : Qltb x y = true <-> x < y.
Proof.
  unfold Qltb. rewrite negb_true_iff, <- not_true_iff_false, Qle_bool_iff.
  split; [apply Qnot_le_lt | apply Qlt_not_le].
Qed.

Lemma Qltb_ge (x y : Q) : Qltb x y = false <-> y <= x.
Proof.
  unfold Qltb. rewrite negb_false_iff. apply Qle_bool_iff.
Qed.

Lemma Qle_bool_gt (x y : Q) : Qle_bool x y = false <-> y < x.
Proof.
  rewrite <- not_true_iff_false, Qle_bool_iff.
  split; [apply Qnot_le_lt | apply Qlt_not_le].
Qed.

Lemma Qeq_bool_false (x y : Q) : Qeq_bool x y = false <-> ~ x == y.
Proof. rewrite <- not_true_iff_false, Qeq_bool_iff. tauto. Qed.

Lemma fle_Fin (x y : Q) : (Fin x <=? Fin y)%fl = true <-> x <= y.
Proof. apply Qle_bool_iff. Qed.

Lemma flt_Fin (x y : Q) : (Fin x <? Fin y)%fl = true <-> x < y.
Proof. apply Qltb_lt. Qed.

Lemma fle_inv (a b : float) :
  (a <=? b)%fl = true <-> exists x y, a = Fin x /\ b = Fin y /\ x <= y.
Proof.
  split.
  - destruct a as [x|], b as [y|]; cbn; try discriminate.
    intros H. exists x, y. by rewrite <- Qle_bool_iff.
  - intros (x & y & -> & -> & H). by apply fle_Fin.
Qed.

Lemma flt_inv (a b : float) :
  (a <? b)%fl = true <-> exists x y, a = Fin x /\ b = Fin y /\ x < y.
Proof.
  split.
  - destruct a as [x|], b as [y|]; cbn; try discriminate.
    intros H. exists x, y. by rewrite <- Qltb_lt.
  - intros (x & y & -> & -> & H). by apply flt_Fin.
Qed.

Lemma fge_inv (a b : float) :
  (a >=? b)%fl = true <-> exists x y, a = Fin x /\ b = Fin y /\ y <= x.
Proof.
  unfold fge. rewrite fle_inv. split; intros (x & y & ? & ? & ?); eauto 6.
Qed.

Lemma fgt_inv (a b : float) :
  (a >? b)%fl = true <-> exists x y, a = Fin x /\ b = Fin y /\ y < x.
Proof.
  unfold fgt. rewrite flt_inv. split; intros (x & y & ? & ? & ?); eauto 6.
Qed.

(** Python's [max] on two finite values is the mathematical maximum. *)
Lemma pymax_Fin (x y : Q) :
  exists m, pymax (Fin x) (Fin y) = Fin m /\ m == Qmax x y.
Proof.
  unfold pymax, fgt. cbn. destruct (Qltb x y) eqn:E.
  - exists y. split; [done|]. apply Qltb_lt in E.
    symmetry. apply Q.max_r. by apply Qlt_le_weak.
  - exists x. split; [done|]. apply Qltb_ge in E.
    symmetry. by apply Q.max_l.
Qed.

(** A NaN second argument is dropped, a NaN first argument is kept. *)
Lemma pymax_NaN_r (a : float) : pymax a NaN = a.
Proof. by destruct a. Qed.

Lemma pymax_NaN_l (b : float) : pymax NaN b = NaN.
Proof. by destruct b. Qed.

Lemma pymax_Fin_l (x : Q) (b : float) :
  exists m, pymax (Fin x) b = Fin m /\ x <= m.
Proof.
  destruct b as [y|]; [|exists x; split; [done | apply Qle_refl]].
  unfold pymax, fgt. cbn. destruct (Qltb x y) eqn:E.
  - exists y. split; [done|]. apply Qltb_lt in E. by apply Qlt_le_weak.
  - exists x. split; [done | apply Qle_refl].
Qed.

(** On a non-negative value [int] is the floor. *)
Lemma py_int_floor (q : Q) : 0 <= q -> py_int (Fin q) = Some (Qfloor q).
Proof.
  destruct q as [n d]. unfold Qle. cbn. intros H. f_equal.
  apply Z.quot_div_nonneg; lia.
Qed.


End FloatFacts.

(** ** rick.py *)

Section RickFacts.

(** The two clamped quantities of [position_size] are finite whatever the
    arguments, and the quotient is truncated to its floor. *)
Lemma position_size_eval (entry stop equity r : float) :
  exists x y,
    pymax (Fin 0.01) (entry - stop)%fl = Fin x /\ 0.01 <= x /\
    pymax (Fin 0) (equity * r)%fl = Fin y /\ 0 <= y /\
    position_size entry stop equity r = Some (Qfloor (y / x)).
Proof.
  destruct (pymax_Fin_l 0.01 (entry - stop)%fl) as (x & Hx & Hx').
  destruct (pymax_Fin_l 0 (equity * r)%fl) as (y & Hy & Hy').
  exists x, y. repeat split; try done.
  unfold position_size. rewrite Hx, Hy.
  assert (Hpos : 0 < x) by lra.
  replace (Fin x >? Fin 0)%fl with true
    by (symmetry; apply fgt_inv; eauto 6).
  cbn. replace (Qeq_bool x 0) with false
    by (symmetry; apply Qeq_bool_false; lra).
  apply py_int_floor. apply Qle_shift_div_l; lra.
Qed.



End RickFacts.

(** C6 (as amended).  [immediate_stop_hit] carries a tolerance of [1e-12]:
    on finite arguments it is true exactly when
    [price <= entry * (1 - max_loss_pct + 1e-12)], and it is false as soon
    as one argument is NaN. *)
Theorem immediate_stop_hit_spec (price entry max_loss_pct : Q) :
  (immediate_stop_hit price entry max_loss_pct = true
   <-> price <= entry * (1 - max_loss_pct + 1e-12))
  /\ immediate_stop_hit NaN entry max_loss_pct = false
  /\ immediate_stop_hit price NaN max_loss_pct = false
  /\ immediate_stop_hit price entry NaN = false.
Proof.
  repeat split; try done.
  - intros H. by apply fle_Fin in H.
  - intros H. by apply fle_Fin.
Qed.

(** C6 as stated fails: with entry 100 and a zero loss fraction the price
    100.00000000001 is above [entry * (1 - 0)], yet the check fires. *)
Lemma immediate_stop_hit_tolerance_counterexample :
  immediate_stop_hit 100.00000000001 100 0 = true
  /\ ~ (100.00000000001 <= 100 * (1 - 0)).
Proof.
  split; [reflexivity|]. intros H. lra.
Qed.


(** ** rick.py on IEEE doubles *)

Section Literals.
Import Double.
Local Open Scope Z_scope.

(** The constants are the doubles Python reads from the literals, and the
    embedding gives the results of the code on sample arguments, the last
    one with a rounded difference [1.1 - 1.0]. *)
Lemma d_0_01_nearest : d_0_01 = SFdiv prec emax (of_Z 1) (of_Z 100).
Proof. vm_compute. reflexivity. Qed.

Lemma two_1000_exact : two_1000 = of_Z (2 ^ 1000).
Proof. vm_compute. reflexivity. Qed.

Lemma position_size_double_examples :
  position_size (of_Z 100) (of_Z 98) (of_Z 10000) d_0_01 = Returns 50
  /\ position_size (of_Z 100) (of_Z 100) (of_Z 10000) d_0_01 = Returns 10000
  /\ position_size (SFdiv prec emax (of_Z 11) (of_Z 10)) (of_Z 1)
       (of_Z 10000) d_0_01 = Returns 999.
Proof. repeat split; vm_compute; reflexivity. Qed.

End Literals.

Section Digits.
Import Double.
Local Open Scope Z_scope.

Lemma digits2_pos_size (p : positive) : digits2_pos p = Pos.size p.
Proof. induction p; cbn; congruence. Qed.

Lemma Zdigits2_log2 (m : Z) : 0 < m -> Zdigits2 m = Z.log2 m + 1.
Proof.
  destruct m as [|p|p]; try lia. intros _. cbn [Zdigits2].
  rewrite digits2_pos_size. destruct p; cbn; lia.
Qed.

Lemma Zdigits2_bounds (m : Z) :
  0 < m -> 2 ^ (Zdigits2 m - 1) <= m < 2 ^ Zdigits2 m.
Proof.
  intros Hm. rewrite Zdigits2_log2 by done.
  replace (Z.log2 m + 1 - 1) with (Z.log2 m) by lia.
  replace (Z.log2 m + 1) with (Z.succ (Z.log2 m)) by lia.
  apply Z.log2_spec. done.
Qed.

Lemma Zdigits2_pos (m : Z) : 0 < m -> 0 < Zdigits2 m.
Proof.
  intros Hm. rewrite Zdigits2_log2 by done.
  pose proof (Z.log2_nonneg m). lia.
Qed.

Lemma Zdigits2_unique (m d : Z) :
  2 ^ (d - 1) <= m < 2 ^ d -> 0 < d -> Zdigits2 m = d.
Proof.
  intros H Hd.
  assert (Hm : 0 < m).
  { apply Z.lt_le_trans with (2 ^ (d - 1)); [apply Z.pow_pos_nonneg; lia | lia]. }
  rewrite Zdigits2_log2 by done.
  enough (Z.log2 m = d - 1) by lia.
  apply Z.log2_unique; [lia|]. replace (Z.succ (d - 1)) with d by lia. done.
Qed.

Lemma Zdigits2_le (m d : Z) : 0 < m -> 0 <= d -> m < 2 ^ d -> Zdigits2 m <= d.
Proof.
  intros Hm Hd Hlt.
  destruct (Z.le_gt_cases (Zdigits2 m) d) as [|Hgt]; [done|].
  pose proof (Zdigits2_bounds m Hm) as [Hlo _].
  assert (2 ^ d <= 2 ^ (Zdigits2 m - 1)) by (apply Z.pow_le_mono_r; lia).
  lia.
Qed.

Lemma Zdigits2_ge (m d : Z) : 0 < m -> 2 ^ (d - 1) <= m -> d <= Zdigits2 m.
Proof.
  intros Hm Hle.
  destruct (Z.le_gt_cases d (Zdigits2 m)) as [|Hgt]; [done|].
  pose proof (Zdigits2_bounds m Hm) as [_ Hhi].
  assert (2 ^ Zdigits2 m <= 2 ^ (d - 1)).
  { apply Z.pow_le_mono_r; [lia|]. lia. }
  lia.
Qed.

End Digits.

Section Shifts.
Import Double.
Local Open Scope Z_scope.

Lemma iter_pos_nat {A : Type} (f : A -> A) (p : positive) (x : A) :
  @SpecFloat.iter_pos A f p x = Nat.iter (Pos.to_nat p) f x.
Proof.
  revert x. induction p as [p IH|p IH|]; intros x; cbn [SpecFloat.iter_pos].
  - rewrite !IH, Pos2Nat.inj_xI. cbn [Nat.iter Nat.mul].
    rewrite Nat.add_0_r, <- Nat.iter_add, <- Nat.iter_succ_r. done.
  - rewrite !IH, Pos2Nat.inj_xO. cbn [Nat.mul].
    rewrite Nat.add_0_r, <- Nat.iter_add. done.
  - done.
Qed.

Lemma shr_1_m (r : shr_record) :
  0 <= shr_m r -> shr_m (shr_1 r) = shr_m r / 2.
Proof.
  destruct r as [m b s]. cbn [shr_m]. intros Hm.
  destruct m as [|[p|p|]|p]; cbn [shr_1 shr_m]; [done| | |done|lia].
  - apply Z.div_unique with 1; lia.
  - apply Z.div_unique with 0; lia.
Qed.

Lemma shr_iter_m (n : nat) (r : shr_record) :
  0 <= shr_m r -> shr_m (Nat.iter n shr_1 r) = shr_m r / 2 ^ Z.of_nat n.
Proof.
  intros Hm. induction n as [|n IH].
  - cbn. by rewrite Z.div_1_r.
  - rewrite Nat.iter_succ, shr_1_m.
    + rewrite IH, Nat2Z.inj_succ, Z.pow_succ_r by lia.
      rewrite Z.div_div by (try apply Z.pow_pos_nonneg; lia).
      f_equal. lia.
    + rewrite IH. apply Z.div_pos; [done | apply Z.pow_pos_nonneg; lia].
Qed.

Lemma shr_spec (r : shr_record) (e n : Z) :
  0 <= shr_m r ->
  shr_m (shr r e n).1 = shr_m r / 2 ^ Z.max 0 n
  /\ (shr r e n).2 = e + Z.max 0 n.
Proof.
  intros Hm. destruct n as [|p|p]; cbn [shr fst snd].
  - rewrite Z.div_1_r. lia.
  - rewrite iter_pos_nat, shr_iter_m, positive_nat_Z by done.
    replace (Z.max 0 (Z.pos p)) with (Z.pos p) by lia. done.
  - replace (Z.max 0 (Z.neg p)) with 0 by lia. rewrite Z.div_1_r. lia.
Qed.

Lemma shr_record_of_loc_m (m : Z) (l : location) :
  shr_m (shr_record_of_loc m l) = m.
Proof. by destruct l as [|[]]. Qed.

Lemma round_nearest_even_range (m : Z) (l : location) :
  m <= round_nearest_even m l <= m + 1.
Proof. destruct l as [|[]]; cbn; try lia. destruct (Z.even m); lia. Qed.

(** What [binary_round_aux] returns for a non-negative mantissa: the
    mantissa is cut to the format, moved up by at most one, and cut once
    more. *)
Lemma binary_round_aux_spec (s : bool) (m e : Z) (l : location) :
  0 <= m ->
  let n1 := Z.max 0 (fexp prec emax (Zdigits2 m + e) - e) in
  exists m2,
    m / 2 ^ n1 <= m2 <= m / 2 ^ n1 + 1
    /\ let e1 := e + n1 in
       let n2 := Z.max 0 (fexp prec emax (Zdigits2 m2 + e1) - e1) in
       binary_round_aux prec emax s m e l
       = match m2 / 2 ^ n2 with
         | Z0 => S754_zero s
         | Zpos m3 =>
             if e1 + n2 <=? emax - prec then S754_finite s m3 (e1 + n2)
             else S754_infinity s
         | Zneg _ => S754_nan
         end.
Proof.
  intros Hm n1. unfold binary_round_aux, shr_fexp.
  destruct (shr_spec (shr_record_of_loc m l) e
              (fexp prec emax (Zdigits2 m + e) - e)) as [H1 H1'].
  { by rewrite shr_record_of_loc_m. }
  rewrite shr_record_of_loc_m in H1.
  destruct (shr _ e _) as [r1 e1] eqn:E1. cbn [fst snd] in H1, H1'.
  exists (round_nearest_even (shr_m r1) (loc_of_shr_record r1)).
  fold n1 in H1, H1'. rewrite <- H1. split; [apply round_nearest_even_range|].
  cbv zeta. rewrite <- H1'.
  set (m2 := round_nearest_even _ _).
  assert (Hm2 : 0 <= m2).
  { pose proof (round_nearest_even_range (shr_m r1) (loc_of_shr_record r1)).
    assert (0 <= shr_m r1).
    { rewrite H1. apply Z.div_pos; [done | apply Z.pow_pos_nonneg; lia]. }
    unfold m2. lia. }
  destruct (shr_spec (shr_record_of_loc m2 loc_Exact) e1
              (fexp prec emax (Zdigits2 m2 + e1) - e1)) as [H2 H2'].
  { by rewrite shr_record_of_loc_m. }
  rewrite shr_record_of_loc_m in H2.
  destruct (shr _ e1 _) as [r2 e2] eqn:E2. cbn [fst snd] in H2, H2'.
  rewrite H2, H2'. done.
Qed.

End Shifts.

Section Rounding.
Import Double.
Local Open Scope Z_scope.

Lemma fexp_eq (e : Z) : fexp prec emax e = Z.max (e - 53) (-1074).
Proof. reflexivity. Qed.

Lemma pow2_pos (n : Z) : 0 <= n -> 0 < 2 ^ n.
Proof. intros. apply Z.pow_pos_nonneg; lia. Qed.

Lemma div_lt_pow (m d n : Z) :
  0 <= n <= d -> m < 2 ^ d -> m / 2 ^ n < 2 ^ (d - n).
Proof.
  intros Hn Hm. apply Z.div_lt_upper_bound; [apply pow2_pos; lia|].
  rewrite <- Z.pow_add_r by lia. by replace (n + (d - n)) with d by lia.
Qed.

Lemma div_ge_pow (m k n : Z) :
  0 <= n <= k -> 2 ^ k <= m -> 2 ^ (k - n) <= m / 2 ^ n.
Proof.
  intros Hn Hm. apply Z.div_le_lower_bound; [apply pow2_pos; lia|].
  rewrite <- Z.pow_add_r by lia. by replace (n + (k - n)) with k by lia.
Qed.

Lemma ge_one_mono (m m' e : Z) : ge_one m e -> m <= m' -> ge_one m' e.
Proof. intros [H1 H2] Hle. split; [lia|]. intros He. specialize (H2 He). lia. Qed.

Lemma ge_one_digits (m e : Z) : ge_one m e -> 1 <= Zdigits2 m + e.
Proof.
  intros [H1 H2]. pose proof (Zdigits2_pos m H1).
  destruct (Z.le_gt_cases e 0) as [He|He]; [|lia].
  specialize (H2 He).
  pose proof (Zdigits2_ge m (- e + 1) H1) as Hg.
  replace (- e + 1 - 1) with (- e) in Hg by lia. specialize (Hg H2). lia.
Qed.

Lemma ge_one_shift (m e n : Z) :
  ge_one m e -> 0 <= n < Zdigits2 m -> ge_one (m / 2 ^ n) (e + n).
Proof.
  intros [H1 H2] Hn. pose proof (Zdigits2_bounds m H1) as [Hlo _].
  split.
  - apply Z.lt_le_trans with (2 ^ (Zdigits2 m - 1 - n)); [apply pow2_pos; lia|].
    apply div_ge_pow; [lia | done].
  - intros He. assert (He' : e <= 0) by lia. specialize (H2 He').
    replace (- (e + n)) with (- e - n) by lia.
    apply div_ge_pow; [lia | done].
Qed.

Lemma ge_one_trunc (m : positive) (e : Z) :
  ge_one (Z.pos m) e -> 1 <= Z.shiftl (Z.pos m) e.
Proof.
  intros [_ H]. destruct (Z.le_gt_cases e 0) as [He|He].
  - specialize (H He). rewrite <- (Z.opp_involutive e) at 1.
    rewrite Z.shiftl_opp_r, Z.shiftr_div_pow2 by lia.
    apply Z.div_le_lower_bound; [apply pow2_pos; lia | lia].
  - rewrite Z.shiftl_mul_pow2 by lia.
    pose proof (pow2_pos e). nia.
Qed.

(** A result of [binary_round_aux] on a value that is at least one is at
    least one, or has overflowed. *)
Lemma binary_round_aux_ge_one (s : bool) (m e : Z) (l : location) :
  ge_one m e ->
  binary_round_aux prec emax s m e l = S754_infinity s
  \/ exists m3 e3,
       binary_round_aux prec emax s m e l = S754_finite s m3 e3
       /\ ge_one (Z.pos m3) e3.
Proof.
  intros Hge. pose proof Hge as [Hm _].
  destruct (binary_round_aux_spec s m e l) as (m2 & Hm2 & ->); [lia|].
  pose proof (ge_one_digits m e Hge) as Hd.
  set (n1 := Z.max 0 (fexp prec emax (Zdigits2 m + e) - e)) in *.
  assert (Hn1 : 0 <= n1 < Zdigits2 m).
  { pose proof (Zdigits2_pos m Hm). unfold n1. rewrite fexp_eq. lia. }
  pose proof (ge_one_shift m e n1 Hge Hn1) as Hge1.
  assert (Hge2 : ge_one m2 (e + n1)) by (eapply ge_one_mono; [done | lia]).
  pose proof (ge_one_digits _ _ Hge2) as Hd2.
  cbv zeta.
  set (n2 := Z.max 0 (fexp prec emax (Zdigits2 m2 + (e + n1)) - (e + n1))) in *.
  assert (Hn2 : 0 <= n2 < Zdigits2 m2).
  { destruct Hge2 as [Hm2' _]. pose proof (Zdigits2_pos m2 Hm2').
    unfold n2. rewrite fexp_eq. lia. }
  pose proof (ge_one_shift m2 (e + n1) n2 Hge2 Hn2) as Hge3.
  destruct (m2 / 2 ^ n2) as [|m3|m3] eqn:E3.
  - destruct Hge3. lia.
  - destruct (_ <=? _); [right | by left]. by exists m3, (e + n1 + n2).
  - destruct Hge3. lia.
Qed.

(** No overflow below [2^1023]. *)
Lemma binary_round_aux_finite (s : bool) (m e : Z) (l : location) :
  0 <= m -> e <= 971 -> Zdigits2 m + e <= 1023 ->
  binary_round_aux prec emax s m e l = S754_zero s
  \/ exists m3 e3, binary_round_aux prec emax s m e l = S754_finite s m3 e3.
Proof.
  intros Hm He Hd.
  destruct (binary_round_aux_spec s m e l) as (m2 & Hm2 & ->); [lia|].
  set (n1 := Z.max 0 (fexp prec emax (Zdigits2 m + e) - e)) in *.
  cbv zeta.
  set (n2 := Z.max 0 (fexp prec emax (Zdigits2 m2 + (e + n1)) - (e + n1))) in *.
  assert (H0 : 0 <= m / 2 ^ n1).
  { apply Z.div_pos; [done | apply pow2_pos; lia]. }
  assert (Hd2 : m2 = 0 \/ (0 < m2 /\ Zdigits2 m2 + (e + n1) <= Z.max (Zdigits2 m + e) (e + n1) + 1)).
  { destruct (Z.eq_dec m2 0) as [|Hne]; [by left | right].
    split; [lia|].
    destruct (Z.eq_dec m 0) as [->|Hm0].
    - rewrite Z.div_0_l in Hm2 by (pose proof (pow2_pos n1); lia).
      assert (m2 = 1) as -> by lia. cbn. lia.
    - pose proof (Zdigits2_bounds m) as [_ Hhi]; [lia|].
      destruct (Z.le_gt_cases n1 (Zdigits2 m)) as [Hle|Hgt].
      + assert (m / 2 ^ n1 < 2 ^ (Zdigits2 m - n1)) by (apply div_lt_pow; lia).
        assert (Zdigits2 m2 <= Zdigits2 m - n1 + 1).
        { apply Zdigits2_le; [lia | lia|].
          rewrite Z.pow_add_r by lia. lia. }
        lia.
      + assert (m / 2 ^ n1 = 0) as Hz.
        { apply Z.div_small. split; [done|].
          apply Z.lt_le_trans with (2 ^ Zdigits2 m); [done|].
          apply Z.pow_le_mono_r; lia. }
        rewrite Hz in Hm2. assert (m2 = 1) as -> by lia. cbn. lia. }
  destruct (m2 / 2 ^ n2) as [|m3|m3] eqn:E3.
  - by left.
  - right. replace (e + n1 + n2 <=? emax - prec) with true; [by eauto|].
    symmetry. apply Z.leb_le. change (emax - prec) with 971.
    destruct Hd2 as [->|[Hpos Hd2]].
    + rewrite Z.div_0_l in E3 by (pose proof (pow2_pos n2); lia). done.
    + unfold n2, n1 in *. rewrite !fexp_eq in *. lia.
  - assert (0 <= m2 / 2 ^ n2); [|lia].
    apply Z.div_pos; [lia | apply pow2_pos; lia].
Qed.

End Rounding.

Section Validity.
Import Double.
Local Open Scope Z_scope.

Lemma valid_finite (s : bool) (m : positive) (e : Z) :
  valid (S754_finite s m e)
  <-> fexp prec emax (Zdigits2 (Z.pos m) + e) = e /\ e <= 971.
Proof.
  unfold valid, valid_binary, bounded, canonical_mantissa.
  rewrite andb_true_iff, Z.eqb_eq, Z.leb_le. done.
Qed.

(** Canonical form in numbers: the exponent is at least [-1074], the
    mantissa has at most 53 digits, and exactly 53 above the smallest
    exponent. *)
Lemma valid_finite_inv (s : bool) (m : positive) (e : Z) :
  valid (S754_finite s m e) ->
  -1074 <= e <= 971 /\ Zdigits2 (Z.pos m) <= 53
  /\ (-1074 < e -> Zdigits2 (Z.pos m) = 53).
Proof. rewrite valid_finite, fexp_eq. lia. Qed.

Lemma binary_round_aux_valid (s : bool) (m e : Z) (l : location) :
  0 < m -> e <= fexp prec emax (Zdigits2 m + e) ->
  valid (binary_round_aux prec emax s m e l).
Proof.
  intros Hm Hpre.
  destruct (binary_round_aux_spec s m e l) as (m2 & Hm2 & ->); [lia|].
  pose proof (Zdigits2_bounds m Hm) as [Hlo Hhi].
  pose proof (Zdigits2_pos m Hm) as Hd.
  set (n1 := Z.max 0 (fexp prec emax (Zdigits2 m + e) - e)) in *.
  cbv zeta.
  set (n2 := Z.max 0 (fexp prec emax (Zdigits2 m2 + (e + n1)) - (e + n1))) in *.
  rewrite fexp_eq in Hpre.
  destruct (Z.le_gt_cases (-1074) (Zdigits2 m + e - 53)) as [Hbig|Hsmall].
  - (* at least 53 digits are kept *)
    assert (Hn1 : n1 = Zdigits2 m - 53) by (unfold n1; rewrite fexp_eq; lia).
    assert (H1 : 2 ^ 52 <= m / 2 ^ n1 < 2 ^ 53).
    { split.
      - replace 52 with (Zdigits2 m - 1 - n1) by lia. apply div_ge_pow; [lia | done].
      - replace 53 with (Zdigits2 m - n1) by lia. apply div_lt_pow; [lia | done]. }
    destruct (Z.eq_dec m2 (2 ^ 53)) as [->|Hne].
    + assert (Hn2 : n2 = 1).
      { unfold n2. rewrite fexp_eq.
        replace (Zdigits2 (2 ^ 53)) with 54 by done. lia. }
      rewrite Hn2. replace (2 ^ 53 / 2 ^ 1) with (Z.pos 4503599627370496) by done.
      destruct (_ <=? _) eqn:E; [|done].
      apply valid_finite. apply Z.leb_le in E. change (emax - prec) with 971 in E.
      split; [|lia]. rewrite fexp_eq.
      replace (Zdigits2 (Z.pos 4503599627370496)) with 53 by done. lia.
    + assert (Hd2 : Zdigits2 m2 = 53).
      { apply Zdigits2_unique; [|lia]. change (53 - 1) with 52. lia. }
      assert (Hn2 : n2 = 0) by (unfold n2; rewrite fexp_eq, Hd2; lia).
      rewrite Hn2, Z.pow_0_r, Z.div_1_r, Z.add_0_r.
      destruct m2 as [|m3|m3]; [done| |done].
      destruct (_ <=? _) eqn:E; [|done].
      apply valid_finite. apply Z.leb_le in E. change (emax - prec) with 971 in E.
      split; [|lia]. rewrite fexp_eq, Hd2. lia.
  - (* the subnormal range *)
    assert (Hn1 : n1 = -1074 - e) by (unfold n1; rewrite fexp_eq; lia).
    assert (H1 : 0 <= m / 2 ^ n1 < 2 ^ 52).
    { split; [apply Z.div_pos; [lia | apply pow2_pos; lia]|].
      destruct (Z.le_gt_cases n1 (Zdigits2 m)) as [Hle|Hgt].
      - apply Z.lt_le_trans with (2 ^ (Zdigits2 m - n1)).
        + apply div_lt_pow; [lia | done].
        + apply Z.pow_le_mono_r; lia.
      - rewrite Z.div_small; [done|]. split; [lia|].
        apply Z.lt_le_trans with (2 ^ Zdigits2 m); [done|].
        apply Z.pow_le_mono_r; lia. }
    destruct (Z.eq_dec m2 0) as [->|Hne].
    { rewrite Z.div_0_l by (pose proof (pow2_pos n2); lia). done. }
    assert (Hd2 : 0 < Zdigits2 m2 <= 53).
    { split; [apply Zdigits2_pos; lia|].
      apply Zdigits2_le; [lia | lia|].
      apply Z.le_lt_trans with (2 ^ 52); [lia | done]. }
    assert (Hn2 : n2 = 0) by (unfold n2; rewrite fexp_eq; lia).
    rewrite Hn2, Z.pow_0_r, Z.div_1_r, Z.add_0_r.
    destruct m2 as [|m3|m3]; [done| |lia].
    replace (e + n1 <=? emax - prec) with true
      by (symmetry; apply Z.leb_le; change (emax - prec) with 971; lia).
    apply valid_finite. split; [|lia]. rewrite fexp_eq. lia.
Qed.

End Validity.

Section Operations.
Import Double.
Local Open Scope Z_scope.

Lemma Zdigits2_mul_ge (a b : positive) :
  Zdigits2 (Z.pos a) + Zdigits2 (Z.pos b) - 1 <= Zdigits2 (Z.pos (a * b)).
Proof.
  pose proof (Zdigits2_bounds (Z.pos a) eq_refl) as [Ha _].
  pose proof (Zdigits2_bounds (Z.pos b) eq_refl) as [Hb _].
  pose proof (Zdigits2_pos (Z.pos a) eq_refl) as Hda.
  pose proof (Zdigits2_pos (Z.pos b) eq_refl) as Hdb.
  apply Zdigits2_ge; [done|].
  replace (Zdigits2 (Z.pos a) + Zdigits2 (Z.pos b) - 1 - 1)
    with ((Zdigits2 (Z.pos a) - 1) + (Zdigits2 (Z.pos b) - 1)) by lia.
  rewrite Z.pow_add_r, Pos2Z.inj_mul by lia.
  apply Z.mul_le_mono_nonneg; try done; apply Z.lt_le_incl, pow2_pos; lia.
Qed.

Lemma mul_valid (x y : double) : valid x -> valid y -> valid (mul x y).
Proof.
  destruct x as [sx|sx| |sx mx ex], y as [sy|sy| |sy my ey]; try done.
  intros Hx%valid_finite_inv Hy%valid_finite_inv.
  unfold mul, SFmul. apply binary_round_aux_valid; [done|].
  pose proof (Zdigits2_mul_ge mx my).
  pose proof (Zdigits2_pos (Z.pos mx) eq_refl).
  pose proof (Zdigits2_pos (Z.pos my) eq_refl).
  rewrite fexp_eq. lia.
Qed.

Lemma iter_xO (m d : positive) : Z.pos (Pos.iter xO m d) = Z.pos m * 2 ^ Z.pos d.
Proof.
  rewrite <- Z.shiftl_mul_pow2 by done. cbn [Z.shiftl].
  apply (Pos.iter_swap_gen _ _ Z.pos xO (Z.mul 2)). done.
Qed.

Lemma Zdigits2_shift (m d : Z) :
  0 < m -> 0 <= d -> Zdigits2 (m * 2 ^ d) = Zdigits2 m + d.
Proof.
  intros Hm Hd. pose proof (Zdigits2_bounds m Hm) as [Hlo Hhi].
  pose proof (Zdigits2_pos m Hm). pose proof (pow2_pos d Hd).
  apply Zdigits2_unique; [|lia]. split.
  - replace (Zdigits2 m + d - 1) with (Zdigits2 m - 1 + d) by lia.
    rewrite Z.pow_add_r by lia. nia.
  - rewrite Z.pow_add_r by lia. nia.
Qed.

Lemma binary_round_valid (s : bool) (m : positive) (e : Z) :
  valid (binary_round prec emax s m e).
Proof.
  unfold binary_round, shl_align.
  pose proof (Zdigits2_pos (Z.pos m) eq_refl) as Hd.
  change (Z.pos (digits2_pos m)) with (Zdigits2 (Z.pos m)).
  destruct (fexp prec emax (Zdigits2 (Z.pos m) + e) - e) as [|d|d] eqn:E;
    (apply binary_round_aux_valid; [done|]).
  - lia.
  - lia.
  - rewrite iter_xO, Zdigits2_shift by done.
    rewrite !fexp_eq in *. lia.
Qed.

Lemma binary_normalize_valid (m e : Z) (s : bool) :
  valid (binary_normalize prec emax m e s).
Proof. destruct m; [done | apply binary_round_valid ..]. Qed.

Lemma sub_valid (x y : double) : valid x -> valid y -> valid (sub x y).
Proof.
  destruct x as [sx|sx| |sx mx ex], y as [sy|sy| |sy my ey]; try done.
  - by destruct sx, sy.
  - by destruct sx, sy.
  - intros _ _. apply binary_normalize_valid.
Qed.

End Operations.

Section Comparisons.
Import Double.
Local Open Scope Z_scope.

(** Canonical doubles compare as their values, here scaled by [2^1074]. *)
Lemma compare_magnitude (m1 m2 : positive) (e1 e2 : Z) (s1 s2 : bool) :
  valid (S754_finite s1 m1 e1) -> valid (S754_finite s2 m2 e2) ->
  match e1 ?= e2 with
  | Lt => Lt
  | Gt => Gt
  | Eq => Pos.compare_cont Eq m1 m2
  end = (Z.pos m1 * 2 ^ (e1 + 1074) ?= Z.pos m2 * 2 ^ (e2 + 1074)).
Proof.
  intros (He1 & Hd1 & Hn1)%valid_finite_inv (He2 & Hd2 & Hn2)%valid_finite_inv.
  pose proof (Zdigits2_bounds (Z.pos m1) eq_refl) as [Hlo1 Hhi1].
  pose proof (Zdigits2_bounds (Z.pos m2) eq_refl) as [Hlo2 Hhi2].
  pose proof (Zdigits2_pos (Z.pos m1) eq_refl) as Hp1.
  pose proof (Zdigits2_pos (Z.pos m2) eq_refl) as Hp2.
  assert (H53 : forall d, 0 < d <= 53 -> 2 ^ d <= 2 ^ 53).
  { intros d Hd. apply Z.pow_le_mono_r; lia. }
  pose proof (H53 _ (conj Hp1 Hd1)) as Hb1.
  pose proof (H53 _ (conj Hp2 Hd2)) as Hb2.
  symmetry. destruct (Z.compare_spec e1 e2) as [->|Hlt|Hgt].
  - pose proof (pow2_pos (e2 + 1074)).
    change (Pos.compare_cont Eq m1 m2) with (Z.pos m1 ?= Z.pos m2).
    destruct (Z.compare_spec (Z.pos m1) (Z.pos m2)) as [E|E|E].
    + apply Z.compare_eq_iff. by rewrite E.
    + apply Z.compare_lt_iff. nia.
    + apply Z.compare_gt_iff. nia.
  - apply Z.compare_lt_iff.
    rewrite Hn2 in Hlo2 by lia. change (2 ^ (53 - 1)) with (2 ^ 52) in Hlo2.
    assert (Hp : 2 ^ (e2 + 1074) = 2 ^ (e2 - e1 - 1) * (2 * 2 ^ (e1 + 1074))).
    { rewrite <- Z.pow_succ_r, <- Z.pow_add_r by lia. f_equal. lia. }
    rewrite Hp.
    pose proof (pow2_pos (e1 + 1074)). pose proof (pow2_pos (e2 - e1 - 1)).
    change (2 ^ 53) with (2 * 2 ^ 52) in *. nia.
  - apply Z.compare_gt_iff.
    rewrite Hn1 in Hlo1 by lia. change (2 ^ (53 - 1)) with (2 ^ 52) in Hlo1.
    assert (Hp : 2 ^ (e1 + 1074) = 2 ^ (e1 - e2 - 1) * (2 * 2 ^ (e2 + 1074))).
    { rewrite <- Z.pow_succ_r, <- Z.pow_add_r by lia. f_equal. lia. }
    rewrite Hp.
    pose proof (pow2_pos (e2 + 1074)). pose proof (pow2_pos (e1 - e2 - 1)).
    change (2 ^ 53) with (2 * 2 ^ 52) in *. nia.
Qed.

Lemma compare_positive (m1 m2 : positive) (e1 e2 : Z) :
  valid (S754_finite false m1 e1) -> valid (S754_finite false m2 e2) ->
  SFcompare (S754_finite false m1 e1) (S754_finite false m2 e2)
  = Some (Z.pos m1 * 2 ^ (e1 + 1074) ?= Z.pos m2 * 2 ^ (e2 + 1074)).
Proof. intros H1 H2. cbn. f_equal. by apply compare_magnitude with false false. Qed.

Lemma compare_negative (m1 m2 : positive) (e1 e2 : Z) :
  valid (S754_finite true m1 e1) -> valid (S754_finite true m2 e2) ->
  SFcompare (S754_finite true m1 e1) (S754_finite true m2 e2)
  = Some (CompOpp (Z.pos m1 * 2 ^ (e1 + 1074) ?= Z.pos m2 * 2 ^ (e2 + 1074))).
Proof.
  intros H1 H2. cbn. f_equal.
  rewrite <- (compare_magnitude m1 m2 e1 e2 true true) by done.
  by destruct (e1 ?= e2).
Qed.

End Comparisons.

Section SubDiv.
Import Double.
Local Open Scope Z_scope.

Lemma binary_round_aux_negative (m e : Z) (l : location) :
  0 <= m -> gt (binary_round_aux prec emax true m e l) d_0_01 = false.
Proof.
  intros Hm. destruct (binary_round_aux_spec true m e l) as (m2 & _ & ->); [done|].
  cbv zeta. destruct (_ / _); [done| |done]. by destruct (_ <=? _).
Qed.

Lemma shl_align_fst (m : positive) (e e' : Z) :
  e' <= e -> Z.pos (shl_align m e e').1 = Z.pos m * 2 ^ (e - e').
Proof.
  intros Hle. unfold shl_align. destruct (e' - e) as [|d|d] eqn:E; cbn [fst].
  - replace (e - e') with 0 by lia. lia.
  - lia.
  - rewrite iter_xO. f_equal. f_equal. lia.
Qed.

(** With the stop above the entry, [entry - stop] is not above 0.01. *)
Lemma sub_inverted (e s : double) :
  valid e -> valid s -> lt e s = true -> gt (sub e s) d_0_01 = false.
Proof.
  destruct e as [se|se| |se me ee], s as [ss|ss| |ss ms es]; try done;
    try (by destruct se, ss); try (by destruct se); try (by destruct ss).
  intros He Hs Hlt. unfold sub, SFsub.
  pose proof (valid_finite_inv _ _ _ He) as (Hee & _).
  pose proof (valid_finite_inv _ _ _ Hs) as (Hes & _).
  rewrite !shl_align_fst by lia.
  set (ez := Z.min ee es).
  set (X := Z.pos me * 2 ^ (ee - ez)). set (Y := Z.pos ms * 2 ^ (es - ez)).
  assert (HX : 0 < X) by (pose proof (pow2_pos (ee - ez)); unfold X; nia).
  assert (HY : 0 < Y) by (pose proof (pow2_pos (es - ez)); unfold Y; nia).
  assert (HXe : X * 2 ^ (ez + 1074) = Z.pos me * 2 ^ (ee + 1074)).
  { unfold X. rewrite <- Z.mul_assoc, <- Z.pow_add_r by lia. do 2 f_equal. lia. }
  assert (HYe : Y * 2 ^ (ez + 1074) = Z.pos ms * 2 ^ (es + 1074)).
  { unfold Y. rewrite <- Z.mul_assoc, <- Z.pow_add_r by lia. do 2 f_equal. lia. }
  assert (HP : 0 < 2 ^ (ez + 1074)) by (apply pow2_pos; lia).
  assert (HD : cond_Zopp se X - cond_Zopp ss Y <= 0).
  { unfold lt, SFltb in Hlt. destruct se, ss; cbn [cond_Zopp].
    - rewrite compare_negative in Hlt by done.
      rewrite <- HXe, <- HYe in Hlt.
      destruct (Z.compare_spec (X * 2 ^ (ez + 1074)) (Y * 2 ^ (ez + 1074)));
        try done. nia.
    - lia.
    - done.
    - rewrite compare_positive in Hlt by done.
      rewrite <- HXe, <- HYe in Hlt.
      destruct (Z.compare_spec (X * 2 ^ (ez + 1074)) (Y * 2 ^ (ez + 1074)));
        try done. nia. }
  destruct (cond_Zopp se X - cond_Zopp ss Y) as [|p|p]; [done | lia|].
  cbn [binary_normalize]. unfold binary_round.
  destruct (shl_align _ _ _). by apply binary_round_aux_negative.
Qed.

Lemma div_core_spec (mx my : positive) (ex ey : Z) :
  let e' := Z.min (fexp prec emax (Zdigits2 (Z.pos mx) + ex
                                   - (Zdigits2 (Z.pos my) + ey))) (ex - ey) in
  exists l,
    SFdiv_core_binary prec emax (Z.pos mx) ex (Z.pos my) ey
    = (Z.pos mx * 2 ^ (ex - ey - e') / Z.pos my, e', l).
Proof.
  intros e'. unfold SFdiv_core_binary. fold e'.
  assert (Hs : 0 <= ex - ey - e') by (unfold e'; lia).
  set (m' := match ex - ey - e' with
             | 0 => Z.pos mx
             | Z.pos _ => Z.shiftl (Z.pos mx) (ex - ey - e')
             | Z.neg _ => 0
             end).
  assert (Hm' : m' = Z.pos mx * 2 ^ (ex - ey - e')).
  { unfold m'. destruct (ex - ey - e') as [|p|p] eqn:E; [lia| |lia].
    by rewrite Z.shiftl_mul_pow2. }
  rewrite <- Hm'. unfold Z.div.
  destruct (Z.div_eucl m' (Z.pos my)) as [q r]. by eexists.
Qed.

(** A quotient of two positive doubles, the first not below the second,
    is at least one or has overflowed. *)
Lemma div_ge_one (mx my : positive) (ex ey : Z) :
  valid (S754_finite false mx ex) -> valid (S754_finite false my ey) ->
  Z.pos my * 2 ^ (ey + 1074) <= Z.pos mx * 2 ^ (ex + 1074) ->
  SFdiv prec emax (S754_finite false mx ex) (S754_finite false my ey)
  = S754_infinity false
  \/ exists m e,
       SFdiv prec emax (S754_finite false mx ex) (S754_finite false my ey)
       = S754_finite false m e
       /\ ge_one (Z.pos m) e.
Proof.
  intros (Hex & Hdx & Hnx)%valid_finite_inv (Hey & Hdy & Hny)%valid_finite_inv Hle.
  unfold SFdiv. destruct (div_core_spec mx my ex ey) as (l & ->).
  cbn [xorb]. apply binary_round_aux_ge_one.
  pose proof (Zdigits2_bounds (Z.pos mx) eq_refl) as [Hlox Hhix].
  pose proof (Zdigits2_bounds (Z.pos my) eq_refl) as [Hloy Hhiy].
  pose proof (Zdigits2_pos (Z.pos mx) eq_refl) as Hpx.
  pose proof (Zdigits2_pos (Z.pos my) eq_refl) as Hpy.
  set (e' := Z.min _ _). set (s := ex - ey - e').
  assert (Hs : 0 <= s) by (unfold s, e'; lia).
  pose proof (pow2_pos s Hs) as Hps.
  assert (Hq : forall k, Z.pos my * k <= Z.pos mx * 2 ^ s ->
                         k <= Z.pos mx * 2 ^ s / Z.pos my).
  { intros k Hk. apply Z.div_le_lower_bound; [done | done]. }
  destruct (Z.le_gt_cases e' 0) as [He'|He'].
  - assert (H1 : 2 ^ (- e') <= Z.pos mx * 2 ^ s / Z.pos my).
    { apply Hq.
      assert (HP : 0 < 2 ^ (ey + 1074)) by (apply pow2_pos; lia).
      assert (E : Z.pos mx * 2 ^ s * 2 ^ (ey + 1074)
                  = Z.pos mx * 2 ^ (ex + 1074) * 2 ^ (- e')).
      { rewrite <- !Z.mul_assoc, <- !Z.pow_add_r by lia. do 2 f_equal.
        unfold s. lia. }
      pose proof (pow2_pos (- e')). nia. }
    split; [|done]. pose proof (pow2_pos (- e')). lia.
  - split; [|lia].
    apply Z.lt_le_trans with 1; [done|]. apply Hq.
    assert (Hd : Zdigits2 (Z.pos my) <= Zdigits2 (Z.pos mx) - 1 + s).
    { unfold s, e' in *. rewrite fexp_eq in *. lia. }
    assert (2 ^ Zdigits2 (Z.pos my) <= 2 ^ (Zdigits2 (Z.pos mx) - 1 + s))
      by (apply Z.pow_le_mono_r; lia).
    rewrite Z.pow_add_r in * by lia. nia.
Qed.

(** A quotient of two positive doubles whose magnitudes differ by at most
    1022 binary orders does not overflow. *)
Lemma div_finite (sx sy : bool) (mx my : positive) (ex ey : Z) :
  valid (S754_finite sx mx ex) -> valid (S754_finite sy my ey) ->
  Zdigits2 (Z.pos mx) + ex - (Zdigits2 (Z.pos my) + ey) <= 1022 ->
  SFdiv prec emax (S754_finite sx mx ex) (S754_finite sy my ey)
  = S754_zero (xorb sx sy)
  \/ exists m e,
       SFdiv prec emax (S754_finite sx mx ex) (S754_finite sy my ey)
       = S754_finite (xorb sx sy) m e.
Proof.
  intros (Hex & Hdx & Hnx)%valid_finite_inv (Hey & Hdy & Hny)%valid_finite_inv Hle.
  unfold SFdiv. destruct (div_core_spec mx my ex ey) as (l & ->).
  pose proof (Zdigits2_bounds (Z.pos mx) eq_refl) as [Hlox Hhix].
  pose proof (Zdigits2_bounds (Z.pos my) eq_refl) as [Hloy Hhiy].
  pose proof (Zdigits2_pos (Z.pos mx) eq_refl) as Hpx.
  pose proof (Zdigits2_pos (Z.pos my) eq_refl) as Hpy.
  set (e' := Z.min _ _). set (s := ex - ey - e').
  assert (Hs : 0 <= s) by (unfold s, e'; lia).
  pose proof (pow2_pos s Hs) as Hps.
  set (q := Z.pos mx * 2 ^ s / Z.pos my).
  assert (Hq0 : 0 <= q) by (apply Z.div_pos; lia).
  apply binary_round_aux_finite; [done | |].
  - unfold e'. rewrite fexp_eq. lia.
  - destruct (Z.eq_dec q 0) as [->|Hne].
    { cbn [Zdigits2]. unfold e'. rewrite fexp_eq. lia. }
    assert (Hqm : q * Z.pos my <= Z.pos mx * 2 ^ s).
    { unfold q. rewrite Z.mul_comm. apply Z.mul_div_le. done. }
    assert (Hq1 : 0 < q) by lia.
    pose proof (Zdigits2_bounds q Hq1) as [Hloq _].
    pose proof (Zdigits2_pos q Hq1) as Hpq.
    assert (Hlt : 2 ^ (Zdigits2 q - 1 + (Zdigits2 (Z.pos my) - 1))
                  < 2 ^ (Zdigits2 (Z.pos mx) + s)).
    { rewrite !Z.pow_add_r by lia.
      pose proof (pow2_pos (Zdigits2 q - 1)).
      pose proof (pow2_pos (Zdigits2 (Z.pos my) - 1)). nia. }
    apply Z.pow_lt_mono_r_iff in Hlt; [|lia|lia].
    unfold s in Hlt. lia.
Qed.

End SubDiv.

Section SizingFacts.
Import Double.
Local Open Scope Z_scope.

(** The two clamped quantities: the per-share risk is 0.01 or a larger
    positive value, the risk budget is zero or a positive product. *)
Lemma risk_per_share_cases (entry stop : double) :
  let rps := pymax d_0_01 (sub entry stop) in
  rps = d_0_01
  \/ rps = sub entry stop
     /\ gt rps d_0_01 = true
     /\ (rps = S754_infinity false \/ exists m e, rps = S754_finite false m e).
Proof.
  cbv zeta. unfold pymax. destruct (gt (sub entry stop) d_0_01) eqn:E; [|by left].
  right. repeat split; try done.
  destruct (sub entry stop) as [s|s| |s m e]; try done.
  - destruct s; [done | by left].
  - destruct s; [done | right; by eauto].
Qed.

Lemma risk_dollars_cases (product : double) :
  let rd := pymax zero product in
  gt product zero = false /\ rd = zero
  \/ gt product zero = true /\ rd = product
     /\ (product = S754_infinity false \/ exists m e, product = S754_finite false m e).
Proof.
  cbv zeta. unfold pymax. destruct (gt product zero) eqn:E; [|by left].
  right. repeat split; try done.
  destruct product as [s|s| |s m e]; try done.
  - destruct s; [done | by left].
  - destruct s; [done | right; by eauto].
Qed.

Lemma div_core_nonneg (mx my : positive) (ex ey : Z) :
  0 <= (SFdiv_core_binary prec emax (Z.pos mx) ex (Z.pos my) ey).1.1.
Proof.
  destruct (div_core_spec mx my ex ey) as (l & ->). cbn [fst].
  apply Z.div_pos; [|done].
  apply Z.mul_nonneg_nonneg; [done|]. apply Z.pow_nonneg. lia.
Qed.

(** Truncating a quotient of non-negative doubles gives a non-negative
    integer. *)
Lemma py_int_div_nonneg (mx my : positive) (ex ey : Z) (q : Z) :
  py_int (SFdiv prec emax (S754_finite false mx ex) (S754_finite false my ey))
  = Returns q -> 0 <= q.
Proof.
  unfold SFdiv. pose proof (div_core_nonneg mx my ex ey) as Hq.
  destruct (SFdiv_core_binary _ _ _ _ _ _) as [[mz ez] lz]. cbn [fst] in Hq.
  cbn [xorb].
  destruct (binary_round_aux_spec false mz ez lz Hq) as (m2 & _ & ->).
  cbv zeta. destruct (_ / _) as [|m3|m3].
  - intros [= <-]. done.
  - destruct (_ <=? _); [|done]. intros [= <-]. cbn [cond_Zopp].
    apply Z.shiftl_nonneg. done.
  - done.
Qed.

Lemma gt_d_0_01_magnitude (m : positive) (e : Z) :
  valid (S754_finite false m e) ->
  gt (S754_finite false m e) d_0_01 = true ->
  -6 <= Zdigits2 (Z.pos m) + e.
Proof.
  intros Hv Hgt. unfold gt, SFltb, d_0_01 in Hgt.
  rewrite compare_positive in Hgt by done.
  destruct (Z.compare_spec (5764607523034235 * 2 ^ (-59 + 1074))
              (Z.pos m * 2 ^ (e + 1074))) as [|Hlt|]; try done.
  apply valid_finite_inv in Hv as (He & _).
  pose proof (Zdigits2_bounds (Z.pos m) eq_refl) as [_ Hhi].
  pose proof (Zdigits2_pos (Z.pos m) eq_refl) as Hp.
  assert (H1 : 2 ^ 1067 < 2 ^ (Zdigits2 (Z.pos m) + (e + 1074))).
  { rewrite Z.pow_add_r by lia.
    apply Z.le_lt_trans with (5764607523034235 * 2 ^ (-59 + 1074)); [done|].
    pose proof (pow2_pos (e + 1074)). nia. }
  apply Z.pow_lt_mono_r_iff in H1; lia.
Qed.

Lemma le_two_1000_magnitude (m : positive) (e : Z) :
  valid (S754_finite false m e) ->
  gt (S754_finite false m e) two_1000 = false ->
  Zdigits2 (Z.pos m) + e <= 1001.
Proof.
  intros Hv Hgt. unfold gt, SFltb, two_1000 in Hgt.
  rewrite compare_positive in Hgt by done.
  destruct (Z.compare_spec (4503599627370496 * 2 ^ (948 + 1074))
              (Z.pos m * 2 ^ (e + 1074))) as [Heq|Hlt|Hgt']; try done.
  - apply valid_finite_inv in Hv as (He & _).
    pose proof (Zdigits2_bounds (Z.pos m) eq_refl) as [Hlo _].
    pose proof (Zdigits2_pos (Z.pos m) eq_refl) as Hp.
    assert (H1 : 2 ^ (Zdigits2 (Z.pos m) - 1 + (e + 1074)) < 2 ^ 2075).
    { rewrite Z.pow_add_r by lia.
      apply Z.le_lt_trans with (Z.pos m * 2 ^ (e + 1074)).
      - pose proof (pow2_pos (e + 1074)). nia.
      - rewrite <- Heq. done. }
    apply Z.pow_lt_mono_r_iff in H1; lia.
  - apply valid_finite_inv in Hv as (He & _).
    pose proof (Zdigits2_bounds (Z.pos m) eq_refl) as [Hlo _].
    pose proof (Zdigits2_pos (Z.pos m) eq_refl) as Hp.
    assert (H1 : 2 ^ (Zdigits2 (Z.pos m) - 1 + (e + 1074)) < 2 ^ 2075).
    { rewrite Z.pow_add_r by lia.
      apply Z.le_lt_trans with (Z.pos m * 2 ^ (e + 1074)).
      - pose proof (pow2_pos (e + 1074)). nia.
      - apply Z.lt_trans with (4503599627370496 * 2 ^ (948 + 1074)); done. }
    apply Z.pow_lt_mono_r_iff in H1; lia.
Qed.

Lemma le_d_0_01_inv (p : double) :
  valid p -> le d_0_01 p = true ->
  gt p zero = true
  /\ (p = S754_infinity false
      \/ exists m e, p = S754_finite false m e
           /\ 5764607523034235 * 2 ^ (-59 + 1074) <= Z.pos m * 2 ^ (e + 1074)).
Proof.
  intros Hv Hle. destruct p as [s|s| |s m e]; try done.
  - destruct s; [done|]. split; [done | by left].
  - destruct s; [done|]. split; [done | right].
    exists m, e. split; [done|].
    unfold le, SFleb, d_0_01 in Hle. rewrite compare_positive in Hle by done.
    destruct (Z.compare_spec (5764607523034235 * 2 ^ (-59 + 1074))
                (Z.pos m * 2 ^ (e + 1074))); try done; lia.
Qed.

End SizingFacts.

Section SizingDouble.
Import Double.
Local Open Scope Z_scope.

Lemma risk_per_share_shape (entry stop : double) :
  pymax d_0_01 (sub entry stop) = S754_infinity false
  \/ exists m e, pymax d_0_01 (sub entry stop) = S754_finite false m e.
Proof.
  destruct (risk_per_share_cases entry stop) as [->|(_ & _ & H)]; [|done].
  right. by eexists _, _.
Qed.

Lemma risk_dollars_shape (product : double) :
  pymax zero product = zero
  \/ pymax zero product = S754_infinity false
  \/ exists m e, pymax zero product = S754_finite false m e.
Proof.
  destruct (risk_dollars_cases product) as [[_ ->]|(_ & -> & [->|(m & e & ->)])];
    eauto.
Qed.

(** The guard holds and the divisor is never zero, so the function is the
    truncated quotient. *)
Lemma position_size_quotient (entry stop equity r_pct : double) :
  gt (pymax d_0_01 (sub entry stop)) zero = true
  /\ position_size entry stop equity r_pct
     = py_int (SFdiv prec emax (pymax zero (mul equity r_pct))
                 (pymax d_0_01 (sub entry stop))).
Proof.
  unfold position_size. cbv zeta.
  destruct (risk_per_share_shape entry stop) as [->|(m & e & ->)]; done.
Qed.

Lemma position_size_nonneg_double (entry stop equity r_pct : double) (q : Z) :
  position_size entry stop equity r_pct = Returns q -> 0 <= q.
Proof.
  destruct (position_size_quotient entry stop equity r_pct) as [_ ->].
  destruct (risk_per_share_shape entry stop) as [->|(m & e & ->)];
    destruct (risk_dollars_shape (mul equity r_pct)) as [->|[->|(m' & e' & ->)]];
    try done; try (by intros [= <-]).
  apply py_int_div_nonneg.
Qed.

Lemma position_size_zero (entry stop equity r_pct : double) :
  gt (mul equity r_pct) zero = false ->
  position_size entry stop equity r_pct = Returns 0.
Proof.
  intros Hp. destruct (position_size_quotient entry stop equity r_pct) as [_ ->].
  destruct (risk_dollars_cases (mul equity r_pct)) as [[_ ->]|[Hgt _]];
    [|congruence].
  destruct (risk_per_share_shape entry stop) as [->|(m & e & ->)]; done.
Qed.

Lemma position_size_infinite (entry stop equity r_pct : double) :
  mul equity r_pct = S754_infinity false ->
  exists e, position_size entry stop equity r_pct = Raises e.
Proof.
  intros Hp. destruct (position_size_quotient entry stop equity r_pct) as [_ ->].
  rewrite Hp.
  destruct (risk_per_share_shape entry stop) as [->|(m & e & ->)];
    by eexists.
Qed.

Lemma risk_per_share_valid (entry stop : double) :
  valid entry -> valid stop -> valid (pymax d_0_01 (sub entry stop)).
Proof.
  intros He Hs. unfold pymax. destruct (gt _ _); [by apply sub_valid | done].
Qed.

Lemma risk_per_share_magnitude (entry stop : double) (m : positive) (e : Z) :
  valid entry -> valid stop ->
  pymax d_0_01 (sub entry stop) = S754_finite false m e ->
  -6 <= Zdigits2 (Z.pos m) + e.
Proof.
  intros He Hs Hr. pose proof (risk_per_share_valid entry stop He Hs) as Hv.
  destruct (risk_per_share_cases entry stop) as [E|(_ & Hgt & _)].
  - rewrite E in Hr. injection Hr as <- <-. done.
  - rewrite Hr in Hv, Hgt. by apply gt_d_0_01_magnitude.
Qed.

Lemma position_size_returns (entry stop equity r_pct : double) :
  valid entry -> valid stop -> valid equity -> valid r_pct ->
  gt (mul equity r_pct) two_1000 = false ->
  exists q, position_size entry stop equity r_pct = Returns q.
Proof.
  intros He Hs Heq Hr Hb.
  destruct (position_size_quotient entry stop equity r_pct) as [_ ->].
  pose proof (mul_valid equity r_pct Heq Hr) as Hv.
  pose proof (risk_per_share_valid entry stop He Hs) as Hvr.
  pose proof (risk_per_share_magnitude entry stop) as Hmag.
  destruct (risk_dollars_cases (mul equity r_pct))
    as [[_ ->]|(_ & -> & [Hinf|(m' & e' & Hfin)])].
  - destruct (risk_per_share_shape entry stop) as [->|(m & e & ->)]; by eexists.
  - by rewrite Hinf in Hb.
  - rewrite Hfin in *.
    destruct (risk_per_share_shape entry stop) as [->|(m & e & Hrps)];
      [by eexists|].
    rewrite Hrps in *. specialize (Hmag m e He Hs eq_refl).
    pose proof (le_two_1000_magnitude m' e' Hv Hb) as Hmag'.
    destruct (div_finite false false m' m e' e Hv Hvr) as [->|(mz & ez & ->)];
      [lia | by eexists | by eexists].
Qed.

Lemma position_size_inverted (entry stop equity r_pct : double) :
  valid entry -> valid stop -> valid equity -> valid r_pct ->
  lt entry stop = true -> le d_0_01 (mul equity r_pct) = true ->
  position_size entry stop equity r_pct = Raises OverflowError
  \/ exists q, position_size entry stop equity r_pct = Returns q /\ 1 <= q.
Proof.
  intros He Hs Heq Hr Hinv Hrisk.
  destruct (position_size_quotient entry stop equity r_pct) as [_ ->].
  pose proof (mul_valid equity r_pct Heq Hr) as Hv.
  assert (Hrps : pymax d_0_01 (sub entry stop) = d_0_01).
  { unfold pymax. by rewrite sub_inverted. }
  rewrite Hrps.
  destruct (le_d_0_01_inv _ Hv Hrisk) as (Hgt & [Hinf|(m & e & Hfin & Hle)]).
  - unfold pymax. rewrite Hgt, Hinf. by left.
  - unfold pymax. rewrite Hgt, Hfin. rewrite Hfin in Hv. unfold d_0_01.
    destruct (div_ge_one m 5764607523034235 e (-59) Hv eq_refl Hle)
      as [->|(mz & ez & -> & Hge)]; [by left | right].
    eexists. split; [done|]. by apply ge_one_trunc.
Qed.

End SizingDouble.

(** C10 (as amended).  On IEEE doubles, NaN and infinities included,
    [position_size] keeps [risk_per_share] above zero, so the guard always
    holds and the division never fails on a zero divisor; a quantity that is
    returned is never negative; the result is 0 whenever [equity * r_pct]
    is zero, negative or NaN; the call raises when that product is
    [+inf].  For well-formed arguments it returns whenever the product does
    not exceed [2^1000], and an inverted stop with a product of at least
    0.01 gives at least one share unless the quotient overflows. *)
Theorem position_size_double (entry stop equity r_pct : Double.double) :
  let product := Double.mul equity r_pct in
  let result := Double.position_size entry stop equity r_pct in
  Double.gt (Double.pymax Double.d_0_01 (Double.sub entry stop)) Double.zero
  = true
  /\ result <> Double.Raises Double.ZeroDivisionError
  /\ (forall q, result = Double.Returns q -> (0 <= q)%Z)
  /\ (Double.gt product Double.zero = false -> result = Double.Returns 0%Z)
  /\ (product = S754_infinity false -> exists e, result = Double.Raises e)
  /\ (Double.valid entry -> Double.valid stop ->
      Double.valid equity -> Double.valid r_pct ->
      (Double.gt product Double.two_1000 = false ->
       exists q, result = Double.Returns q)
      /\ (Double.lt entry stop = true ->
          Double.le Double.d_0_01 product = true ->
          result = Double.Raises Double.OverflowError
          \/ exists q, result = Double.Returns q /\ (1 <= q)%Z)).
Proof.
  cbv zeta.
  destruct (position_size_quotient entry stop equity r_pct) as [Hguard Hq].
  split; [done|]. split.
  { rewrite Hq. by destruct (SFdiv _ _ _ _). }
  split; [apply position_size_nonneg_double|].
  split; [apply position_size_zero|].
  split; [apply position_size_infinite|].
  intros He Hs Heq Hr. split.
  - by apply position_size_returns.
  - by apply position_size_inverted.
Qed.

Lemma position_size_double_witness :
  (exists q,
     Double.position_size (Double.of_Z 98) (Double.of_Z 100)
       (Double.of_Z 10000) Double.d_0_01 = Double.Returns q)
  /\ (Double.position_size (Double.of_Z 98) (Double.of_Z 100)
        (Double.of_Z 10000) Double.d_0_01 = Double.Raises Double.OverflowError
      \/ exists q,
           Double.position_size (Double.of_Z 98) (Double.of_Z 100)
             (Double.of_Z 10000) Double.d_0_01 = Double.Returns q
           /\ (1 <= q)%Z).
Proof.
  destruct (position_size_double (Double.of_Z 98) (Double.of_Z 100)
              (Double.of_Z 10000) Double.d_0_01)
    as (_ & _ & _ & _ & _ & H).
  destruct H as [Hret Hinv]; try (vm_compute; reflexivity).
  split.
  - apply Hret. vm_compute. reflexivity.
  - apply Hinv; vm_compute; reflexivity.
Defined.

(** C10 as stated fails twice.  The function is not total: with a risk
    fraction of [1e308] the product [equity * r_pct] overflows and [int]
    raises.  And a negative equity together with a negative risk fraction
    has a positive product and is sized like a regular trade, here
    [position_size(100, 98, -10000, -0.01) = 50]. *)
Lemma position_size_overflow_counterexample :
  Double.position_size (Double.of_Z 130) (Double.of_Z 127) (Double.of_Z 10000)
    (Double.of_Z (10 ^ 308)) = Double.Raises Double.OverflowError
  /\ Double.position_size (Double.of_Z 100) (Double.of_Z 98)
       (Double.of_Z (-10000)) (SFopp Double.d_0_01) = Double.Returns 50%Z.
Proof. split; vm_compute; reflexivity. Qed.

(** ** Candle patterns *)

Ltac fl_red :=
  cbv beta iota zeta delta
    [is_doji is_hammer is_inverted_hammer is_shooting_star
     bullish_engulfing bearish_engulfing _body _range _upper _lower
     fge fgt fle flt np_maximum np_minimum fadd fsub fmul fabs cmp2 lift2
     body_max_pct_default wick_to_body_min_default wick_max_pct_default].

Ltac eps_norm := change 1e-12 with (1 # 1000000000000) in *.

Section PatternFacts.

Lemma flat_range (h l : Q) : h == l -> Qabs (h - l) == 0.
Proof.
  intros H. rewrite H. setoid_replace (l - l) with 0 using relation Qeq by ring. reflexivity.
Qed.

Lemma doji_flat (o c body_pct : float) (h l : Q) :
  h == l -> is_doji o (Fin h) (Fin l) c body_pct = false.
Proof.
  intros H. fl_red. apply andb_false_iff. left.
  apply Qltb_ge. rewrite (flat_range _ _ H). apply Qle_refl.
Qed.

Lemma hammer_flat (o c p1 p2 : float) (k h l : Q) :
  h == l -> 0 < k -> (np_maximum o c >? Fin h)%fl = false ->
  is_hammer o (Fin h) (Fin l) c p1 (Fin k) p2 = false.
Proof.
  intros H Hk Hin. destruct o as [o|], c as [c|]; try done.
  revert Hin. fl_red. intros Hin. apply Qltb_ge in Hin.
  apply not_true_iff_false. intros Hall.
  apply andb_true_iff in Hall as [Hall _].
  apply andb_true_iff in Hall as [Hall _].
  apply andb_true_iff in Hall as [_ Hlow].
  apply Qle_bool_iff in Hlow.
  pose proof (Qabs_nonneg (c - o)) as Hb.
  assert (Hprod : 0 < k * (Qabs (c - o) + 1e-12)).
  { eps_norm. apply Qmult_lt_0_compat; lra. }
  pose proof (Q.le_min_l o c). pose proof (Q.le_max_l o c). lra.
Qed.

Lemma inverted_hammer_flat (o c p1 p2 : float) (k h l : Q) :
  h == l -> 0 < k -> (np_minimum o c <? Fin l)%fl = false ->
  is_inverted_hammer o (Fin h) (Fin l) c p1 (Fin k) p2 = false.
Proof.
  intros H Hk Hin. destruct o as [o|], c as [c|]; try done.
  revert Hin. fl_red. intros Hin. apply Qltb_ge in Hin.
  apply not_true_iff_false. intros Hall.
  apply andb_true_iff in Hall as [Hall _].
  apply andb_true_iff in Hall as [Hall _].
  apply andb_true_iff in Hall as [_ Hup].
  apply Qle_bool_iff in Hup.
  pose proof (Qabs_nonneg (c - o)) as Hb.
  assert (Hprod : 0 < k * (Qabs (c - o) + 1e-12)).
  { eps_norm. apply Qmult_lt_0_compat; lra. }
  pose proof (Q.le_min_l o c). pose proof (Q.le_max_l o c). lra.
Qed.

End PatternFacts.

(** C8 (as amended).  On a candle with [high == low], [is_doji] is false
    for every open and close; [is_hammer] is false unless
    [max(open, close) > high], and [is_inverted_hammer] and
    [is_shooting_star] are false unless [min(open, close) < low].  So all
    four are false on every flat candle whose open and close lie within
    [low, high].  The detectors contain no division. *)
Theorem flat_candle_no_pattern (o c body_pct p1 p2 : float) (k h l : Q) :
  h == l -> 0 < k ->
  is_doji o (Fin h) (Fin l) c body_pct = false
  /\ ((np_maximum o c >? Fin h)%fl = false ->
      is_hammer o (Fin h) (Fin l) c p1 (Fin k) p2 = false)
  /\ ((np_minimum o c <? Fin l)%fl = false ->
      is_inverted_hammer o (Fin h) (Fin l) c p1 (Fin k) p2 = false
      /\ is_shooting_star o (Fin h) (Fin l) c p1 (Fin k) p2 = false).
Proof.
  intros H Hk. split; [by apply doji_flat|]. split.
  - by apply hammer_flat.
  - intros Hin. split; by apply inverted_hammer_flat.
Qed.

Lemma flat_candle_no_pattern_witness :
  is_doji 10 10 10 10 0.2 = false
  /\ is_hammer 10 10 10 10 0.35 2 0.25 = false
  /\ is_inverted_hammer 10 10 10 10 0.35 2 0.25 = false
  /\ is_shooting_star 10 10 10 10 0.35 2 0.25 = false.
Proof.
  assert (H1 : 10 == 10) by reflexivity.
  assert (H2 : 0 < 2) by reflexivity.
  destruct (flat_candle_no_pattern 10 10 0.2 0.35 0.25 2 10 10 H1 H2)
    as (Hd & Hh & Hi).
  split; [exact Hd|]. split; [apply Hh; reflexivity|]. apply Hi; reflexivity.
Defined.

(** C8 as stated fails: with [high = low = 10] and [open = close = 11] the
    hammer test passes, and with [open = close = 9] the inverted hammer
    and shooting star tests pass. *)
Lemma flat_candle_counterexample :
  is_hammer 11 10 10 11 body_max_pct_default wick_to_body_min_default
    wick_max_pct_default = true
  /\ is_inverted_hammer 9 10 10 9 body_max_pct_default wick_to_body_min_default
       wick_max_pct_default = true
  /\ is_shooting_star 9 10 10 9 body_max_pct_default wick_to_body_min_default
       wick_max_pct_default = true.
Proof. repeat split; reflexivity. Qed.

(** ** Rolling windows and [cci] *)

Section RollingFacts.

Lemma rolling_mean_lookup (n : nat) (s : series) (i : nat) (x : float) :
  s !! i = Some x ->
  rolling_mean n s !! i
  = Some (if (S i <? n)%nat then NaN
          else window_mean n (take n (drop (S i - n) s))).
Proof.
  intros H. unfold rolling_mean. by rewrite list_lookup_imap, H.
Qed.

Lemma rolling_mean_warmup (n : nat) (s : series) (i : nat) :
  (i < length s)%nat -> (S i < n)%nat -> rolling_mean n s !! i = Some NaN.
Proof.
  intros Hi Hn. apply lookup_lt_is_Some in Hi as [x Hx].
  rewrite (rolling_mean_lookup _ _ _ _ Hx).
  by replace (S i <? n)%nat with true by (symmetry; apply Nat.ltb_lt; lia).
Qed.

Lemma fsum_near (v : Q) (w : list float) :
  Forall (near v) w -> near (inject_Z (Z.of_nat (length w)) * v) (fsum w).
Proof.
  induction 1 as [|x w (q & -> & Hq) _ (t & IH & Ht)].
  - exists 0. split; [done|]. cbn. ring.
  - exists (q + t). split; [cbn; fold (fsum w); by rewrite IH|].
    cbn [length]. rewrite Hq, Ht, Nat2Z.inj_succ, <- Z.add_1_r.
    rewrite inject_Z_plus. change (inject_Z 1) with 1. ring.
Qed.

Lemma window_mean_near (v : Q) (n : nat) (w : list float) :
  length w = n -> (1 <= n)%nat -> Forall (near v) w -> near v (window_mean n w).
Proof.
  intros Hlen Hn Hw. destruct (fsum_near v w Hw) as (t & Ht & Hv).
  unfold window_mean. rewrite Ht. cbn.
  assert (Hpos : 0 < inject_Z (Z.of_nat n)).
  { change 0 with (inject_Z 0). rewrite <- Zlt_Qlt. lia. }
  replace (Qeq_bool (inject_Z (Z.of_nat n)) 0) with false
    by (symmetry; apply Qeq_bool_false; lra).
  exists (t / inject_Z (Z.of_nat n)). split; [done|].
  rewrite Hv, Hlen. field. lra.
Qed.

Lemma rolling_mean_near (v : Q) (n : nat) (s : series) (i : nat) :
  (1 <= n)%nat -> (n <= S i)%nat -> (i < length s)%nat ->
  (forall j x, (S i - n <= j <= i)%nat -> s !! j = Some x -> near v x) ->
  exists x, rolling_mean n s !! i = Some x /\ near v x.
Proof.
  intros Hn Hi Hlen Hwin.
  destruct (proj2 (lookup_lt_is_Some s i) Hlen) as [x Hx].
  rewrite (rolling_mean_lookup _ _ _ _ Hx).
  replace (S i <? n)%nat with false by (symmetry; apply Nat.ltb_ge; lia).
  eexists. split; [done|]. apply window_mean_near; [|done|].
  - rewrite length_take, length_drop. lia.
  - apply Forall_lookup. intros j y Hj.
    apply lookup_take_Some in Hj as [Hj Hjn]. rewrite lookup_drop in Hj.
    apply (Hwin (S i - n + j)%nat); [lia | done].
Qed.

Lemma replace0_nonzero (eps : Q) (s : series) (i : nat) (q : Q) :
  ~ eps == 0 -> replace0 eps s !! i = Some (Fin q) -> ~ q == 0.
Proof.
  intros Heps. unfold replace0. rewrite list_lookup_fmap.
  destruct (s !! i) as [[x|]|]; cbn; try done.
  destruct (Qeq_bool x 0) eqn:E; intros [= <-]; [done|].
  by apply Qeq_bool_false.
Qed.

End RollingFacts.

Section CciFacts.

Lemma cci_tp_lookup (df : list Bar) (i : nat) (b : Bar) :
  df !! i = Some b ->
  cci_tp df !! i = Some ((high b + low b + close b) / Fin 3)%fl.
Proof. intros H. unfold cci_tp. by rewrite list_lookup_fmap, H. Qed.

Lemma cci_tp_length (df : list Bar) : length (cci_tp df) = length df.
Proof. unfold cci_tp. by rewrite length_fmap. Qed.

Lemma cci_numerator_warmup (df : list Bar) (n i : nat) :
  (i < length df)%nat -> (S i < n)%nat ->
  zip_with fsub (cci_tp df) (cci_ma df n) !! i = Some NaN.
Proof.
  intros Hi Hn. rewrite lookup_zip_with. unfold cci_ma.
  rewrite rolling_mean_warmup by (by rewrite ?cci_tp_length).
  apply lookup_lt_is_Some in Hi as [b Hb].
  rewrite (cci_tp_lookup _ _ _ Hb). cbn.
  by destruct (_ / _)%fl.
Qed.

Lemma cci_md_length (df : list Bar) (n : nat) : length (cci_md df n) = length df.
Proof.
  unfold cci_md, replace0, rolling_mean, cci_ma, rolling_mean.
  rewrite length_fmap, length_imap, length_fmap, length_zip_with, length_imap.
  rewrite cci_tp_length. lia.
Qed.

Lemma cci_warmup (df : list Bar) (n i : nat) :
  (i < length df)%nat -> (S i < n)%nat -> cci df n !! i = Some NaN.
Proof.
  intros Hi Hn. unfold cci. rewrite lookup_zip_with.
  rewrite cci_numerator_warmup by done. cbn.
  rewrite list_lookup_fmap.
  assert (Hm : (i < length (cci_md df n))%nat) by (by rewrite cci_md_length).
  apply lookup_lt_is_Some in Hm as [m ->]. done.
Qed.

Lemma cci_divisor_nonzero (df : list Bar) (n i : nat) (q : Q) :
  ((fun m => Fin 0.015 * m)%fl <$> cci_md df n) !! i = Some (Fin q) -> ~ q == 0.
Proof.
  rewrite list_lookup_fmap. destruct (cci_md df n !! i) as [[m|]|] eqn:E; try done.
  cbn. intros [= <-]. apply replace0_nonzero in E; [|done].
  intros H. apply E. lra.
Qed.

End CciFacts.

Section FlatSeries.

Variable k : Q.
Variable df : list Bar.
Hypothesis Hflat : Forall (flat_bar k) df.

Lemma flat_tp_near (i : nat) (x : float) :
  cci_tp df !! i = Some x -> near k x.
Proof using Hflat.
  unfold cci_tp. rewrite list_lookup_fmap.
  destruct (df !! i) as [b|] eqn:Hb; [|done]. intros [= <-].
  destruct (proj1 (Forall_lookup _ _) Hflat i b Hb) as (-> & -> & ->).
  exists ((k + k + k) / 3). split; [done | field].
Qed.

Lemma flat_ma_near (n i : nat) :
  (1 <= n)%nat -> (n <= S i)%nat -> (i < length df)%nat ->
  exists x, cci_ma df n !! i = Some x /\ near k x.
Proof using Hflat.
  intros Hn Hi Hlen. apply rolling_mean_near; try done.
  - by rewrite cci_tp_length.
  - intros j x _. apply flat_tp_near.
Qed.

Lemma flat_deviation_near (n j : nat) (x : float) :
  (1 <= n)%nat -> (n <= S j)%nat ->
  (fabs <$> zip_with fsub (cci_tp df) (cci_ma df n)) !! j = Some x ->
  near 0 x.
Proof using Hflat.
  intros Hn Hj. rewrite list_lookup_fmap, lookup_zip_with.
  destruct (cci_tp df !! j) as [t|] eqn:Ht; [|done].
  pose proof (lookup_lt_Some _ _ _ Ht) as Hlen. rewrite cci_tp_length in Hlen.
  destruct (flat_tp_near _ _ Ht) as (tq & -> & Htq).
  destruct (flat_ma_near n j Hn Hj Hlen) as (m & -> & mq & -> & Hmq).
  cbn. intros [= <-]. exists (Qabs (tq - mq)). split; [done|].
  rewrite Htq, Hmq. setoid_replace (k - k) with 0 using relation Qeq by ring.
  reflexivity.
Qed.

Lemma flat_md (n i : nat) :
  (1 <= n)%nat -> (2 * n - 2 <= i)%nat -> (i < length df)%nat ->
  cci_md df n !! i = Some (Fin 1e-12).
Proof using Hflat.
  intros Hn Hi Hlen. unfold cci_md, replace0. rewrite list_lookup_fmap.
  destruct (rolling_mean_near 0 n
              (fabs <$> zip_with fsub (cci_tp df) (cci_ma df n)) i)
    as (x & -> & q & -> & Hq); try done; try lia.
  - unfold cci_ma, rolling_mean.
    rewrite length_fmap, length_zip_with, length_imap, cci_tp_length. lia.
  - intros j x Hj. apply flat_deviation_near; [done | lia].
  - cbn. by replace (Qeq_bool q 0) with true
      by (symmetry; by apply Qeq_bool_iff).
Qed.

Lemma flat_cci (n i : nat) :
  (1 <= n)%nat -> (2 * n - 2 <= i)%nat -> (i < length df)%nat ->
  exists x, cci df n !! i = Some x /\ near 0 x.
Proof using Hflat.
  intros Hn Hi Hlen. unfold cci.
  rewrite lookup_zip_with, list_lookup_fmap, flat_md by done.
  rewrite lookup_zip_with.
  assert (Ht : (i < length (cci_tp df))%nat) by (by rewrite cci_tp_length).
  apply lookup_lt_is_Some in Ht as [t Ht]. rewrite Ht.
  destruct (flat_tp_near _ _ Ht) as (tq & -> & Htq).
  destruct (flat_ma_near n i Hn ltac:(lia) Hlen) as (m & -> & mq & -> & Hmq).
  cbn. eexists. split; [done|].
  exists ((tq - mq) / (0.015 * 1e-12)). split; [done|].
  rewrite Htq, Hmq. eps_norm. field.
Qed.

End FlatSeries.

(** C9.  [cci] is NaN on the first [n - 1] bars of every series.  The
    mean deviation passes through [replace(0, 1e-12)] before it is used, so
    the divisor [0.015 * md] is never zero; on a perfectly flat series the
    zero mean deviation becomes [1e-12] and the index is a defined 0 from
    bar [2n - 2] on. *)
Theorem cci_warmup_and_divisor (df : list Bar) (n i : nat) :
  ((i < length df)%nat -> (S i < n)%nat -> cci df n !! i = Some NaN)
  /\ (forall q, ((fun m => Fin 0.015 * m)%fl <$> cci_md df n) !! i = Some (Fin q) ->
                ~ q == 0)
  /\ (forall k, Forall (flat_bar k) df ->
        (1 <= n)%nat -> (2 * n - 2 <= i)%nat -> (i < length df)%nat ->
        cci_md df n !! i = Some (Fin 1e-12)
        /\ exists x, cci df n !! i = Some x /\ near 0 x).
Proof.
  split; [apply cci_warmup|]. split; [apply cci_divisor_nonzero|].
  intros k Hflat Hn Hi Hlen. split.
  - by apply (flat_md k).
  - by apply (flat_cci k).
Qed.

Lemma cci_warmup_and_divisor_witness :
  cci ex_flat 3 !! 1%nat = Some NaN
  /\ cci_md ex_flat 3 !! 4%nat = Some (Fin 1e-12)
  /\ exists x, cci ex_flat 3 !! 4%nat = Some x /\ near 0 x.
Proof.
  split.
  - apply (cci_warmup_and_divisor ex_flat 3 1); cbn; lia.
  - apply (cci_warmup_and_divisor ex_flat 3 4) with (k := 50); [|cbn; lia..].
    repeat constructor.
Defined.

(** ** Entry signal *)

Section ShiftFacts.

Lemma shift1_length (s : series) : length (shift1 s) = length s.
Proof. unfold shift1. rewrite length_take. cbn. lia. Qed.

Lemma shift1_lookup_0 (s : series) (x : float) :
  s !! 0%nat = Some x -> shift1 s !! 0%nat = Some NaN.
Proof. by destruct s. Qed.

Lemma shift1_lookup_S (s : series) (i : nat) (x : float) :
  s !! S i = Some x -> shift1 s !! S i = s !! i.
Proof.
  intros H. apply lookup_lt_Some in H. unfold shift1.
  rewrite lookup_take. by destruct (decide _).
Qed.

Lemma map4_lookup {A B C D E : Type} (f : A -> B -> C -> D -> E)
    (sa : list A) (sb : list B) (sc : list C) (sd : list D) (i : nat)
    (a : A) (b : B) (c : C) (d : D) :
  sa !! i = Some a -> sb !! i = Some b -> sc !! i = Some c -> sd !! i = Some d ->
  map4 f sa sb sc sd !! i = Some (f a b c d).
Proof.
  intros Ha Hb Hc Hd. unfold map4.
  by rewrite !lookup_zip_with, Ha, Hb, Hc, Hd.
Qed.

End ShiftFacts.

Section EntryFacts.

Variable df : list Row.

(** With the default pattern set every detector is switched on. *)
Lemma momentum_entries_default (doji_body_pct cci_entry : float) :
  momentum_entries df doji_body_pct cci_entry true use_patterns_default
  = let o := (open ∘ bar) <$> df in
    let h := (high ∘ bar) <$> df in
    let l := (low ∘ bar) <$> df in
    let c := (close ∘ bar) <$> df in
    let patt :=
      sor (sor (sor (sor (replicate (length df) false)
        (map4 (fun o h l c => is_doji o h l c doji_body_pct)
           (shift1 o) (shift1 h) (shift1 l) (shift1 c)))
        (map4 (fun o h l c => is_hammer o h l c body_max_pct_default
                                wick_to_body_min_default wick_max_pct_default)
           (shift1 o) (shift1 h) (shift1 l) (shift1 c)))
        (map4 (fun o h l c => is_inverted_hammer o h l c body_max_pct_default
                                wick_to_body_min_default wick_max_pct_default)
           (shift1 o) (shift1 h) (shift1 l) (shift1 c)))
        (map4 bullish_engulfing (shift1 (shift1 o)) (shift1 (shift1 c))
           (shift1 o) (shift1 c)) in
    sand (sand (sand patt (zip_with fgt (macd_line <$> df) (macd_signal <$> df)))
               ((fun x => x >? cci_entry)%fl <$> (cci_col <$> df)))
         (zip_with fgt c (shift1 h)).
Proof. reflexivity. Qed.

Lemma col_lookup {A : Type} (f : Row -> A) (i : nat) (r : Row) :
  df !! i = Some r -> (f <$> df) !! i = Some (f r).
Proof. intros H. by rewrite list_lookup_fmap, H. Qed.

Lemma col_shift1_S (f : Row -> float) (i : nat) (p r : Row) :
  df !! i = Some p -> df !! S i = Some r -> shift1 (f <$> df) !! S i = Some (f p).
Proof.
  intros Hp Hr.
  rewrite (shift1_lookup_S _ _ (f r)) by (by apply col_lookup).
  by apply col_lookup.
Qed.

Lemma col_shift1_0 (f : Row -> float) (r : Row) :
  df !! 0%nat = Some r -> shift1 (f <$> df) !! 0%nat = Some NaN.
Proof. intros Hr. apply (shift1_lookup_0 _ (f r)). by apply col_lookup. Qed.

Lemma col_shift2_SS (f : Row -> float) (i : nat) (pp p r : Row) :
  df !! i = Some pp -> df !! S i = Some p -> df !! S (S i) = Some r ->
  shift1 (shift1 (f <$> df)) !! S (S i) = Some (f pp).
Proof.
  intros Hpp Hp Hr.
  rewrite (shift1_lookup_S _ _ (f p)) by (by apply (col_shift1_S f _ p r)).
  by apply (col_shift1_S f _ pp p).
Qed.

Lemma col_shift2_1 (f : Row -> float) (p r : Row) :
  df !! 0%nat = Some p -> df !! 1%nat = Some r ->
  shift1 (shift1 (f <$> df)) !! 1%nat = Some NaN.
Proof.
  intros Hp Hr.
  rewrite (shift1_lookup_S _ _ (f p)) by (by apply (col_shift1_S f _ p r)).
  by apply (col_shift1_0 f p).
Qed.

Lemma false_col_lookup (i : nat) (r : Row) :
  df !! i = Some r -> replicate (length df) false !! i = Some false.
Proof. intros H. apply lookup_replicate_2. by apply lookup_lt_Some in H. Qed.

End EntryFacts.

Lemma bullish_engulfing_no_prev (o c : float) :
  bullish_engulfing NaN NaN o c = false.
Proof.
  unfold bullish_engulfing. destruct (c >? o)%fl, (o <=? NaN)%fl; done.
Qed.

Lemma fgt_NaN_l (b : float) : (NaN >? b)%fl = false.
Proof. by destruct b. Qed.

Lemma fgt_NaN_r (a : float) : (a >? NaN)%fl = false.
Proof. done. Qed.

(** C1.  With the default parameters the entry signal at bar [S i] is the
    entry rule evaluated on that bar and its predecessors: one of doji,
    hammer, inverted hammer on bar [i] or a bullish engulfing of bar [i-1]
    by bar [i]; MACD line above signal; CCI above 0; close above the high
    of bar [i].  The signal at bar 0 is false, and a NaN in any of the
    momentum or breakout comparisons makes the signal false. *)
Theorem momentum_entries_spec (df : list Row) (i : nat) (prev cur : Row) :
  df !! i = Some prev -> df !! S i = Some cur ->
  momentum_entries df (Fin 0.2) (Fin 0) true use_patterns_default !! S i
  = Some (entry_rule (row_before df i) prev cur)
  /\ momentum_entries df (Fin 0.2) (Fin 0) true use_patterns_default !! 0%nat
     = Some false
  /\ (macd_line cur = NaN \/ macd_signal cur = NaN \/ cci_col cur = NaN
      \/ close (bar cur) = NaN \/ high (bar prev) = NaN ->
      entry_rule (row_before df i) prev cur = false).
Proof.
  intros Hprev Hcur. rewrite momentum_entries_default. cbv zeta.
  unfold sand, sor. split; [|split].
  - rewrite !lookup_zip_with, !list_lookup_fmap, Hcur.
    rewrite (false_col_lookup _ _ _ Hcur).
    rewrite !(col_shift1_S _ _ _ prev cur Hprev Hcur).
    rewrite !(map4_lookup _ _ _ _ _ _ _ _ _ _
                (col_shift1_S _ (open ∘ bar) _ prev cur Hprev Hcur)
                (col_shift1_S _ (high ∘ bar) _ prev cur Hprev Hcur)
                (col_shift1_S _ (low ∘ bar) _ prev cur Hprev Hcur)
                (col_shift1_S _ (close ∘ bar) _ prev cur Hprev Hcur)).
    destruct i as [|j].
    + rewrite (map4_lookup _ _ _ _ _ _ NaN NaN (open (bar prev)) (close (bar prev)));
        [| by apply (col_shift2_1 _ _ prev cur)
         | by apply (col_shift2_1 _ _ prev cur)
         | by apply (col_shift1_S _ (open ∘ bar) _ prev cur)
         | by apply (col_shift1_S _ (close ∘ bar) _ prev cur)].
      cbn. unfold entry_rule, default_pattern. cbn.
      by rewrite bullish_engulfing_no_prev.
    + assert (Hj : (j < length df)%nat) by (apply lookup_lt_Some in Hprev; lia).
      apply lookup_lt_is_Some in Hj as [pp Hpp].
      rewrite (map4_lookup _ _ _ _ _ _ (open (bar pp)) (close (bar pp))
                 (open (bar prev)) (close (bar prev)));
        [| by apply (col_shift2_SS _ (open ∘ bar) _ pp prev cur)
         | by apply (col_shift2_SS _ (close ∘ bar) _ pp prev cur)
         | by apply (col_shift1_S _ (open ∘ bar) _ prev cur)
         | by apply (col_shift1_S _ (close ∘ bar) _ prev cur)].
      cbn. unfold entry_rule, default_pattern. cbn. by rewrite Hpp.
  - assert (H0 : (0 < length df)%nat) by (apply lookup_lt_Some in Hprev; lia).
    apply lookup_lt_is_Some in H0 as [r0 H0].
    rewrite !lookup_zip_with, !list_lookup_fmap, H0.
    rewrite (false_col_lookup _ _ _ H0).
    rewrite !(map4_lookup _ _ _ _ _ _ _ _ _ _
                (col_shift1_0 _ (open ∘ bar) _ H0)
                (col_shift1_0 _ (high ∘ bar) _ H0)
                (col_shift1_0 _ (low ∘ bar) _ H0)
                (col_shift1_0 _ (close ∘ bar) _ H0)).
    rewrite (map4_lookup _ _ _ _ _ _ NaN NaN NaN NaN);
      [| by apply (shift1_lookup_0 _ NaN), (col_shift1_0 _ _ r0)
       | by apply (shift1_lookup_0 _ NaN), (col_shift1_0 _ _ r0)
       | by apply (col_shift1_0 _ _ r0)
       | by apply (col_shift1_0 _ _ r0)].
    by rewrite (col_shift1_0 _ _ _ H0).
  - intros H. unfold entry_rule. rewrite <- !andb_assoc.
    destruct H as [-> | [-> | [-> | [-> | ->]]]];
      rewrite ?fgt_NaN_l, ?fgt_NaN_r, ?andb_false_r; done.
Qed.

(** ** The trade state machine *)

Section FrameFacts.

Lemma iloc_last_lookup {A : Type} (d : A) (s : list A) :
  iloc_last d s = default d (s !! (length s - 1)%nat).
Proof.
  unfold iloc_last. rewrite last_lookup. by rewrite Nat.sub_1_r.
Qed.

Lemma sand_lookup_true (a b : list bool) (i : nat) :
  sand a b !! i = Some true -> a !! i = Some true /\ b !! i = Some true.
Proof.
  unfold sand. rewrite lookup_zip_with.
  destruct (a !! i) as [[]|], (b !! i) as [[]|]; cbn; try done.
Qed.

Lemma sand_length (a b : list bool) :
  length a = length b -> length (sand a b) = length a.
Proof. intros H. unfold sand. rewrite length_zip_with. lia. Qed.

(** An entry signal needs a CCI reading above the threshold on its bar. *)
Lemma entries_need_cci (df : list Row) (p ce : float) (cbh : bool)
    (ups : list string) (i : nat) :
  momentum_entries df p ce cbh ups !! i = Some true ->
  exists r, df !! i = Some r /\ (cci_col r >? ce)%fl = true.
Proof.
  unfold momentum_entries. cbv zeta. intros H.
  assert (H' : ((fun x => x >? ce)%fl <$> (cci_col <$> df)) !! i = Some true).
  { destruct cbh; [apply sand_lookup_true in H as [H _]|];
      by apply sand_lookup_true in H as [_ H]. }
  rewrite !list_lookup_fmap in H'.
  destruct (df !! i) as [r|]; [|done]. exists r. split; [done|].
  by injection H'.
Qed.

Lemma entries_length (df : list Row) (p ce : float) (cbh : bool)
    (ups : list string) :
  length (momentum_entries df p ce cbh ups) = length df.
Proof.
  unfold momentum_entries, sand, sor, map4. cbv zeta.
  repeat destruct (bool_decide _); destruct cbh;
    repeat rewrite ?length_zip_with, ?length_fmap, ?shift1_length,
      ?length_replicate;
    lia.
Qed.

Variable momo : Momo.
Variable df : list Bar.

Lemma frame_rows_lookup (i : nat) :
  frame_rows momo df !! i
  = (fun b => {| bar := b;
                 ema20 := default NaN (ema (close <$> df) 20 !! i);
                 macd_line :=
                   default NaN
                     ((macd (close <$> df) (macd_fast momo) (macd_slow momo)
                         (macd_signal_span momo)).1.1 !! i);
                 macd_signal :=
                   default NaN
                     ((macd (close <$> df) (macd_fast momo) (macd_slow momo)
                         (macd_signal_span momo)).1.2 !! i);
                 macd_hist :=
                   default NaN
                     ((macd (close <$> df) (macd_fast momo) (macd_slow momo)
                         (macd_signal_span momo)).2 !! i);
                 cci_col := default NaN (cci df (cci_len momo) !! i) |})
    <$> df !! i.
Proof.
  unfold frame_rows, compute_indicators, macd. cbv zeta.
  by rewrite list_lookup_imap.
Qed.

Lemma frame_rows_length : length (frame_rows momo df) = length df.
Proof.
  unfold frame_rows, compute_indicators, macd. cbv zeta.
  by rewrite length_imap.
Qed.

Lemma frame_rows_bar (i : nat) (r : Row) :
  frame_rows momo df !! i = Some r ->
  df !! i = Some (bar r)
  /\ cci_col r = default NaN (cci df (cci_len momo) !! i).
Proof.
  rewrite frame_rows_lookup. destruct (df !! i) as [b|]; [|done].
  cbn. by intros [= <-].
Qed.

Lemma cci_finite_close (n i : nat) (q : Q) :
  cci df n !! i = Some (Fin q) ->
  exists b c, df !! i = Some b /\ close b = Fin c.
Proof.
  unfold cci. rewrite !lookup_zip_with. intros H.
  destruct (df !! i) as [b|] eqn:Hb.
  - exists b. rewrite (cci_tp_lookup _ _ _ Hb) in H. cbn in H.
    destruct (cci_ma df n !! i) as [m|]; [|done]. cbn in H.
    destruct ((_ <$> cci_md df n) !! i) as [d|]; [|done].
    injection H as H.
    destruct (close b) as [c|]; [by exists c|]. exfalso.
    destruct (high b), (low b), m, d; cbn in H; done.
  - assert (Ht : cci_tp df !! i = None)
      by (unfold cci_tp; by rewrite list_lookup_fmap, Hb).
    by rewrite Ht in H.
Qed.

(** On a frame that raises the entry signal the last close is finite. *)
Lemma sig_enter_price :
  sig_enter momo (frame_rows momo df) = true ->
  exists r c, last (frame_rows momo df) = Some r /\ close (bar r) = Fin c.
Proof.
  unfold sig_enter. rewrite iloc_last_lookup.
  set (es := momentum_entries _ _ _ _ _).
  destruct (es !! (length es - 1)%nat) as [[]|] eqn:E; try done. intros _.
  assert (Hlen : length es = length (frame_rows momo df))
    by apply entries_length.
  apply entries_need_cci in E as (r & Hr & Hc).
  exists r. rewrite last_lookup, <- Nat.sub_1_r, <- Hlen.
  apply fgt_inv in Hc as (x & y & Hx & _).
  apply frame_rows_bar in Hr as Hb. destruct Hb as [Hb Hcci].
  rewrite Hx in Hcci.
  destruct (cci df (cci_len momo) !! (length es - 1)%nat) as [[q|]|] eqn:Eq;
    try done.
  apply cci_finite_close in Eq as (b & c & Hb' & Hcl).
  rewrite Hb in Hb'. injection Hb' as <-. by exists c.
Qed.

End FrameFacts.

Section EntryStep.

Lemma position_size_NaN_risk (e s eq : float) :
  position_size e s eq NaN = Some 0%Z.
Proof.
  destruct (position_size_eval e s eq NaN) as (x & y & _ & Hx & Hy & _ & ->).
  replace (eq * NaN)%fl with NaN in Hy by (by destruct eq).
  by injection Hy as <-.
Qed.

Variable momo : Momo.
Variable df : list Bar.
Hypothesis Hlen : (length (frame_rows momo df) <? 30)%nat = false.

(** The value read as [pattern_stop] is the low of the last bar but one. *)
Lemma pattern_stop_is_prev_low :
  exists prev,
    df !! (length df - 2)%nat = Some prev
    /\ iloc_last NaN (shift1 ((low ∘ bar) <$> frame_rows momo df)) = low prev.
Proof using Hlen.
  apply Nat.ltb_ge in Hlen. pose proof (frame_rows_length momo df) as Hl.
  assert (Hi : (length df - 2 < length (frame_rows momo df))%nat) by lia.
  apply lookup_lt_is_Some in Hi as [p Hp].
  assert (Hj : (S (length df - 2) < length (frame_rows momo df))%nat) by lia.
  apply lookup_lt_is_Some in Hj as [r Hr].
  exists (bar p). split; [by apply frame_rows_bar in Hp as [? _]|].
  rewrite iloc_last_lookup, shift1_length, length_fmap, Hl.
  replace (length df - 1)%nat with (S (length df - 2)) by lia.
  by rewrite (col_shift1_S _ (low ∘ bar) _ p r Hp Hr).
Qed.

Lemma last_frame_row (r : Row) :
  last (frame_rows momo df) = Some r -> last df = Some (bar r).
Proof.
  rewrite !last_lookup, frame_rows_length. intros H.
  by apply frame_rows_bar in H as [? _].
Qed.

End EntryStep.

(** C2.  When a frame takes the machine from flat to long, the recorded
    entry is the close of the last bar and the recorded stop is the larger
    of the low of the bar before it and [entry * (1 - r)], [r] being the
    risk fraction in effect (the command override if set, the default
    otherwise); with [r = 0.01] this is [max(previous low, entry * 0.99)].
    The stop also becomes the trailing high-water mark. *)
Theorem entry_stop_is_max (momo : Momo) (df : list Bar) (S S' : BotState)
    (L L' : Position) (ev : list Event) :
  in_pos L = false ->
  on_frame momo df S L = (S', L', ev) ->
  in_pos L' = true ->
  exists (prev cur : Bar) (pl e r s : Q),
    df !! (length df - 2)%nat = Some prev /\ last df = Some cur
    /\ low prev = Fin pl /\ close cur = Fin e /\ used_risk_pct S = Fin r
    /\ entry L' = Fin e /\ stop L' = Fin s
    /\ s == Qmax pl (e * (1 - r))
    /\ (r == 0.01 -> s == Qmax pl (e * 0.99))
    /\ last_trailing L' = Some (Fin s).
Proof.
  intros Hflat Hstep Hlong. unfold on_frame in Hstep. cbv zeta in Hstep.
  destruct (length (frame_rows momo df) <? 30)%nat eqn:Hlen;
    [injection Hstep as <- <- <-; congruence|].
  rewrite Hflat in Hstep. cbn [negb] in Hstep.
  destruct (sig_enter momo (frame_rows momo df)) eqn:Hsig;
    [|injection Hstep as <- <- <-; congruence].
  destruct (sig_enter_price _ _ Hsig) as (cur & e & Hlast & He).
  destruct (pattern_stop_is_prev_low momo df Hlen) as (prev & Hprev & Hps).
  assert (Hil : iloc_last nan_row (frame_rows momo df) = cur)
    by (unfold iloc_last; by rewrite Hlast).
  rewrite Hil, He in Hstep.
  unfold try_enter in Hstep. cbv zeta in Hstep. rewrite Hps in Hstep.
  destruct (position_size _ _ _ _) as [q|] eqn:Hq;
    [|injection Hstep as <- <- <-; cbn in Hlong; congruence].
  destruct (_ || _ || _) eqn:Hrej;
    [injection Hstep as <- <- <-; cbn in Hlong; congruence|].
  apply orb_false_iff in Hrej as [Hrej Hfin].
  apply orb_false_iff in Hrej as [Hqty _].
  apply negb_false_iff in Hfin. apply Z.leb_gt in Hqty.
  injection Hstep as <- <- <-. cbn.
  destruct (low prev) as [pl|] eqn:Hpl;
    [|by rewrite pymax_NaN_l in Hfin].
  destruct (used_risk_pct S) as [r|] eqn:Hr;
    [|rewrite position_size_NaN_risk in Hq; injection Hq as <-; lia].
  cbn in *. destruct (pymax_Fin pl (e * (1 - r))) as (s & Hs & Hmax).
  exists prev, (bar cur), pl, e, r, s.
  rewrite Hs. repeat split; try done.
  - by apply (last_frame_row momo).
  - intros Hr1. rewrite Hmax. apply Q.max_compat; [reflexivity|].
    rewrite Hr1. reflexivity.
Qed.


Section ManageStep.

Variable momo : Momo.
Variable df : list Bar.

Lemma last_row_of_bar (cur : Bar) :
  last df = Some cur ->
  exists r, last (frame_rows momo df) = Some r /\ bar r = cur.
Proof.
  rewrite !last_lookup, frame_rows_length, frame_rows_lookup.
  destruct (df !! _) as [b|]; [|done]. intros [= ->].
  eexists. split; [done|]. done.
Qed.

Lemma count_exits_warn (b : bool) (e : Event) :
  count_exits ((if b then [Weakening] else []) ++ [e])
  = if is_exit e then 1%nat else 0%nat.
Proof.
  unfold count_exits. destruct b, e; done.
Qed.

Lemma count_exits_warn_only (b : bool) :
  count_exits (if b then [Weakening] else []) = 0%nat.
Proof. by destruct b. Qed.

End ManageStep.

(** C3.  On a frame processed while long (at least 30 bars): if the
    fail-safe test holds on the last close the only message is the
    fail-safe exit, whatever the structural-stop test says; if it does not
    and the last low is at or below the stop the only message is the stop
    exit.  In both cases the position is closed with stop and trailing
    mark untouched, so no weakening, take-profit or stop-raise message is
    produced.  Every frame produces at most one exit message, and the
    position is closed exactly when one is produced. *)
Theorem exit_priority (momo : Momo) (df : list Bar) (S S' : BotState)
    (L L' : Position) (ev : list Event) (cur : Bar) :
  in_pos L = true ->
  (30 <= length df)%nat ->
  last df = Some cur ->
  on_frame momo df S L = (S', L', ev) ->
  (immediate_stop_hit (close cur) (entry L) (max_loss_pct S) = true ->
   ev = [ExitFailSafe (max_loss_pct S)] /\ L' = closed L)
  /\ (immediate_stop_hit (close cur) (entry L) (max_loss_pct S) = false ->
      (low cur <=? stop L)%fl = true ->
      ev = [ExitStop (stop L)] /\ L' = closed L)
  /\ (count_exits ev <= 1)%nat
  /\ (in_pos L' = false <-> count_exits ev = 1%nat)
  /\ S' = S.
Proof.
  intros Hlong Hlen Hlast Hstep.
  unfold on_frame in Hstep. cbv zeta in Hstep.
  replace (length (frame_rows momo df) <? 30)%nat with false in Hstep
    by (symmetry; apply Nat.ltb_ge; by rewrite frame_rows_length).
  rewrite Hlong in Hstep. cbn [negb] in Hstep.
  destruct (last_row_of_bar momo df cur Hlast) as (r & Hr & Hbar).
  assert (Hil : iloc_last nan_row (frame_rows momo df) = r)
    by (unfold iloc_last; by rewrite Hr).
  subst cur. rewrite Hil in Hstep. unfold manage in Hstep. cbv zeta in Hstep.
  fold (closed L) in Hstep.
  destruct (immediate_stop_hit _ _ _) eqn:Hfs.
  { injection Hstep as <- <- <-. repeat split; done. }
  destruct (low (bar r) <=? stop L)%fl eqn:Hst.
  { injection Hstep as <- <- <-. repeat split; done. }
  destruct (_ && _ && _) eqn:Htp.
  { injection Hstep as <- <- <-. rewrite count_exits_warn. cbn.
    repeat split; try done. }
  destruct (match last_trailing L with Some _ => _ | None => _ end);
    injection Hstep as <- <- <-;
    rewrite ?count_exits_warn, ?count_exits_warn_only; cbn;
    repeat split; try done; try lia; rewrite Hlong; done.
Qed.

Section StopRatchet.

Variable momo : Momo.

Lemma stop_le_refl (L : Position) :
  tracking L -> in_pos L = true -> stop_le L L.
Proof.
  intros Ht Hl. destruct (Ht Hl) as (q & Hq & _).
  exists q, q. repeat split; try done. apply Qle_refl.
Qed.

Lemma stop_le_trans (L1 L2 L3 : Position) :
  stop_le L1 L2 -> stop_le L2 L3 -> stop_le L1 L3.
Proof.
  intros (a & b & Ha & Hb & Hab) (b' & c & Hb' & Hc & Hbc).
  rewrite Hb in Hb'. injection Hb' as <-.
  exists a, c. repeat split; try done. by apply Qle_trans with b.
Qed.

(** While long, the stop either stays or becomes
    [max(stop, ema20)], and then only if that is above the trailing
    mark; it never decreases. *)
Lemma manage_ratchet (last : Row) (price : float) (flip : bool)
    (S S' : BotState) (L L' : Position) (ev : list Event) :
  tracking L -> in_pos L = true ->
  manage last price flip S L = (S', L', ev) ->
  tracking L'
  /\ stop_le L L'
  /\ (stop L' = stop L
      \/ (stop L' = pymax (stop L) (ema20 last)
          /\ (exists t, last_trailing L = Some t /\ (stop L' >? t)%fl = true)
          /\ last_trailing L' = Some (stop L'))).
Proof.
  intros Ht Hl. destruct (Ht Hl) as (q & Hq & Htr).
  unfold manage. cbv zeta.
  assert (Hsame : stop_le L L) by (by apply stop_le_refl).
  assert (Hclosed : tracking {| in_pos := false; entry := entry L;
                                stop := stop L; qty := qty L;
                                last_trailing := last_trailing L |})
    by (intros ?; done).
  assert (Hle : forall L0, stop L0 = stop L -> stop_le L L0).
  { intros L0 H0. exists q, q. rewrite H0. repeat split; try done.
    apply Qle_refl. }
  destruct (immediate_stop_hit _ _ _);
    [intros [= <- <- <-]; split; [done|]; split; [by apply Hle | by left]|].
  destruct (low (bar last) <=? stop L)%fl;
    [intros [= <- <- <-]; split; [done|]; split; [by apply Hle | by left]|].
  destruct (_ && _ && _);
    [intros [= <- <- <-]; split; [done|]; split; [by apply Hle | by left]|].
  rewrite Htr, Hq.
  destruct (pymax (Fin q) (ema20 last) >? Fin q)%fl eqn:Hup;
    intros [= <- <- <-].
  - destruct (pymax_Fin_l q (ema20 last)) as (m & Hm & Hqm).
    cbn [stop in_pos last_trailing]. split; [|split].
    + intros _. exists m. by rewrite Hm.
    + by exists q, m.
    + right. repeat split; try done. by exists (Fin q).
  - split; [done|]. split; [done | by left].
Qed.

Lemma try_enter_tracking (rows : list Row) (price : float)
    (S S' : BotState) (L L' : Position) (ev : list Event) :
  in_pos L = false ->
  try_enter rows price S L = (S', L', ev) -> tracking L'.
Proof.
  intros Hflat. unfold try_enter. cbv zeta.
  destruct (position_size _ _ _ _);
    [|intros [= <- <- <-] Hl; cbn in Hl; congruence].
  destruct (_ || _ || _) eqn:Hrej;
    intros [= <- <- <-] Hl; [cbn in Hl; congruence|].
  apply orb_false_iff in Hrej as [_ Hfin]. apply negb_false_iff in Hfin.
  cbn. destruct (pymax _ _) as [s|]; [|done]. by exists s.
Qed.

Lemma step_tracking (i : Input) (S S' : BotState) (L L' : Position)
    (ev : list Event) :
  tracking L -> step momo i S L = (S', L', ev) -> tracking L'.
Proof.
  intros Ht. destruct i as [df| |]; cbn [step];
    [|by intros [= <- <- <-]..].
  unfold on_frame. cbv zeta.
  destruct (_ <? 30)%nat; [by intros [= <- <- <-]|].
  destruct (in_pos L) eqn:Hl; cbn [negb].
  - intros H. by apply manage_ratchet in H as (? & _).
  - destruct (sig_enter _ _); [|by intros [= <- <- <-]].
    by apply try_enter_tracking.
Qed.

Lemma step_stop_le (i : Input) (S S' : BotState) (L L' : Position)
    (ev : list Event) :
  tracking L -> in_pos L = true ->
  step momo i S L = (S', L', ev) -> stop_le L L'.
Proof.
  intros Ht Hl. destruct i as [df| |]; cbn [step];
    [|intros [= <- <- <-]; by apply stop_le_refl..].
  unfold on_frame. cbv zeta.
  destruct (_ <? 30)%nat; [intros [= <- <- <-]; by apply stop_le_refl|].
  rewrite Hl. cbn [negb].
  intros H. by apply manage_ratchet in H as (_ & ? & _).
Qed.

(** Along a run that starts long and stays long, the stop after each
    input is at least the initial stop. *)
Lemma run_from_head (inputs : list Input) :
  forall (S : BotState) (L : Position) (j : nat) (Sj : BotState) (Lj : Position),
    tracking L -> in_pos L = true ->
    run momo inputs S L !! j = Some (Sj, Lj) ->
    (forall k Sk Lk, (k <= j)%nat ->
                     run momo inputs S L !! k = Some (Sk, Lk) -> in_pos Lk = true) ->
    stop_le L Lj.
Proof.
  induction inputs as [|i rest IH]; intros S L j Sj Lj Ht Hl Hj Hall; [done|].
  cbn [run] in Hj, Hall.
  destruct (step momo i S L) as [[S1 L1] ev] eqn:Hstep.
  pose proof (step_tracking _ _ _ _ _ _ Ht Hstep) as Ht1.
  pose proof (step_stop_le _ _ _ _ _ _ Ht Hl Hstep) as Hle1.
  destruct j as [|j].
  - by injection Hj as <- <-.
  - apply stop_le_trans with L1; [done|].
    apply (IH S1 L1 j Sj Lj); try done.
    + apply (Hall 0%nat S1 L1); [lia | done].
    + intros k Sk Lk Hk Hlk. apply (Hall (Datatypes.S k) Sk Lk); [lia | done].
Qed.

Lemma run_monotone (inputs : list Input) :
  forall (S : BotState) (L : Position) (i j : nat)
         (Si Sj : BotState) (Li Lj : Position),
    tracking L -> (i <= j)%nat ->
    run momo inputs S L !! i = Some (Si, Li) ->
    run momo inputs S L !! j = Some (Sj, Lj) ->
    (forall k Sk Lk, (i <= k <= j)%nat ->
                     run momo inputs S L !! k = Some (Sk, Lk) -> in_pos Lk = true) ->
    stop_le Li Lj.
Proof.
  induction inputs as [|inp rest IH];
    intros S L i j Si Sj Li Lj Ht Hij Hi Hj Hall; [done|].
  cbn [run] in Hi, Hj, Hall.
  destruct (step momo inp S L) as [[S1 L1] ev] eqn:Hstep.
  pose proof (step_tracking _ _ _ _ _ _ Ht Hstep) as Ht1.
  destruct i as [|i].
  - injection Hi as <- <-.
    assert (Hl1 : in_pos L1 = true) by (apply (Hall 0%nat S1 L1); [lia | done]).
    destruct j as [|j].
    + injection Hj as <- <-. by apply stop_le_refl.
    + apply (run_from_head rest S1 L1 j Sj Lj); try done.
      intros k Sk Lk Hk Hlk. apply (Hall (Datatypes.S k) Sk Lk); [lia | done].
  - destruct j as [|j]; [lia|].
    apply (IH S1 L1 i j Si Sj Li Lj); try done; [lia|].
    intros k Sk Lk Hk Hlk. apply (Hall (Datatypes.S k) Sk Lk); [lia | done].
Qed.

End StopRatchet.

(** C4.  In a run of the machine from its initial flat state, under any
    interleaving of frames and risk commands: if the position is long after
    every input from the [i]-th to the [j]-th, the stop after the [j]-th is
    at least the stop after the [i]-th.  On a single frame processed while
    long the stop either stays or is replaced by [max(stop, EMA20)], the
    latter only when that value is above the trailing high-water mark,
    which it then becomes. *)
Theorem trailing_stop_monotone (momo : Momo) (inputs : list Input) (S0 : BotState)
    (i j : nat) (Si Sj : BotState) (Li Lj : Position) :
  (i <= j)%nat ->
  run momo inputs S0 initial_position !! i = Some (Si, Li) ->
  run momo inputs S0 initial_position !! j = Some (Sj, Lj) ->
  (forall k Sk Lk, (i <= k <= j)%nat ->
                   run momo inputs S0 initial_position !! k = Some (Sk, Lk) ->
                   in_pos Lk = true) ->
  stop_le Li Lj
  /\ tracking Li
  /\ (forall last price flip S' L' ev,
        manage last price flip Si Li = (S', L', ev) ->
        stop L' = stop Li
        \/ (stop L' = pymax (stop Li) (ema20 last)
            /\ (exists t, last_trailing Li = Some t /\ (stop L' >? t)%fl = true)
            /\ last_trailing L' = Some (stop L'))).
Proof.
  intros Hij Hi Hj Hall.
  assert (Ht0 : tracking initial_position) by (intros ?; done).
  split; [by apply (run_monotone momo inputs S0 initial_position i j Si Sj)|].
  assert (Hl : in_pos Li = true) by (apply (Hall i Si Li); [lia | done]).
  assert (Hti : tracking Li).
  { clear Hj Hall Hij Hl. revert S0 i Hi. generalize initial_position Ht0.
    induction inputs as [|inp rest IH]; intros L Ht S i Hi; [done|].
    cbn [run] in Hi. destruct (step momo inp S L) as [[S1 L1] ev] eqn:Hstep.
    pose proof (step_tracking _ _ _ _ _ _ _ Ht Hstep) as Ht1.
    destruct i as [|i]; [by injection Hi as <- <-|].
    by apply (IH L1 Ht1 S1 i). }
  split; [done|].
  intros last price flip S' L' ev Hm.
  by apply manage_ratchet in Hm as (_ & _ & ?).
Qed.

(** ** The statements on the sample data *)

Lemma momentum_entries_spec_witness :
  momentum_entries ex_rows (Fin 0.2) (Fin 0) true use_patterns_default !! 2%nat
  = Some true.
Proof.
  exact (proj1 (momentum_entries_spec ex_rows 1 _ _ eq_refl eq_refl)).
Defined.

Lemma entry_stop_is_max_witness :
  exists (prev cur : Bar) (pl e r s : Q),
    ex_frame !! (length ex_frame - 2)%nat = Some prev /\ last ex_frame = Some cur
    /\ low prev = Fin pl /\ close cur = Fin e /\ used_risk_pct ex_state = Fin r
    /\ entry (on_frame ex_momo ex_frame ex_state initial_position).1.2 = Fin e
    /\ stop (on_frame ex_momo ex_frame ex_state initial_position).1.2 = Fin s
    /\ s == Qmax pl (e * (1 - r))
    /\ (r == 0.01 -> s == Qmax pl (e * 0.99))
    /\ last_trailing (on_frame ex_momo ex_frame ex_state initial_position).1.2
       = Some (Fin s).
Proof.
  apply (entry_stop_is_max ex_momo ex_frame ex_state
           (on_frame ex_momo ex_frame ex_state initial_position).1.1
           initial_position
           (on_frame ex_momo ex_frame ex_state initial_position).1.2
           (on_frame ex_momo ex_frame ex_state initial_position).2).
  - reflexivity.
  - by destruct (on_frame ex_momo ex_frame ex_state initial_position) as [[? ?] ?].
  - vm_compute. reflexivity.
Defined.

Lemma exit_priority_witness :
  (low (mkBar (Fin 129) (Fin 129) (Fin 120) (Fin 121) (Fin 1000)) <=? stop ex_long)%fl
  = true
  /\ (on_frame ex_momo ex_frame_crash ex_state ex_long).2
     = [ExitFailSafe (max_loss_pct ex_state)]
  /\ (on_frame ex_momo ex_frame_crash ex_state ex_long).1.2 = closed ex_long.
Proof.
  split; [reflexivity|].
  apply (exit_priority ex_momo ex_frame_crash ex_state
           (on_frame ex_momo ex_frame_crash ex_state ex_long).1.1
           ex_long
           (on_frame ex_momo ex_frame_crash ex_state ex_long).1.2
           (on_frame ex_momo ex_frame_crash ex_state ex_long).2
           (mkBar (Fin 129) (Fin 129) (Fin 120) (Fin 121) (Fin 1000))).
  - reflexivity.
  - vm_compute. lia.
  - reflexivity.
  - by destruct (on_frame ex_momo ex_frame_crash ex_state ex_long) as [[? ?] ?].
  - reflexivity.
Defined.

Lemma trailing_stop_monotone_witness :
  stop_le (ex_after 0).2 (ex_after 3).2 /\ tracking (ex_after 0).2.
Proof.
  destruct (trailing_stop_monotone ex_momo ex_inputs ex_state 0 3
              (ex_after 0).1 (ex_after 3).1 (ex_after 0).2 (ex_after 3).2)
    as (Hle & Htr & _).
  - lia.
  - vm_compute. reflexivity.
  - vm_compute. reflexivity.
  - intros k Sk Lk Hk. destruct k as [|[|[|[|k]]]]; [..|lia];
      vm_compute; intros [= <- <-]; reflexivity.
  - split; [exact Hle | exact Htr].
Defined.



(** * Further properties of the code *)

(** ** Exponential moving average *)

Section EmaFacts.

Lemma span_alpha_range (n : positive) : 0 < span_alpha n /\ span_alpha n <= 1.
Proof.
  unfold span_alpha.
  assert (H : 1 <= inject_Z (Z.pos n)).
  { change 1 with (inject_Z 1). rewrite <- Zle_Qle. lia. }
  split.
  - apply Qlt_shift_div_l; lra.
  - apply Qle_shift_div_r; lra.
Qed.

Lemma ewm_mean_length (alpha : Q) (vals : series) :
  forall w o, length (ewm_mean alpha w o vals) = length vals.
Proof.
  induction vals as [|cur rest IH]; intros w o; [done|].
  cbn [ewm_mean]. destruct w, cur; cbn [length]; by rewrite IH.
Qed.

Variables (alpha lo hi : Q).
Hypothesis Halpha : 0 < alpha /\ alpha <= 1.

Lemma ewm_step_within (o w x : Q) :
  0 <= o -> lo <= w <= hi -> lo <= x <= hi ->
  lo <= Qred ((o * w + alpha * x) / (o + alpha)) <= hi.
Proof using Halpha.
  intros Ho Hw Hx. rewrite Qred_correct.
  assert (H1 : 0 <= o * (w - lo)) by (apply Qmult_le_0_compat; lra).
  assert (H2 : 0 <= o * (hi - w)) by (apply Qmult_le_0_compat; lra).
  assert (H3 : 0 <= alpha * (x - lo)) by (apply Qmult_le_0_compat; lra).
  assert (H4 : 0 <= alpha * (hi - x)) by (apply Qmult_le_0_compat; lra).
  split.
  - apply Qle_shift_div_l; lra.
  - apply Qle_shift_div_r; lra.
Qed.

Lemma ewm_mean_within (vals : series) :
  forall w o,
    0 <= o -> nan_or_within lo hi w -> Forall (nan_or_within lo hi) vals ->
    Forall (nan_or_within lo hi) (ewm_mean alpha w o vals).
Proof using Halpha.
  induction vals as [|cur rest IH]; intros w o Ho Hw Hvals; [constructor|].
  apply Forall_cons in Hvals as [Hcur Hrest]. cbn [ewm_mean].
  destruct Hw as [-> | (wq & -> & Hwq)].
  - constructor; [done|]. by apply IH.
  - destruct Hcur as [-> | (x & -> & Hx)].
    + assert (Ho' : 0 <= o * (1 - alpha)) by (apply Qmult_le_0_compat; lra).
      constructor; [right; eauto|]. apply IH; [done | right; eauto | done].
    + assert (Ho' : 0 <= o * (1 - alpha)) by (apply Qmult_le_0_compat; lra).
      pose proof (ewm_step_within _ _ _ Ho' Hwq Hx) as Hy.
      constructor; [right; eauto|]. apply IH; [lra | right; eauto | done].
Qed.

(** With no missing value the weight carried by the running average is 1
    at every step, and the recurrence is the usual one. *)
Lemma ewm_mean_recurrence (vals : series) :
  forall (w : Q) (i : nat) (x : Q),
    Forall (fun v => isfinite v = true) vals ->
    vals !! i = Some (Fin x) ->
    exists p y,
      (match i with
       | O => Some (Fin w)
       | S j => ewm_mean alpha (Fin w) 1 vals !! j
       end) = Some (Fin p)
      /\ ewm_mean alpha (Fin w) 1 vals !! i = Some (Fin y)
      /\ y == alpha * x + (1 - alpha) * p.
Proof using Halpha.
  induction vals as [|cur rest IH]; intros w i x Hfin Hi; [done|].
  apply Forall_cons in Hfin as [Hcur Hrest].
  destruct cur as [c|]; [|done]. cbn [ewm_mean].
  destruct i as [|i].
  - injection Hi as ->. eexists w, _. repeat split; try done.
    rewrite Qred_correct. field. lra.
  - cbn in Hi. destruct (IH (Qred ((1 * (1 - alpha) * w + alpha * c)
                                   / (1 * (1 - alpha) + alpha))) i x Hrest Hi)
      as (p & y & Hp & Hy & Heq).
    exists p, y. repeat split; done.
Qed.

End EmaFacts.

Section EmaSeries.

Variable n : positive.


Lemma ewm_mean_near (alpha c : Q) (vals : series) (w : float) (o : Q) :
  0 < alpha /\ alpha <= 1 -> 0 <= o -> w = NaN \/ near c w ->
  Forall (near c) vals -> Forall (near c) (ewm_mean alpha w o vals).
Proof.
  intros Ha Ho Hw Hvals.
  assert (Hin : Forall (nan_or_within c c) (ewm_mean alpha w o vals)).
  { apply ewm_mean_within; try done.
    - destruct Hw as [-> | (q & -> & Hq)]; [by left|].
      right. exists q. split; [done|]. lra.
    - eapply Forall_impl; [exact Hvals|]. intros x (q & -> & Hq).
      right. exists q. split; [done|]. lra. }
  revert w o Ho Hw Hin. induction Hvals as [|x rest (q & -> & Hq) _ IH];
    intros w o Ho Hw Hin; [constructor|].
  cbn [ewm_mean] in *. destruct w as [wq|].
  - apply Forall_cons in Hin as [[?|(y & Hy & Hc)] Hin]; [done|].
    constructor; [exists y; split; [done|lra]|].
    apply IH; [lra | right; exists y; split; [done|lra] | done].
  - apply Forall_cons in Hin as [_ Hin].
    constructor; [by exists q|]. apply IH; [done | right; by exists q | done].
Qed.

Lemma zip_fsub_near (a b : Q) (s t : series) :
  Forall (near a) s -> Forall (near b) t -> Forall (near (a - b)) (zip_with fsub s t).
Proof.
  intros Hs. revert t. induction Hs as [|x s (p & -> & Hp) _ IH];
    intros t Ht; [constructor|].
  destruct Ht as [|y t (q & -> & Hq) Ht]; [constructor|].
  cbn. constructor; [|by apply IH].
  exists (p - q). split; [done|]. by rewrite Hp, Hq.
Qed.

End EmaSeries.



(** X3.  On a series without missing values [ema] follows the recurrence
    [y(i+1) = alpha * x(i+1) + (1 - alpha) * y(i)] with
    [alpha = 2 / (span + 1)]. *)
Theorem ema_recurrence (s : series) (n : positive) (i : nat) (x : Q) :
  Forall (fun v => isfinite v = true) s ->
  s !! S i = Some (Fin x) ->
  exists p y,
    ema s n !! i = Some (Fin p)
    /\ ema s n !! S i = Some (Fin y)
    /\ y == span_alpha n * x + (1 - span_alpha n) * p.
Proof.
  intros Hfin Hx. unfold ema. fold (span_alpha n).
  destruct s as [|[c|] rest]; [done| |by apply Forall_cons in Hfin as [? _]].
  apply Forall_cons in Hfin as [_ Hrest]. cbn in Hx. cbn [ewm_mean].
  destruct (ewm_mean_recurrence (span_alpha n) (span_alpha_range n) rest c i x
              Hrest Hx) as (p & y & Hp & Hy & Heq).
  exists p, y. repeat split; done.
Qed.

Lemma ema_recurrence_witness :
  exists p y,
    ema [Fin 10; Fin 13; Fin 16] 2 !! 1%nat = Some (Fin p)
    /\ ema [Fin 10; Fin 13; Fin 16] 2 !! 2%nat = Some (Fin y)
    /\ y == span_alpha 2 * 16 + (1 - span_alpha 2) * p.
Proof.
  apply (ema_recurrence [Fin 10; Fin 13; Fin 16] 2 1 16).
  - repeat constructor.
  - reflexivity.
Defined.

(** X4.  On a close series that is constant, the MACD line, its signal line
    and the histogram have one value per bar and are zero throughout. *)
Theorem macd_flat (close : series) (c : Q) (fast slow signal : positive) :
  Forall (near c) close ->
  let '(line, sig, hist) := macd close fast slow signal in
  length line = length close /\ length sig = length close
  /\ length hist = length close
  /\ Forall (near 0) line /\ Forall (near 0) sig /\ Forall (near 0) hist.
Proof.
  intros Hc. unfold macd. cbv zeta.
  assert (He : forall m, Forall (near c) (ema close m)).
  { intros m. apply ewm_mean_near; [apply (span_alpha_range m) | lra | by left | done]. }
  assert (Hline : Forall (near 0) (zip_with fsub (ema close fast) (ema close slow))).
  { eapply Forall_impl; [apply (zip_fsub_near c c); apply He|].
    intros x (q & -> & Hq). exists q. split; [done|]. lra. }
  assert (Hsig : Forall (near 0)
                   (ema (zip_with fsub (ema close fast) (ema close slow)) signal)).
  { apply ewm_mean_near; [apply (span_alpha_range signal) | lra | by left | done]. }
  unfold ema in *.
  rewrite !length_zip_with, !ewm_mean_length, !length_zip_with, !ewm_mean_length.
  repeat split; try lia; try done.
  eapply Forall_impl; [apply (zip_fsub_near 0 0); done|].
  intros x (q & -> & Hq). exists q. split; [done|]. lra.
Qed.

Lemma macd_flat_witness :
  Forall (near 0) (macd [Fin 7; Fin 7; Fin 7] 12 26 9).2.
Proof.
  pose proof (macd_flat [Fin 7; Fin 7; Fin 7] 7 12 26 9) as H.
  destruct (macd [Fin 7; Fin 7; Fin 7] 12 26 9) as [[line sig] hist].
  apply H. repeat apply Forall_cons_2; try done;
    eexists; (split; [reflexivity|]); reflexivity.
Defined.

(** ** No lookahead *)

Section Causality.

Variable k : nat.

Lemma ewm_mean_take (alpha : Q) (vals : series) :
  forall (j : nat) (w : float) (o : Q),
    take j (ewm_mean alpha w o vals) = ewm_mean alpha w o (take j vals).
Proof.
  induction vals as [|cur rest IH]; intros j w o; [by destruct j|].
  destruct j as [|j]; [done|]. cbn [ewm_mean take].
  destruct w, cur; cbn; by rewrite IH.
Qed.

Lemma ema_take (s : series) (n : positive) : take k (ema s n) = ema (take k s) n.
Proof. apply ewm_mean_take. Qed.

Lemma shift1_take (s : series) : take k (shift1 s) = shift1 (take k s).
Proof.
  unfold shift1. rewrite take_take, length_take.
  destruct (k `min` length s)%nat as [|m] eqn:Hm; [done|].
  cbn [take]. f_equal. rewrite take_take. f_equal. lia.
Qed.

Lemma window_take (n i : nat) (s : series) :
  (i < k)%nat -> (n <= S i)%nat ->
  take n (drop (S i - n) (take k s)) = take n (drop (S i - n) s).
Proof.
  intros Hi Hn. rewrite !take_drop_commute, take_take. do 2 f_equal. lia.
Qed.

Lemma rolling_mean_take (n : nat) (s : series) :
  take k (rolling_mean n s) = rolling_mean n (take k s).
Proof.
  apply list_eq. intros i. unfold rolling_mean.
  rewrite lookup_take, !list_lookup_imap, lookup_take.
  destruct (decide (i < k)%nat) as [Hi|]; [|reflexivity].
  destruct (s !! i) as [x|]; [|reflexivity].
  cbv [fmap option_fmap option_map]. f_equal.
  destruct (S i <? n)%nat eqn:Hn; [done|].
  apply Nat.ltb_ge in Hn. by rewrite window_take.
Qed.

Lemma replace0_take (eps : Q) (s : series) :
  take k (replace0 eps s) = replace0 eps (take k s).
Proof. unfold replace0. by rewrite fmap_take. Qed.

Lemma cci_take (df : list Bar) (n : nat) : take k (cci df n) = cci (take k df) n.
Proof.
  unfold cci, cci_md, cci_ma, cci_tp.
  rewrite zip_with_take, zip_with_take, <- !fmap_take, replace0_take,
    !rolling_mean_take, <- !fmap_take, zip_with_take, rolling_mean_take,
    <- !fmap_take.
  done.
Qed.

Lemma macd_take (close : series) (fast slow signal : positive) :
  let '(l, s, h) := macd close fast slow signal in
  let '(l', s', h') := macd (take k close) fast slow signal in
  take k l = l' /\ take k s = s' /\ take k h = h'.
Proof.
  unfold macd. cbv zeta.
  rewrite !zip_with_take, !ema_take, !zip_with_take, !ema_take. done.
Qed.

End Causality.

Lemma compute_indicators_take (df : list Bar) (k : nat)
    (macd_fast macd_slow macd_sig : positive) (cci_len : nat) :
  take k (compute_indicators df macd_fast macd_slow macd_sig cci_len)
  = compute_indicators (take k df) macd_fast macd_slow macd_sig cci_len.
Proof.
  pose proof (macd_take k (close <$> df) macd_fast macd_slow macd_sig) as Hm.
  unfold compute_indicators. cbv zeta. rewrite fmap_take.
  destruct (macd (close <$> df) _ _ _) as [[l s] h].
  destruct (macd (take k (close <$> df)) _ _ _) as [[l' s'] h'].
  destruct Hm as (<- & <- & <-).
  rewrite <- ema_take, <- cci_take. apply list_eq. intros i.
  rewrite lookup_take, !list_lookup_imap, (lookup_take df).
  destruct (decide (i < k)%nat) as [Hi|]; [|reflexivity].
  destruct (df !! i) as [b|]; [|reflexivity].
  cbv [fmap option_fmap option_map].
  rewrite !lookup_take. by destruct (decide (i < k)%nat).
Qed.

Ltac push_take :=
  repeat first
    [ rewrite zip_with_take
    | rewrite shift1_take
    | rewrite <- fmap_take
    | rewrite take_replicate
    | rewrite length_take ].

Lemma momentum_entries_take (df : list Row) (k : nat) (p ce : float)
    (cbh : bool) (ups : list string) :
  take k (momentum_entries df p ce cbh ups)
  = momentum_entries (take k df) p ce cbh ups.
Proof.
  unfold momentum_entries, sand, sor, map4. cbv zeta.
  repeat destruct (bool_decide _); destruct cbh; push_take; done.
Qed.

Lemma momentum_exit_flip_take (df : list Row) (k : nat) (ce : float)
    (ips : list string) :
  take k (momentum_exit_flip df ce ips) = momentum_exit_flip (take k df) ce ips.
Proof.
  unfold momentum_exit_flip, sand, sor, map4. cbv zeta.
  repeat destruct (bool_decide _); push_take; done.
Qed.

(** X5.  [compute_indicators] keeps the bars as they are and adds columns
    without lookahead: the rows computed for a prefix of the frame are the
    first rows of those computed for the whole frame. *)
Theorem compute_indicators_causal (df : list Bar) (k : nat)
    (macd_fast macd_slow macd_sig : positive) (cci_len : nat) :
  bar <$> compute_indicators df macd_fast macd_slow macd_sig cci_len = df
  /\ take k (compute_indicators df macd_fast macd_slow macd_sig cci_len)
     = compute_indicators (take k df) macd_fast macd_slow macd_sig cci_len.
Proof.
  split; [|apply compute_indicators_take].
  unfold compute_indicators, macd. cbv zeta. apply list_eq. intros i.
  rewrite list_lookup_fmap, list_lookup_imap. by destruct (df !! i).
Qed.

(** X6.  Signals are never revised: the entry and exit-flip signals computed
    on the first [k] bars of a frame are the first [k] signals computed on
    the whole frame, indicators included. *)
Theorem signals_causal (momo : Momo) (df : list Bar) (k : nat) (p ce : float)
    (cbh : bool) (ups ips : list string) :
  take k (momentum_entries (frame_rows momo df) p ce cbh ups)
  = momentum_entries (frame_rows momo (take k df)) p ce cbh ups
  /\ take k (momentum_exit_flip (frame_rows momo df) ce ips)
     = momentum_exit_flip (frame_rows momo (take k df)) ce ips.
Proof.
  unfold frame_rows.
  by rewrite momentum_entries_take, momentum_exit_flip_take,
    compute_indicators_take.
Qed.

(** ** Exit-flip signal *)

Section ExitFlipFacts.

Variable df : list Row.

Lemma momentum_exit_flip_default (cci_exit : float) :
  momentum_exit_flip df cci_exit include_patterns_default
  = let o := (open ∘ bar) <$> df in
    let h := (high ∘ bar) <$> df in
    let l := (low ∘ bar) <$> df in
    let c := (close ∘ bar) <$> df in
    sor (sand (sand (zip_with fle (macd_line <$> df) (macd_signal <$> df))
                    (zip_with fgt (shift1 (macd_line <$> df))
                       (shift1 (macd_signal <$> df))))
              ((fun x => x <? cci_exit)%fl <$> (cci_col <$> df)))
        (sor (sor (replicate (length df) false)
                (map4 (fun o h l c =>
                         is_shooting_star o h l c body_max_pct_default
                           wick_to_body_min_default wick_max_pct_default) o h l c))
           (map4 bearish_engulfing (shift1 o) (shift1 c) o c)).
Proof. reflexivity. Qed.

Lemma bearish_engulfing_no_prev (o c : float) :
  bearish_engulfing NaN NaN o c = false.
Proof.
  unfold bearish_engulfing. destruct (c <? o)%fl, (o >=? NaN)%fl; done.
Qed.

End ExitFlipFacts.

(** X7.  With the default pattern set the exit-flip signal at a bar is the exit
    rule on that bar and its predecessor: MACD line at or below signal
    now and above it on the previous bar with CCI below the threshold, or
    a shooting star, or a bearish engulfing.  On the first bar only the
    shooting star can raise it. *)
Theorem momentum_exit_flip_spec (df : list Row) (cci_exit : float) (i : nat)
    (cur : Row) :
  df !! i = Some cur ->
  momentum_exit_flip df cci_exit include_patterns_default !! i
  = Some (exit_rule cci_exit (row_before df i) cur).
Proof.
  intros Hcur. rewrite momentum_exit_flip_default. cbv zeta.
  unfold sand, sor. rewrite !lookup_zip_with, !list_lookup_fmap, Hcur.
  rewrite (false_col_lookup _ _ _ Hcur).
  rewrite (map4_lookup _ _ _ _ _ _ _ _ _ _
             (col_lookup _ (open ∘ bar) _ _ Hcur) (col_lookup _ (high ∘ bar) _ _ Hcur)
             (col_lookup _ (low ∘ bar) _ _ Hcur) (col_lookup _ (close ∘ bar) _ _ Hcur)).
  destruct i as [|j].
  - rewrite !(col_shift1_0 _ _ _ Hcur).
    rewrite (map4_lookup _ _ _ _ _ _ NaN NaN (open (bar cur)) (close (bar cur)));
      [| by apply (col_shift1_0 _ _ cur) | by apply (col_shift1_0 _ _ cur)
       | by apply (col_lookup _ (open ∘ bar)) | by apply (col_lookup _ (close ∘ bar))].
    cbn. unfold exit_rule. cbn.
    by rewrite bearish_engulfing_no_prev, andb_false_r, orb_assoc.
  - assert (Hj : (j < length df)%nat) by (apply lookup_lt_Some in Hcur; lia).
    apply lookup_lt_is_Some in Hj as [p Hp].
    rewrite !(col_shift1_S _ _ _ p cur Hp Hcur).
    rewrite (map4_lookup _ _ _ _ _ _ (open (bar p)) (close (bar p))
               (open (bar cur)) (close (bar cur)));
      [| by apply (col_shift1_S _ (open ∘ bar) _ p cur)
       | by apply (col_shift1_S _ (close ∘ bar) _ p cur)
       | by apply (col_lookup _ (open ∘ bar)) | by apply (col_lookup _ (close ∘ bar))].
    cbn. unfold exit_rule. cbn. by rewrite Hp, orb_assoc.
Qed.

Lemma momentum_exit_flip_spec_witness :
  momentum_exit_flip ex_rows (Fin 0) include_patterns_default !! 2%nat = Some false.
Proof.
  exact (momentum_exit_flip_spec ex_rows (Fin 0) 2 _ eq_refl).
Defined.

(** ** Shape of a candle *)

Section FeqFacts.

Lemma feq_refl (a : float) : feq a a.
Proof. destruct a; cbn; [reflexivity | done]. Qed.

Lemma feq_sym (a b : float) : feq a b -> feq b a.
Proof. destruct a, b; cbn; try done; intros H; by symmetry. Qed.

Lemma feq_trans (a b c : float) : feq a b -> feq b c -> feq a c.
Proof.
  destruct a, b, c; cbn; try done; intros H1 H2; by rewrite H1.
Qed.

Lemma fle_feq (a a' b b' : float) :
  feq a a' -> feq b b' -> (a <=? b)%fl = (a' <=? b')%fl.
Proof.
  destruct a, a', b, b'; cbn; try done; intros Ha Hb; by rewrite Ha, Hb.
Qed.

Lemma flt_feq (a a' b b' : float) :
  feq a a' -> feq b b' -> (a <? b)%fl = (a' <? b')%fl.
Proof.
  destruct a, a', b, b'; cbn; try done; intros Ha Hb;
    unfold Qltb; by rewrite Ha, Hb.
Qed.

Lemma fadd_feq (a a' b b' : float) :
  feq a a' -> feq b b' -> feq (a + b)%fl (a' + b')%fl.
Proof.
  destruct a, a', b, b'; cbn; try done; intros Ha Hb; by rewrite Ha, Hb.
Qed.

Lemma fsub_feq (a a' b b' : float) :
  feq a a' -> feq b b' -> feq (a - b)%fl (a' - b')%fl.
Proof.
  destruct a, a', b, b'; cbn; try done; intros Ha Hb; by rewrite Ha, Hb.
Qed.

Lemma fmul_feq (a a' b b' : float) :
  feq a a' -> feq b b' -> feq (a * b)%fl (a' * b')%fl.
Proof.
  destruct a, a', b, b'; cbn; try done; intros Ha Hb; by rewrite Ha, Hb.
Qed.

Lemma fle_fneg (a b : float) : (fneg a <=? fneg b)%fl = (b <=? a)%fl.
Proof.
  destruct a as [x|], b as [y|]; cbn; try done.
  apply eq_true_iff_eq. rewrite !Qle_bool_iff. split; intros H; lra.
Qed.

End FeqFacts.

Ltac anat :=
  cbv beta iota delta
    [feq _body _range _upper _lower fneg fabs fsub fadd fmul lift2
     np_maximum np_minimum].

Section Anatomy.

Lemma Qmax_opp (x y : Q) : Qmax (0 - x) (0 - y) == 0 - Qmin x y.
Proof.
  destruct (Q.max_spec (0 - x) (0 - y)) as [[? ->]|[? ->]],
    (Q.min_spec x y) as [[? ->]|[? ->]]; lra.
Qed.

Lemma Qmin_opp (x y : Q) : Qmin (0 - x) (0 - y) == 0 - Qmax x y.
Proof.
  destruct (Q.min_spec (0 - x) (0 - y)) as [[? ->]|[? ->]],
    (Q.max_spec x y) as [[? ->]|[? ->]]; lra.
Qed.

Lemma Qabs_eq (x y : Q) : x == y -> Qabs x == Qabs y.
Proof. intros H. by rewrite H. Qed.

Lemma body_fneg (o c : float) : feq (_body (fneg o) (fneg c)) (_body o c).
Proof.
  destruct o as [o|], c as [c|]; anat; try done.
  rewrite <- (Qabs_opp (c - o)). apply Qabs_eq. ring.
Qed.

Lemma range_fneg (h l : float) : feq (_range (fneg l) (fneg h)) (_range h l).
Proof. destruct h, l; anat; try done. apply Qabs_eq. ring. Qed.

Lemma upper_fneg (o l c : float) :
  feq (_upper (fneg o) (fneg l) (fneg c)) (_lower o l c).
Proof. destruct o, l, c; anat; try done. rewrite Qmax_opp. ring. Qed.

Lemma lower_fneg (o h c : float) :
  feq (_lower (fneg o) (fneg h) (fneg c)) (_upper o h c).
Proof. destruct o, h, c; anat; try done. rewrite Qmin_opp. ring. Qed.

Lemma maximum_fneg (o c : float) :
  feq (np_maximum (fneg o) (fneg c)) (fneg (np_minimum o c)).
Proof. destruct o, c; anat; try done. apply Qmax_opp. Qed.

Lemma near_top_fneg (l r r' : float) :
  feq r' r -> feq (fneg l - r' * Fin 0.25)%fl (fneg (l + r * Fin 0.25)%fl).
Proof. destruct l, r, r'; anat; try done; intros ->; ring. Qed.

End Anatomy.

(** X9.  The inverted hammer is the hammer turned upside down: on the candle
    with all prices negated (so that high and low change places)
    [is_hammer] returns what [is_inverted_hammer] and [is_shooting_star]
    return on the original. *)
Theorem inverted_hammer_mirror (o h l c p1 k p2 : float) :
  is_inverted_hammer o h l c p1 k p2
  = is_hammer (fneg o) (fneg l) (fneg h) (fneg c) p1 k p2
  /\ is_shooting_star o h l c p1 k p2
     = is_hammer (fneg o) (fneg l) (fneg h) (fneg c) p1 k p2.
Proof.
  pose proof (body_fneg o c) as Hb. pose proof (range_fneg h l) as Hr.
  pose proof (upper_fneg o l c) as Hu. pose proof (lower_fneg o h c) as Hl.
  assert (H : is_inverted_hammer o h l c p1 k p2
              = is_hammer (fneg o) (fneg l) (fneg h) (fneg c) p1 k p2); [|done].
  unfold is_inverted_hammer, is_hammer. cbv zeta. symmetry.
  f_equal; [f_equal; [f_equal|]|].
  - apply fle_feq; [done|]. apply fmul_feq; [done | apply feq_refl].
  - unfold fge. apply fle_feq; [|done].
    apply fmul_feq; [apply feq_refl|]. apply fadd_feq; [done | apply feq_refl].
  - apply fle_feq; [done|]. apply fmul_feq; [done | apply feq_refl].
  - unfold fge. rewrite <- (fle_fneg (l + _range h l * Fin 0.25)%fl).
    apply fle_feq; [by apply near_top_fneg | apply maximum_fneg].
Qed.

(** X10.  The bearish engulfing test is the bullish one with open and close
    exchanged in both candles, and the two never hold together. *)
Theorem engulfing_mirror (prev_o prev_c o c : float) :
  bearish_engulfing prev_o prev_c o c = bullish_engulfing prev_c prev_o c o
  /\ bullish_engulfing prev_o prev_c o c && bearish_engulfing prev_o prev_c o c
     = false.
Proof.
  split.
  - unfold bearish_engulfing, bullish_engulfing, fgt, fge.
    by rewrite <- !andb_assoc, (andb_comm (prev_c <=? o)%fl).
  - unfold bearish_engulfing, bullish_engulfing, fgt.
    destruct (o <? c)%fl eqn:H1; [|done].
    destruct (c <? o)%fl eqn:H2; [|by rewrite andb_false_r].
    apply flt_inv in H1 as (x & y & -> & -> & Hxy).
    apply flt_Fin in H2. lra.
Qed.

(** ** Entry signal under any configuration *)

(** X11.  Whatever the doji body fraction, CCI threshold, breakout toggle and
    pattern subset, the entry signal at bar [S j] is: one of the patterns
    that are switched on holds on bar [j] (the engulfing one with respect
    to bar [j-1]), MACD line above signal, CCI above the threshold and,
    when the toggle is on, close above the high of bar [j].  The signal at
    the first bar is false. *)
Theorem momentum_entries_config (df : list Row) (p ce : float) (cbh : bool)
    (ups : list string) (j : nat) (prev cur : Row) :
  df !! j = Some prev -> df !! S j = Some cur ->
  momentum_entries df p ce cbh ups !! S j
  = Some (entry_rule_with p ce cbh ups (row_before df j) prev cur)
  /\ momentum_entries df p ce cbh ups !! 0%nat = Some false.
Proof.
  intros Hprev Hcur.
  assert (H0 : (0 < length df)%nat) by (apply lookup_lt_Some in Hprev; lia).
  apply lookup_lt_is_Some in H0 as [r0 H0].
  assert (Heng : map4 bullish_engulfing
                   (shift1 (shift1 ((open ∘ bar) <$> df)))
                   (shift1 (shift1 ((close ∘ bar) <$> df)))
                   (shift1 ((open ∘ bar) <$> df)) (shift1 ((close ∘ bar) <$> df))
                 !! S j
                 = Some match row_before df j with
                        | Some pp =>
                            bullish_engulfing (open (bar pp)) (close (bar pp))
                              (open (bar prev)) (close (bar prev))
                        | None => false
                        end).
  { destruct j as [|j].
    - rewrite (map4_lookup _ _ _ _ _ _ NaN NaN (open (bar prev)) (close (bar prev)));
        [| by apply (col_shift2_1 _ _ prev cur)
         | by apply (col_shift2_1 _ _ prev cur)
         | by apply (col_shift1_S _ (open ∘ bar) _ prev cur)
         | by apply (col_shift1_S _ (close ∘ bar) _ prev cur)].
      by rewrite bullish_engulfing_no_prev.
    - assert (Hj : (j < length df)%nat) by (apply lookup_lt_Some in Hprev; lia).
      apply lookup_lt_is_Some in Hj as [pp Hpp].
      rewrite (map4_lookup _ _ _ _ _ _ (open (bar pp)) (close (bar pp))
                 (open (bar prev)) (close (bar prev)));
        [| by apply (col_shift2_SS _ (open ∘ bar) _ pp prev cur)
         | by apply (col_shift2_SS _ (close ∘ bar) _ pp prev cur)
         | by apply (col_shift1_S _ (open ∘ bar) _ prev cur)
         | by apply (col_shift1_S _ (close ∘ bar) _ prev cur)].
      cbn. by rewrite Hpp. }
  assert (Heng0 : map4 bullish_engulfing
                    (shift1 (shift1 ((open ∘ bar) <$> df)))
                    (shift1 (shift1 ((close ∘ bar) <$> df)))
                    (shift1 ((open ∘ bar) <$> df)) (shift1 ((close ∘ bar) <$> df))
                  !! 0%nat = Some false).
  { rewrite (map4_lookup _ _ _ _ _ _ NaN NaN NaN NaN);
      [done
      | by apply (shift1_lookup_0 _ NaN), (col_shift1_0 _ _ r0)
      | by apply (shift1_lookup_0 _ NaN), (col_shift1_0 _ _ r0)
      | by apply (col_shift1_0 _ _ r0)
      | by apply (col_shift1_0 _ _ r0)]. }
  unfold momentum_entries, entry_rule_with, pattern_on. cbv zeta.
  unfold sand, sor. split.
  - repeat destruct (bool_decide _); destruct cbh;
      rewrite !lookup_zip_with, !list_lookup_fmap, ?Heng, Hcur,
        (false_col_lookup _ _ _ Hcur),
        ?(col_shift1_S _ _ _ prev cur Hprev Hcur),
        ?(map4_lookup _ _ _ _ _ _ _ _ _ _
            (col_shift1_S _ (open ∘ bar) _ prev cur Hprev Hcur)
            (col_shift1_S _ (high ∘ bar) _ prev cur Hprev Hcur)
            (col_shift1_S _ (low ∘ bar) _ prev cur Hprev Hcur)
            (col_shift1_S _ (close ∘ bar) _ prev cur Hprev Hcur));
      cbn; rewrite ?orb_false_r, ?andb_true_r; try done.
  - repeat destruct (bool_decide _); destruct cbh;
      rewrite !lookup_zip_with, !list_lookup_fmap, ?Heng0, H0,
        (false_col_lookup _ _ _ H0),
        ?(col_shift1_0 _ _ _ H0),
        ?(map4_lookup _ _ _ _ _ _ _ _ _ _
            (col_shift1_0 _ (open ∘ bar) _ H0)
            (col_shift1_0 _ (high ∘ bar) _ H0)
            (col_shift1_0 _ (low ∘ bar) _ H0)
            (col_shift1_0 _ (close ∘ bar) _ H0));
      done.
Qed.

Lemma momentum_entries_config_witness :
  momentum_entries ex_rows (Fin 0.1) (Fin 50) false ["hammer"; "doji"]%string !! 2%nat
  = Some true.
Proof.
  exact (proj1 (momentum_entries_config ex_rows (Fin 0.1) (Fin 50) false
                  ["hammer"; "doji"]%string 1 _ _ eq_refl eq_refl)).
Defined.

(** ** Entries, exits and messages of the state machine *)

Section EnterInversion.

Variable momo : Momo.
Variable df : list Bar.

(** Everything that is known when a frame opens a position. *)
Lemma enter_inversion (S S' : BotState) (L L' : Position) (ev : list Event) :
  in_pos L = false ->
  on_frame momo df S L = (S', L', ev) ->
  in_pos L' = true ->
  exists (prev cur : Bar) (pl e r s : Q) (q : Z),
    df !! (length df - 2)%nat = Some prev /\ last df = Some cur
    /\ low prev = Fin pl /\ close cur = Fin e /\ used_risk_pct S = Fin r
    /\ pymax (Fin pl) (Fin (e * (1 - r))) = Fin s
    /\ position_size (Fin e) (Fin s) (equity S) (Fin r) = Some q
    /\ (0 < q)%Z /\ s < e
    /\ L' = {| in_pos := true; entry := Fin e; stop := Fin s; qty := q;
               last_trailing := Some (Fin s) |}
    /\ S' = {| equity := equity S; r_pct := r_pct S; tp_R := tp_R S;
               max_loss_pct := Fin r; cmd_risk_pct := cmd_risk_pct S |}
    /\ ev = [Enter (Fin e) (Fin s) (Fin pl) (Fin (e * (1 - r))) q (Fin r)].
Proof.
  intros Hflat Hstep Hlong. unfold on_frame in Hstep. cbv zeta in Hstep.
  destruct (length (frame_rows momo df) <? 30)%nat eqn:Hlen;
    [injection Hstep as <- <- <-; congruence|].
  rewrite Hflat in Hstep. cbn [negb] in Hstep.
  destruct (sig_enter momo (frame_rows momo df)) eqn:Hsig;
    [|injection Hstep as <- <- <-; congruence].
  destruct (sig_enter_price _ _ Hsig) as (cur & e & Hlast & He).
  destruct (pattern_stop_is_prev_low momo df Hlen) as (prev & Hprev & Hps).
  assert (Hil : iloc_last nan_row (frame_rows momo df) = cur)
    by (unfold iloc_last; by rewrite Hlast).
  rewrite Hil, He in Hstep.
  unfold try_enter in Hstep. cbv zeta in Hstep. rewrite Hps in Hstep.
  destruct (position_size _ _ _ _) as [q|] eqn:Hq;
    [|injection Hstep as <- <- <-; cbn in Hlong; congruence].
  destruct (_ || _ || _) eqn:Hrej;
    [injection Hstep as <- <- <-; cbn in Hlong; congruence|].
  apply orb_false_iff in Hrej as [Hrej Hfin].
  apply orb_false_iff in Hrej as [Hqty Hes].
  apply negb_false_iff in Hfin. apply Z.leb_gt in Hqty.
  injection Hstep as <- <- <-.
  destruct (low prev) as [pl|] eqn:Hpl;
    [|by rewrite pymax_NaN_l in Hfin].
  destruct (used_risk_pct S) as [r|] eqn:Hr;
    [|rewrite position_size_NaN_risk in Hq; injection Hq as <-; lia].
  cbn [fmul fsub lift2] in *.
  destruct (pymax_Fin pl (e * (1 - r))) as (s & Hs & Hmax).
  rewrite Hs in *. apply Qle_bool_gt in Hes.
  exists prev, (bar cur), pl, e, r, s, q. repeat split; try done.
  by apply (last_frame_row momo).
Qed.

End EnterInversion.

(** X12.  What holds of every position that is opened: entry price, stop and
    risk fraction [r] are finite, the stop is strictly below the entry and
    not below the risk cap [entry * (1 - r)] as the code computes it, the
    quantity is at least 1, the trailing mark starts at the stop, the
    fail-safe cutoff becomes [r], and the one message sent reports the
    recorded entry, stop and quantity. *)
Theorem accepted_entry_risk (momo : Momo) (df : list Bar) (S S' : BotState)
    (L L' : Position) (ev : list Event) :
  in_pos L = false ->
  on_frame momo df S L = (S', L', ev) ->
  in_pos L' = true ->
  exists (e s r : Q) (ps rs : float),
    entry L' = Fin e /\ stop L' = Fin s /\ used_risk_pct S = Fin r
    /\ s < e
    /\ (entry L' * (Fin 1 - used_risk_pct S) <=? stop L')%fl = true
    /\ (1 <= qty L')%Z
    /\ last_trailing L' = Some (stop L')
    /\ max_loss_pct S' = Fin r
    /\ ev = [Enter (entry L') (stop L') ps rs (qty L') (Fin r)].
Proof.
  intros Hflat Hstep Hlong.
  destruct (enter_inversion momo df S S' L L' ev Hflat Hstep Hlong)
    as (prev & cur & pl & e & r & s & q & _ & _ & _ & _ & Hr & Hs & Hq & Hq0
        & Hse & -> & -> & ->).
  destruct (pymax_Fin pl (e * (1 - r))) as (s' & Hs' & Hmax).
  rewrite Hs in Hs'. injection Hs' as <-.
  exists e, s, r, (Fin pl), (Fin (e * (1 - r))).
  cbn [entry stop qty max_loss_pct last_trailing]. rewrite Hr.
  repeat split; try done.
  - apply fle_Fin. pose proof (Q.le_max_r pl (e * (1 - r))). lra.
  - lia.
Qed.

Lemma accepted_entry_risk_witness :
  exists (e s r : Q) (ps rs : float),
    entry (on_frame ex_momo ex_frame ex_state initial_position).1.2 = Fin e
    /\ stop (on_frame ex_momo ex_frame ex_state initial_position).1.2 = Fin s
    /\ used_risk_pct ex_state = Fin r
    /\ s < e
    /\ (entry (on_frame ex_momo ex_frame ex_state initial_position).1.2
        * (Fin 1 - used_risk_pct ex_state)
        <=? stop (on_frame ex_momo ex_frame ex_state initial_position).1.2)%fl
       = true
    /\ (1 <= qty (on_frame ex_momo ex_frame ex_state initial_position).1.2)%Z
    /\ last_trailing (on_frame ex_momo ex_frame ex_state initial_position).1.2
       = Some (stop (on_frame ex_momo ex_frame ex_state initial_position).1.2)
    /\ max_loss_pct (on_frame ex_momo ex_frame ex_state initial_position).1.1
       = Fin r
    /\ (on_frame ex_momo ex_frame ex_state initial_position).2
       = [Enter (entry (on_frame ex_momo ex_frame ex_state initial_position).1.2)
            (stop (on_frame ex_momo ex_frame ex_state initial_position).1.2)
            ps rs
            (qty (on_frame ex_momo ex_frame ex_state initial_position).1.2)
            (Fin r)].
Proof.
  apply (accepted_entry_risk ex_momo ex_frame ex_state
           (on_frame ex_momo ex_frame ex_state initial_position).1.1
           initial_position).
  - reflexivity.
  - by destruct (on_frame ex_momo ex_frame ex_state initial_position) as [[? ?] ?].
  - vm_compute. reflexivity.
Defined.

(** X13.  The momentum-flip warning is advisory: with or without it the frame
    leaves the same state, and the messages differ by the warning alone,
    which is sent only when neither the fail-safe nor the stop fired. *)
Theorem weakening_is_advisory (last : Row) (price : float) (S : BotState)
    (L : Position) :
  (manage last price true S L).1 = (manage last price false S L).1
  /\ (manage last price true S L).2
     = if immediate_stop_hit price (entry L) (max_loss_pct S)
          || (low (bar last) <=? stop L)%fl
       then (manage last price false S L).2
       else Weakening :: (manage last price false S L).2.
Proof.
  unfold manage. cbv zeta.
  destruct (immediate_stop_hit _ _ _); [done|].
  destruct (low (bar last) <=? stop L)%fl; [done|].
  destruct (_ && _ && _); [done|].
  by destruct (match last_trailing L with Some _ => _ | None => _ end).
Qed.

Section TakeProfit.

Lemma Forall_warn (P : Event -> Prop) (b : bool) (evs : list Event) :
  P Weakening -> Forall P evs -> Forall P ((if b then [Weakening] else []) ++ evs).
Proof.
  intros Hw He. apply Forall_app. split; [|done].
  destruct b; by repeat constructor.
Qed.

End TakeProfit.

(** X14.  The fixed take-profit.  With a multiple that is zero, negative or NaN
    no take-profit exit is ever sent.  With a positive multiple the target
    is measured from the current stop, so once the stop has been trailed up
    to the entry price or above, a frame whose low is not above its close
    always closes the position (by fail-safe, stop or take-profit). *)
Theorem take_profit_behaviour (last : Row) (price : float) (flip : bool)
    (S : BotState) (L : Position) :
  ((tp_R S >? Fin 0)%fl = false ->
   Forall (fun e => is_take_profit e = false) (manage last price flip S L).2)
  /\ (forall e s : Q,
        (tp_R S >? Fin 0)%fl = true ->
        entry L = Fin e -> stop L = Fin s -> e <= s ->
        (low (bar last) <=? price)%fl = true ->
        in_pos (manage last price flip S L).1.2 = false).
Proof.
  unfold manage. cbv zeta. split.
  - intros Hoff. rewrite Hoff, andb_false_r. cbn [andb].
    destruct (immediate_stop_hit _ _ _); [by repeat constructor|].
    destruct (low (bar last) <=? stop L)%fl; [by repeat constructor|].
    destruct (match last_trailing L with Some _ => _ | None => _ end); cbn [snd].
    + apply Forall_warn; [done | by repeat constructor].
    + rewrite <- (app_nil_r (if flip then _ else _)). by apply Forall_warn.
  - intros e s Hon He Hs Hes Hbar.
    destruct (immediate_stop_hit _ _ _); [done|].
    destruct (low (bar last) <=? stop L)%fl eqn:Hst; [done|].
    apply fle_inv in Hbar as (lo & p & Hlo & -> & Hlop).
    apply fgt_inv in Hon as (t & z & Ht & [= <-] & Htpos).
    rewrite He, Hs, Hlo, Ht in *. cbn in Hst. apply Qle_bool_gt in Hst.
    assert (Hprod : t * (e - s) <= 0).
    { setoid_replace (t * (e - s)) with (- (t * (s - e))) using relation Qeq
        by ring.
      assert (0 <= t * (s - e)) by (apply Qmult_le_0_compat; lra). lra. }
    assert (Hhit : (Fin t >? Fin 0)%fl && (Fin p >=? Fin e + Fin t * (Fin e - Fin s))%fl
                   = true).
    { apply andb_true_iff. split; [by apply flt_Fin|].
      apply fle_Fin. lra. }
    replace (truthy (Fin t)) with true
      by (symmetry; apply negb_true_iff, Qeq_bool_false; lra).
    cbn [andb]. by rewrite Hhit.
Qed.

Lemma take_profit_behaviour_witness :
  Forall (fun e => is_take_profit e = false)
    (manage nan_row (Fin 131) true ex_state ex_long).2
  /\ in_pos (manage (mkRow (mkBar (Fin 130) (Fin 132) (Fin 129.5) (Fin 131) (Fin 1))
                       NaN NaN NaN NaN NaN)
               (Fin 131) false
               (mkBotState (Fin 10000) (Fin 0.01) (Fin 2) (Fin 0.01) None)
               (mkPosition true (Fin 128) (Fin 129) 76 (Some (Fin 129)))).1.2
     = false.
Proof.
  split.
  - apply (take_profit_behaviour nan_row (Fin 131) true ex_state ex_long).
    reflexivity.
  - apply (take_profit_behaviour _ (Fin 131) false
             (mkBotState (Fin 10000) (Fin 0.01) (Fin 2) (Fin 0.01) None)
             (mkPosition true (Fin 128) (Fin 129) 76 (Some (Fin 129)))) with
      (e := 128) (s := 129); try reflexivity. lra.
Defined.

Section ManagedStop.

Variable momo : Momo.

Lemma run_tracking (inputs : list Input) :
  forall (S : BotState) (L : Position) (k : nat) (Sk : BotState) (Lk : Position),
    tracking L ->
    run momo inputs S L !! k = Some (Sk, Lk) -> tracking Lk.
Proof.
  induction inputs as [|inp rest IH]; intros S L k Sk Lk Ht Hk; [done|].
  cbn [run] in Hk. destruct (step momo inp S L) as [[S1 L1] ev] eqn:Hstep.
  pose proof (step_tracking _ _ _ _ _ _ _ Ht Hstep) as Ht1.
  destruct k as [|k]; [by injection Hk as <- <-|].
  by apply (IH S1 L1 k Sk Lk).
Qed.

Lemma manage_stop_is_max (last : Row) (price : float) (flip : bool)
    (S S' : BotState) (L L' : Position) (ev : list Event) :
  tracking L -> in_pos L = true ->
  manage last price flip S L = (S', L', ev) ->
  in_pos L' = true ->
  stop L' = pymax (stop L) (ema20 last)
  /\ last_trailing L' = Some (stop L')
  /\ entry L' = entry L /\ qty L' = qty L.
Proof.
  intros Ht Hl. destruct (Ht Hl) as (q & Hq & Htr).
  unfold manage. cbv zeta.
  destruct (immediate_stop_hit _ _ _); [by intros [= <- <- <-]|].
  destruct (low (bar last) <=? stop L)%fl; [by intros [= <- <- <-]|].
  destruct (_ && _ && _); [by intros [= <- <- <-]|].
  rewrite Htr, Hq.
  destruct (pymax (Fin q) (ema20 last) >? Fin q)%fl eqn:Hup;
    intros [= <- <- <-] _; cbn [stop last_trailing entry qty]; [done|].
  rewrite Hq, Htr. repeat split; try done;
    unfold pymax in *; destruct (ema20 last >? Fin q)%fl eqn:E;
    [congruence | done].
Qed.

End ManagedStop.

(** X15.  In any run from the initial state, a frame that is processed while
    long and leaves the position open leaves the stop at
    [max(stop, EMA20)], equal to the trailing mark and therefore at or
    above a defined EMA20; entry price and quantity are not touched. *)
Theorem managed_stop_is_max (momo : Momo) (inputs : list Input) (S0 : BotState)
    (k : nat) (Sk S' : BotState) (Lk L' : Position) (last : Row)
    (price : float) (flip : bool) (ev : list Event) :
  run momo inputs S0 initial_position !! k = Some (Sk, Lk) ->
  in_pos Lk = true ->
  manage last price flip Sk Lk = (S', L', ev) ->
  in_pos L' = true ->
  stop L' = pymax (stop Lk) (ema20 last)
  /\ last_trailing L' = Some (stop L')
  /\ entry L' = entry Lk /\ qty L' = qty Lk
  /\ (forall m, ema20 last = Fin m -> exists s, stop L' = Fin s /\ m <= s).
Proof.
  intros Hk Hl Hm Hl'.
  assert (Ht : tracking Lk).
  { apply (run_tracking momo inputs S0 initial_position k Sk); [|done].
    intros ?; done. }
  destruct (manage_stop_is_max _ _ _ _ _ _ _ _ Ht Hl Hm Hl') as (Hs & Htr & He & Hq).
  repeat split; try done.
  intros m Hema. destruct (Ht Hl) as (q & Hsq & _).
  rewrite Hs, Hsq, Hema. destruct (pymax_Fin q m) as (s & -> & Hmax).
  exists s. split; [done|]. rewrite Hmax. apply Q.le_max_r.
Qed.

Lemma managed_stop_is_max_witness :
  stop (manage (mkRow (mkBar (Fin 132) (Fin 136) (Fin 131) (Fin 135) (Fin 1))
                  (Fin 140) NaN NaN NaN NaN)
          (Fin 135) false
          (on_frame ex_momo ex_frame ex_state initial_position).1.1
          (on_frame ex_momo ex_frame ex_state initial_position).1.2).1.2
  = pymax (stop (on_frame ex_momo ex_frame ex_state initial_position).1.2)
      (ema20 (mkRow (mkBar (Fin 132) (Fin 136) (Fin 131) (Fin 135) (Fin 1))
                (Fin 140) NaN NaN NaN NaN)).
Proof.
  destruct (managed_stop_is_max ex_momo [Frame ex_frame] ex_state 0
           (on_frame ex_momo ex_frame ex_state initial_position).1.1
           (manage (mkRow (mkBar (Fin 132) (Fin 136) (Fin 131) (Fin 135) (Fin 1))
                      (Fin 140) NaN NaN NaN NaN)
              (Fin 135) false
              (on_frame ex_momo ex_frame ex_state initial_position).1.1
              (on_frame ex_momo ex_frame ex_state initial_position).1.2).1.1
           (on_frame ex_momo ex_frame ex_state initial_position).1.2
           (manage (mkRow (mkBar (Fin 132) (Fin 136) (Fin 131) (Fin 135) (Fin 1))
                      (Fin 140) NaN NaN NaN NaN)
              (Fin 135) false
              (on_frame ex_momo ex_frame ex_state initial_position).1.1
              (on_frame ex_momo ex_frame ex_state initial_position).1.2).1.2
           (mkRow (mkBar (Fin 132) (Fin 136) (Fin 131) (Fin 135) (Fin 1))
              (Fin 140) NaN NaN NaN NaN)
           (Fin 135) false
           (manage (mkRow (mkBar (Fin 132) (Fin 136) (Fin 131) (Fin 135) (Fin 1))
                      (Fin 140) NaN NaN NaN NaN)
              (Fin 135) false
              (on_frame ex_momo ex_frame ex_state initial_position).1.1
              (on_frame ex_momo ex_frame ex_state initial_position).1.2).2)
    as (Hstop & _).
  - cbn [run step].
    by destruct (on_frame ex_momo ex_frame ex_state initial_position) as [[? ?] ?].
  - vm_compute. reflexivity.
  - by destruct (manage _ _ _ _ _) as [[? ?] ?].
  - vm_compute. reflexivity.
  - exact Hstop.
Defined.

Ltac msg_case :=
  repeat split; intros;
  repeat match goal with
         | H : _ /\ _ |- _ => destruct H
         | H : exists _, _ |- _ => destruct H
         end;
  try done; try lia; try congruence; try (by eexists _, _, _);
  try (by left); try (by right);
  try match goal with
      | H : forall d, Frame ?df <> Frame d |- _ => by destruct (H df)
      end.

(** X16.  Messages follow transitions.  A step sends at most one exit
    message, and exactly one when it closes a position; it sends the entry
    message, carrying the recorded entry, stop and quantity, exactly when
    it opens one; a step that starts and ends flat sends nothing or, when
    the sizing raises, only the error message of the loop's handler; and
    the [!risk] and [!sl] commands leave the position alone. *)
Theorem step_messages (momo : Momo) (i : Input) (S S' : BotState)
    (L L' : Position) (ev : list Event) :
  step momo i S L = (S', L', ev) ->
  (count_exits ev <= 1)%nat
  /\ (in_pos L = true /\ in_pos L' = false <-> count_exits ev = 1%nat)
  /\ (in_pos L = false /\ in_pos L' = true
      <-> exists ps rs r, ev = [Enter (entry L') (stop L') ps rs (qty L') r])
  /\ (in_pos L = false -> in_pos L' = false -> ev = [] \/ ev = [ErrorMessage])
  /\ ((forall df, i <> Frame df) -> L' = L).
Proof.
  destruct i as [df|pct|pct]; cbn [step].
  2,3: intros [= <- <- <-]; unfold count_exits; cbn;
       destruct (in_pos L); msg_case.
  unfold on_frame. cbv zeta.
  destruct (_ <? 30)%nat.
  { intros [= <- <- <-]. unfold count_exits. cbn.
    destruct (in_pos L); msg_case. }
  destruct (in_pos L) eqn:Hl; cbn [negb].
  - unfold manage. cbv zeta.
    destruct (immediate_stop_hit _ _ _);
      [intros [= <- <- <-]; unfold count_exits; cbn; msg_case|].
    destruct (low _ <=? stop L)%fl;
      [intros [= <- <- <-]; unfold count_exits; cbn; msg_case|].
    destruct (exit_flip momo _);
      (destruct (_ && _ && _);
       [intros [= <- <- <-]; unfold count_exits; cbn; msg_case|]);
      (destruct (match last_trailing L with Some _ => _ | None => _ end);
       intros [= <- <- <-]; unfold count_exits; cbn; rewrite ?Hl;
       msg_case).
  - destruct (sig_enter momo _);
      [|intros [= <- <- <-]; unfold count_exits; cbn; rewrite ?Hl;
        msg_case].
    unfold try_enter. cbv zeta.
    destruct (position_size _ _ _ _) as [q|];
      [|intros [= <- <- <-]; unfold count_exits; cbn; rewrite ?Hl;
        msg_case].
    destruct (_ || _ || _);
      intros [= <- <- <-]; unfold count_exits; cbn; rewrite ?Hl;
      msg_case.
Qed.

Lemma step_messages_witness :
  (count_exits (step ex_momo (Frame ex_frame) ex_state initial_position).2 <= 1)%nat
  /\ exists ps rs r,
       (step ex_momo (Frame ex_frame) ex_state initial_position).2
       = [Enter (entry (step ex_momo (Frame ex_frame) ex_state initial_position).1.2)
            (stop (step ex_momo (Frame ex_frame) ex_state initial_position).1.2)
            ps rs
            (qty (step ex_momo (Frame ex_frame) ex_state initial_position).1.2)
            r].
Proof.
  destruct (step_messages ex_momo (Frame ex_frame) ex_state
              (step ex_momo (Frame ex_frame) ex_state initial_position).1.1
              initial_position
              (step ex_momo (Frame ex_frame) ex_state initial_position).1.2
              (step ex_momo (Frame ex_frame) ex_state initial_position).2)
    as (Hcount & _ & Henter & _).
  - by destruct (step ex_momo (Frame ex_frame) ex_state initial_position)
      as [[? ?] ?].
  - split; [exact Hcount|]. apply Henter. split; vm_compute; reflexivity.
Defined.

(** ** Reading the risk argument *)

Section ParseRiskFacts.

Lemma clamp_risk (v : float) :
  exists q,
    pymax (Fin 0.0001) (pymin v (Fin 0.20)) = Fin q
    /\ 0.0001 <= q <= 0.2
    /\ (forall x, v = Fin x -> 0.0001 <= x <= 0.2 -> q == x)
    /\ (forall x, v = Fin x -> x <= 0.0001 -> q == 0.0001)
    /\ (forall x, v = Fin x -> 0.2 <= x -> q == 0.2)
    /\ (v = NaN -> q == 0.0001).
Proof.
  destruct v as [x|]; [|exists 0.0001; repeat split; try done; lra].
  unfold pymin, pymax, fgt. cbn [flt cmp2].
  destruct (Qltb 0.20 x) eqn:E1.
  - apply Qltb_lt in E1. exists 0.20.
    replace (Qltb 0.0001 0.20) with true by done.
    repeat split; try done; try lra;
      try (intros y [= <-] Hy; lra).
  - apply Qltb_ge in E1. destruct (Qltb 0.0001 x) eqn:E2.
    + apply Qltb_lt in E2. exists x.
      repeat split; try done; try lra;
      try (intros y [= <-] Hy; lra).
    + apply Qltb_ge in E2. exists 0.0001.
      repeat split; try done; try lra;
      try (intros y [= <-] Hy; lra).
Qed.

End ParseRiskFacts.

(** X17.  [parse_risk_input] returns nothing for a missing or empty text and for
    a text that [float] rejects; every value it does return is a finite
    number between 0.0001 and 0.20, also when [float] yields NaN. *)
Theorem parse_risk_input_range (py_strip : string -> string)
    (py_float : string -> option float) (t : option string) :
  parse_risk_input py_strip py_float None = None
  /\ parse_risk_input py_strip py_float (Some EmptyString) = None
  /\ (forall c s, py_float (remove_percent (py_strip (String c s))) = None ->
                  parse_risk_input py_strip py_float (Some (String c s)) = None)
  /\ (forall r, parse_risk_input py_strip py_float t = Some r ->
                exists q, r = Fin q /\ 0.0001 <= q <= 0.2).
Proof.
  split; [done|]. split; [done|]. split.
  - intros c s H. cbn. by rewrite H.
  - intros r. destruct t as [[|c s]|]; try done. cbn.
    destruct (py_float _) as [v|]; [|done]. intros [= <-].
    destruct (clamp_risk (if (v >? Fin 1)%fl then (v / Fin 100)%fl else v))
      as (q & Hq & Hr & _).
    by exists q.
Qed.

Lemma parse_risk_input_range_witness :
  exists q,
    parse_risk_input id (fun _ => Some (Fin 3.2)) (Some "3.2%"%string) = Some (Fin q)
    /\ 0.0001 <= q <= 0.2.
Proof.
  destruct (proj2 (proj2 (proj2
              (parse_risk_input_range id (fun _ => Some (Fin 3.2))
                 (Some "3.2%"%string))))
              (Fin (3.2 / 100)) eq_refl) as (q & Hq & Hr).
  exists q. split; [by rewrite <- Hq | done].
Defined.

(** X18.  How the number is read.  A value above 1 is taken as a percentage and
    divided by 100, any other value as a fraction; the result is then
    capped to [0.0001, 0.20].  So 3.2 gives 0.032 but 0.5 and 1 give 0.20,
    and values of 20 or more give 0.20 as well; NaN gives 0.0001. *)
Theorem parse_risk_input_reading (py_strip : string -> string)
    (py_float : string -> option float) (c : ascii) (s : string) (v : float) :
  py_float (remove_percent (py_strip (String c s))) = Some v ->
  exists q,
    parse_risk_input py_strip py_float (Some (String c s)) = Some (Fin q)
    /\ (v = NaN -> q == 0.0001)
    /\ (forall x, v = Fin x ->
          (x <= 0.0001 -> q == 0.0001)
          /\ (0.0001 <= x <= 0.2 -> q == x)
          /\ (0.2 <= x <= 1 -> q == 0.2)
          /\ (1 < x <= 20 -> q == x / 100)
          /\ (20 <= x -> q == 0.2)).
Proof.
  intros Hv. cbn [parse_risk_input]. rewrite Hv.
  destruct (clamp_risk (if (v >? Fin 1)%fl then (v / Fin 100)%fl else v))
    as (q & Hq & Hr & Hmid & Hlow & Hhigh & Hnan).
  exists q. split; [by rewrite Hq|]. split.
  - intros ->. by apply Hnan.
  - intros x ->. unfold fgt in *. cbn [flt cmp2] in *.
    destruct (Qltb 1 x) eqn:E.
    + apply Qltb_lt in E. cbn in Hmid, Hlow, Hhigh.
      assert (Hdiv : x / 100 == x * 0.01) by field.
      repeat split; intros Hx; try lra.
      * rewrite (Hmid (x / 100) eq_refl); [reflexivity|]. rewrite Hdiv. lra.
      * apply (Hhigh (x / 100) eq_refl). rewrite Hdiv. lra.
    + apply Qltb_ge in E.
      repeat split; intros Hx; try lra.
      * by apply (Hlow x).
      * by apply (Hmid x).
      * apply (Hhigh x); [done | lra].
Qed.

Lemma parse_risk_input_reading_witness :
  exists q,
    parse_risk_input id (fun _ => Some (Fin 3.2)) (Some "3.2%"%string) = Some (Fin q)
    /\ q == 3.2 / 100.
Proof.
  destruct (parse_risk_input_reading id (fun _ => Some (Fin 3.2)) "3"%char
              ".2%"%string (Fin 3.2) eq_refl) as (q & Hq & _ & Hx).
  exists q. split; [exact Hq|].
  apply (Hx 3.2 eq_refl). lra.
Defined.

(** ** The frame kept by the provider *)

Section FrameFacts2.

Implicit Types (df l : frame) (r row : Z * Bar).

Lemma insert_row_elem (r x : Z * Bar) (l : frame) :
  x ∈ insert_row r l <-> x = r \/ x ∈ l.
Proof.
  induction l as [|y l IH]; cbn.
  - rewrite list_elem_of_singleton, elem_of_nil. tauto.
  - destruct (r.1 <=? y.1)%Z; rewrite !elem_of_cons, ?IH; tauto.
Qed.

Lemma insert_row_length (r : Z * Bar) (l : frame) :
  length (insert_row r l) = S (length l).
Proof.
  induction l as [|y l IH]; cbn; [done|].
  destruct (r.1 <=? y.1)%Z; cbn; by rewrite ?IH.
Qed.

Lemma insert_row_sorted (r : Z * Bar) (l : frame) :
  index_sorted l -> (forall x, x ∈ l -> x.1 <> r.1) ->
  index_sorted (insert_row r l).
Proof.
  unfold index_sorted. induction 1 as [|y l Hl IH Hy]; intros Hne; cbn.
  - by repeat constructor.
  - assert (Hyr : y.1 <> r.1) by apply Hne, list_elem_of_here.
    destruct (r.1 <=? y.1)%Z eqn:E.
    + apply Z.leb_le in E. constructor; [by constructor|].
      constructor; [lia|]. eapply Forall_impl; [exact Hy|]. cbn. lia.
    + apply Z.leb_gt in E. constructor.
      * apply IH. intros x Hx. by apply Hne, list_elem_of_further.
      * apply Forall_forall. intros x Hx. apply insert_row_elem in Hx as [->|Hx];
          [lia|]. by apply (proj1 (Forall_forall _ _) Hy).
Qed.

Lemma insert_row_head (r : Z * Bar) (l : frame) :
  Forall (fun x => (r.1 <= x.1)%Z) l -> insert_row r l = r :: l.
Proof.
  destruct 1 as [|x l Hx _]; cbn; [done|].
  by replace (r.1 <=? x.1)%Z with true by (symmetry; by apply Z.leb_le).
Qed.

(** Sorting a strictly ascending frame with one more row at its end puts
    that row in its place. *)
Lemma sort_index_snoc (r : Z * Bar) (l : frame) :
  index_sorted l -> (forall x, x ∈ l -> x.1 <> r.1) ->
  sort_index (l ++ [r]) = insert_row r l.
Proof.
  unfold sort_index. rewrite foldr_app. cbn [foldr insert_row].
  induction 1 as [|y l Hl IH Hy]; intros Hne; [done|].
  cbn [foldr]. rewrite IH by (intros x Hx; by apply Hne, list_elem_of_further).
  assert (Hyr : y.1 <> r.1) by apply Hne, list_elem_of_here.
  assert (Hyl : Forall (fun x => (y.1 <= x.1)%Z) l)
    by (eapply Forall_impl; [exact Hy|]; cbn; lia).
  cbn [insert_row]. destruct (r.1 <=? y.1)%Z eqn:E.
  - apply Z.leb_le in E.
    rewrite (insert_row_head r l)
      by (eapply Forall_impl; [exact Hy|]; cbn; lia).
    cbn [insert_row].
    replace (y.1 <=? r.1)%Z with false by (symmetry; apply Z.leb_gt; lia).
    by rewrite insert_row_head.
  - apply Z.leb_gt in E. apply insert_row_head.
    apply Forall_forall. intros x Hx. apply insert_row_elem in Hx as [->|Hx];
      [lia|]. by apply (proj1 (Forall_forall _ _) Hyl).
Qed.

Lemma filter_index_sorted (P : Z * Bar -> Prop) `{!forall x, Decision (P x)}
    (l : frame) :
  index_sorted l -> index_sorted (filter P l).
Proof.
  unfold index_sorted. induction 1 as [|y l Hl IH Hy]; [constructor|].
  rewrite filter_cons. destruct (decide (P y)); [|done].
  constructor; [done|]. apply Forall_forall. intros x Hx.
  apply list_elem_of_filter in Hx as [_ Hx].
  by apply (proj1 (Forall_forall _ _) Hy).
Qed.

Lemma drop_index_sorted (n : nat) (l : frame) :
  index_sorted l -> index_sorted (drop n l).
Proof.
  unfold index_sorted. intros H. revert n.
  induction H as [|y l Hl IH Hy]; intros [|n]; cbn; try done; by constructor.
Qed.

Lemma iloc_tail_sorted (maxlen : nat) (l : frame) :
  index_sorted l -> index_sorted (iloc_tail maxlen l).
Proof.
  unfold iloc_tail. destruct (maxlen =? 0)%nat; [done|]. apply drop_index_sorted.
Qed.

Lemma upsert_unfold (maxlen : nat) (df : frame) (row : Z * Bar) :
  index_sorted df ->
  upsert maxlen df row
  = iloc_tail maxlen (insert_row row (filter (fun r => r.1 <> row.1) df)).
Proof.
  intros Hs. unfold upsert. rewrite sort_index_snoc; [done | |].
  - by apply filter_index_sorted.
  - intros x Hx. by apply list_elem_of_filter in Hx as [? _].
Qed.

Lemma upsert_sorted (maxlen : nat) (df : frame) (row : Z * Bar) :
  index_sorted df -> index_sorted (upsert maxlen df row).
Proof.
  intros Hs. rewrite upsert_unfold by done. apply iloc_tail_sorted.
  apply insert_row_sorted; [by apply filter_index_sorted|].
  intros x Hx. by apply list_elem_of_filter in Hx as [? _].
Qed.

Lemma insert_row_last (r : Z * Bar) (l : frame) :
  Forall (fun x => (x.1 < r.1)%Z) l -> insert_row r l = l ++ [r].
Proof.
  induction 1 as [|x l Hx _ IH]; cbn; [done|].
  replace (r.1 <=? x.1)%Z with false by (symmetry; apply Z.leb_gt; lia).
  by rewrite IH.
Qed.

Lemma iloc_tail_length (maxlen : nat) (l : frame) :
  (1 <= maxlen)%nat -> (length (iloc_tail maxlen l) <= maxlen)%nat.
Proof.
  intros H. unfold iloc_tail.
  replace (maxlen =? 0)%nat with false by (symmetry; apply Nat.eqb_neq; lia).
  rewrite length_drop. lia.
Qed.

Lemma iloc_tail_fits (maxlen : nat) (l : frame) :
  (length l <= maxlen)%nat -> iloc_tail maxlen l = l.
Proof.
  intros H. unfold iloc_tail. destruct (maxlen =? 0)%nat; [done|].
  by replace (length l - maxlen)%nat with 0%nat by lia.
Qed.

Lemma filter_older (ts : Z) (l : frame) :
  Forall (fun x => (x.1 < ts)%Z) l -> filter (fun r => r.1 <> ts) l = l.
Proof.
  induction 1 as [|x l Hx _ IH]; [done|].
  rewrite filter_cons, IH. destruct (decide (x.1 <> ts)); [done | lia].
Qed.

Lemma filter_newer (ts : Z) (l : frame) :
  Forall (fun x => (ts < x.1)%Z) l -> filter (fun r => r.1 <> ts) l = l.
Proof.
  induction 1 as [|x l Hx _ IH]; [done|].
  rewrite filter_cons, IH. destruct (decide (x.1 <> ts)); [done | lia].
Qed.

Lemma upsert_length (maxlen : nat) (df : frame) (row : Z * Bar) :
  index_sorted df ->
  (length (upsert maxlen df row) <= S (length df))%nat
  /\ ((1 <= maxlen)%nat -> (length (upsert maxlen df row) <= maxlen)%nat).
Proof.
  intros Hs. rewrite upsert_unfold by done. split.
  - unfold iloc_tail. destruct (maxlen =? 0)%nat;
      rewrite ?length_drop, insert_row_length;
      pose proof (length_filter (fun r => r.1 <> row.1) df); lia.
  - apply iloc_tail_length.
Qed.

End FrameFacts2.

(** X19.  The upsert keeps the index strictly ascending (so without duplicate
    timestamps), adds at most one row, and with a positive [maxlen] never
    leaves more than [maxlen] rows. *)
Theorem upsert_keeps_index (maxlen : nat) (df : frame) (row : Z * Bar) :
  index_sorted df ->
  index_sorted (upsert maxlen df row)
  /\ (length (upsert maxlen df row) <= S (length df))%nat
  /\ ((1 <= maxlen)%nat -> (length (upsert maxlen df row) <= maxlen)%nat).
Proof.
  intros Hs. split; [by apply upsert_sorted | by apply upsert_length].
Qed.

Lemma upsert_keeps_index_witness :
  index_sorted (upsert 2 [(1%Z, ex_climb 0); (3%Z, ex_climb 1)] (2%Z, ex_climb 2)).
Proof.
  apply (upsert_keeps_index 2 [(1%Z, ex_climb 0); (3%Z, ex_climb 1)]
           (2%Z, ex_climb 2)).
  unfold index_sorted. repeat constructor.
Defined.

(** X20.  A bar that is not older than any row of the frame ends up as the last
    row, the one the trading loop reads: a new timestamp is appended and
    the frame trimmed from the front, the timestamp of the last row
    replaces that row in place. *)
Theorem upsert_newest_last (maxlen : nat) (df : frame) (row : Z * Bar) :
  index_sorted df ->
  (forall r, r ∈ df -> (r.1 <= row.1)%Z) ->
  (1 <= maxlen)%nat ->
  last (upsert maxlen df row) = Some row
  /\ upsert maxlen df row
     = iloc_tail maxlen (filter (fun r => r.1 <> row.1) df ++ [row])
  /\ (forall l old, df = l ++ [old] -> old.1 = row.1 ->
                    (length df <= maxlen)%nat ->
                    upsert maxlen df row = l ++ [row]).
Proof.
  intros Hs Hle Hmax. rewrite upsert_unfold by done.
  assert (Hold : Forall (fun x => (x.1 < row.1)%Z)
                   (filter (fun r => r.1 <> row.1) df)).
  { apply Forall_forall. intros x Hx. apply list_elem_of_filter in Hx as [Hne Hx].
    specialize (Hle x Hx). lia. }
  rewrite insert_row_last by done. split; [|split; [done|]].
  - unfold iloc_tail.
    replace (maxlen =? 0)%nat with false by (symmetry; apply Nat.eqb_neq; lia).
    rewrite drop_app_le by (rewrite length_app; cbn; lia).
    apply last_snoc.
  - intros l old -> Hk Hfit.
    assert (Hl : Forall (fun x => (x.1 < row.1)%Z) l).
    { apply Forall_forall. intros x Hx. rewrite <- Hk.
      apply (StronglySorted_app_1_elem_of _ l [old] x old Hs Hx).
      apply list_elem_of_here. }
    rewrite filter_app, (filter_older _ l Hl).
    rewrite filter_cons, filter_nil.
    destruct (decide (old.1 <> row.1)); [done|]. rewrite app_nil_r.
    apply iloc_tail_fits. rewrite length_app in *. cbn in *. lia.
Qed.

Lemma upsert_newest_last_witness :
  last (upsert 2 [(1%Z, ex_climb 0); (3%Z, ex_climb 1)] (3%Z, ex_climb 2))
  = Some (3%Z, ex_climb 2).
Proof.
  apply (upsert_newest_last 2 [(1%Z, ex_climb 0); (3%Z, ex_climb 1)]
           (3%Z, ex_climb 2)).
  - unfold index_sorted. repeat constructor.
  - intros r Hr. repeat (apply elem_of_cons in Hr as [->|Hr]; [cbn; lia|]).
    by apply elem_of_nil in Hr.
  - lia.
Defined.

(** X21.  A late bar is lost: when the frame is full and the bar is older than
    every row, the frame after the upsert is the frame before it. *)
Theorem upsert_late_bar (maxlen : nat) (df : frame) (row : Z * Bar) :
  (forall r, r ∈ df -> (row.1 < r.1)%Z) ->
  index_sorted df ->
  (1 <= maxlen)%nat -> length df = maxlen ->
  upsert maxlen df row = df.
Proof.
  intros Hlt Hs Hmax Hlen. rewrite upsert_unfold by done.
  assert (Hnew : Forall (fun x => (row.1 < x.1)%Z) df) by (by apply Forall_forall).
  rewrite filter_newer by done.
  rewrite insert_row_head by (eapply Forall_impl; [exact Hnew|]; cbn; lia).
  unfold iloc_tail.
  replace (maxlen =? 0)%nat with false by (symmetry; apply Nat.eqb_neq; lia).
  cbn [length]. by replace (S (length df) - maxlen)%nat with 1%nat by lia.
Qed.

Lemma upsert_late_bar_witness :
  upsert 2 [(2%Z, ex_climb 0); (3%Z, ex_climb 1)] (1%Z, ex_climb 2)
  = [(2%Z, ex_climb 0); (3%Z, ex_climb 1)].
Proof.
  apply (upsert_late_bar 2 [(2%Z, ex_climb 0); (3%Z, ex_climb 1)] (1%Z, ex_climb 2)).
  - intros r Hr. repeat (apply elem_of_cons in Hr as [->|Hr]; [cbn; lia|]).
    by apply elem_of_nil in Hr.
  - unfold index_sorted. repeat constructor.
  - lia.
  - reflexivity.
Defined.


Section MessageFacts.

Variables (sym : string) (maxlen : nat).

Lemma foldl_apply_event (evs : list StreamEvent) :
  forall acc : frame * bool,
    index_sorted acc.1 ->
    index_sorted (foldl (apply_event sym maxlen) acc evs).1
    /\ ((foldl (apply_event sym maxlen) acc evs).2 = false -> foldl (apply_event sym maxlen) acc evs = acc)
    /\ ((foldl (apply_event sym maxlen) acc evs).2 = true <-> acc.2 = true \/ Exists (fun ev => ev_T ev = Some "b"%string /\ ev_S ev = Some sym) evs)
    /\ ((1 <= maxlen)%nat -> (length acc.1 <= maxlen)%nat ->
        (length (foldl (apply_event sym maxlen) acc evs).1 <= maxlen)%nat).
Proof.
  induction evs as [|ev evs IH]; intros acc Hs; cbn [foldl].
  - repeat split; try done; try tauto.
    intros [H|H]; [done | by apply Exists_nil in H].
  - assert (Hs1 : index_sorted (apply_event sym maxlen acc ev).1).
    { unfold apply_event. destruct (_ && _); [|done]. by apply upsert_sorted. }
    destruct (IH _ Hs1) as (IH1 & IH2 & IH3 & IH4). split; [done|].
    unfold apply_event in *.
    destruct (bool_decide (ev_T ev = Some "b"%string)) eqn:ET;
      destruct (bool_decide (ev_S ev = Some sym)) eqn:ES; cbn [andb] in *.
    + apply bool_decide_eq_true in ET, ES. split; [|split].
      * intros Hf. assert (Ht : (foldl (apply_event sym maxlen)
                                   (upsert maxlen acc.1 (ev_t ev, ev_bar ev), true)
                                   evs).2 = true) by (apply IH3; by left).
        unfold apply_event in Ht. congruence.
      * split; [intros _; right; by apply Exists_cons_hd|].
        intros _. apply IH3. by left.
      * intros Hm Hl. apply IH4; [done|]. cbn. by apply upsert_length.
    + apply bool_decide_eq_false in ES. split; [done|]. split; [|done].
      rewrite IH3, Exists_cons. tauto.
    + apply bool_decide_eq_false in ET. split; [done|]. split; [|done].
      rewrite IH3, Exists_cons. tauto.
    + apply bool_decide_eq_false in ET. split; [done|]. split; [|done].
      rewrite IH3, Exists_cons. tauto.
Qed.

End MessageFacts.

(** X22.  One message.  The frame stays strictly ascending and within a positive
    [maxlen]; it is marked for yielding exactly when the message holds a
    bar event of the subscribed symbol, and a message without one leaves
    the frame as it was. *)
Theorem on_message_frame (sym : string) (maxlen : nat) (df : frame)
    (events : list StreamEvent) :
  index_sorted df ->
  index_sorted (on_message sym maxlen df events).1
  /\ ((on_message sym maxlen df events).2 = false ->
      (on_message sym maxlen df events).1 = df)
  /\ ((on_message sym maxlen df events).2 = true
      <-> Exists (fun ev => ev_T ev = Some "b"%string /\ ev_S ev = Some sym) events)
  /\ ((1 <= maxlen)%nat -> (length df <= maxlen)%nat ->
      (length (on_message sym maxlen df events).1 <= maxlen)%nat).
Proof.
  intros Hs. unfold on_message.
  destruct (foldl_apply_event sym maxlen events (df, false) Hs)
    as (H1 & H2 & H3 & H4).
  split; [done|]. split; [|split; [|done]].
  - intros Hf. by rewrite (H2 Hf).
  - rewrite H3. cbn. split; [by intros [?|?] | by right].
Qed.

Lemma on_message_frame_witness :
  (on_message "WMT" 2 [(1%Z, ex_climb 0)]
     [mkStreamEvent (Some "t"%string) (Some "WMT"%string) 5 (ex_climb 1);
      mkStreamEvent (Some "b"%string) (Some "AAPL"%string) 5 (ex_climb 1)]).1
  = [(1%Z, ex_climb 0)].
Proof.
  destruct (on_message_frame "WMT" 2 [(1%Z, ex_climb 0)]
     [mkStreamEvent (Some "t"%string) (Some "WMT"%string) 5 (ex_climb 1);
      mkStreamEvent (Some "b"%string) (Some "AAPL"%string) 5 (ex_climb 1)])
    as (_ & H & _).
  - unfold index_sorted. repeat constructor.
  - apply H. reflexivity.
Defined.

(** ** Warm-up of the CCI *)

Section CciWarmup.

Lemma fsum_NaN (w : list float) : NaN ∈ w -> fsum w = NaN.
Proof.
  induction w as [|x w IH]; intros H; [by apply elem_of_nil in H|].
  apply elem_of_cons in H as [<-|H]; [done|].
  cbn. fold (fsum w). rewrite (IH H). by destruct x.
Qed.

Lemma window_mean_NaN (n : nat) (w : list float) :
  NaN ∈ w -> window_mean n w = NaN.
Proof. intros H. unfold window_mean. by rewrite (fsum_NaN _ H). Qed.

Variable df : list Bar.
Variable n : nat.

Lemma cci_deviation_warmup (j : nat) (x : float) :
  (S j < n)%nat ->
  (fabs <$> zip_with fsub (cci_tp df) (cci_ma df n)) !! j = Some x -> x = NaN.
Proof.
  intros Hj. rewrite list_lookup_fmap.
  destruct (zip_with fsub _ _ !! j) as [y|] eqn:E; [|done].
  assert (Hlen : (j < length df)%nat).
  { apply lookup_lt_Some in E. rewrite length_zip_with, cci_tp_length in E. lia. }
  rewrite (cci_numerator_warmup df n j Hlen Hj) in E. injection E as <-.
  by intros [= <-].
Qed.

Lemma cci_md_warmup (i : nat) :
  (i < length df)%nat -> (i < 2 * n - 2)%nat -> cci_md df n !! i = Some NaN.
Proof.
  intros Hi Hn. unfold cci_md, replace0. rewrite list_lookup_fmap.
  set (dev := fabs <$> zip_with fsub (cci_tp df) (cci_ma df n)).
  assert (Hdl : length dev = length df).
  { unfold dev, cci_ma, rolling_mean.
    rewrite length_fmap, length_zip_with, length_imap, cci_tp_length. lia. }
  destruct (dev !! i) as [x|] eqn:Ex;
    [|apply lookup_ge_None in Ex; lia].
  rewrite (rolling_mean_lookup n dev i x Ex).
  destruct (S i <? n)%nat eqn:E; [done|]. apply Nat.ltb_ge in E.
  rewrite window_mean_NaN; [done|].
  apply list_elem_of_lookup. exists 0%nat.
  rewrite lookup_take by lia. rewrite lookup_drop, Nat.add_0_r.
  destruct (decide (0 < n)%nat); [|lia].
  destruct (dev !! (S i - n)%nat) as [y|] eqn:Ey;
    [|apply lookup_ge_None in Ey; lia].
  f_equal. apply (cci_deviation_warmup (S i - n) y); [lia | done].
Qed.

Lemma cci_long_warmup (i : nat) :
  (i < length df)%nat -> (i < 2 * n - 2)%nat -> cci df n !! i = Some NaN.
Proof.
  intros Hi Hn. unfold cci.
  rewrite lookup_zip_with, list_lookup_fmap, (cci_md_warmup i Hi Hn).
  destruct (zip_with fsub _ _ !! i) as [y|] eqn:E.
  - cbn. by destruct y.
  - apply lookup_ge_None in E.
    unfold cci_ma, rolling_mean in E.
    rewrite length_zip_with, length_imap, cci_tp_length in E. lia.
Qed.

End CciWarmup.

(** X23.  The two nested rolling windows make the warm-up of [cci] twice as long
    as one window: the first [2n - 2] values are NaN. *)
Theorem cci_needs_two_windows (df : list Bar) (n i : nat) :
  (i < length df)%nat -> (i < 2 * n - 2)%nat -> cci df n !! i = Some NaN.
Proof. apply cci_long_warmup. Qed.

Lemma cci_needs_two_windows_witness : cci ex_flat 3 !! 3%nat = Some NaN.
Proof.
  apply (cci_needs_two_windows ex_flat 3 3); cbn; lia.
Defined.

(** X24.  No entry during warm-up: on a frame with its indicators, whatever the
    configuration, the entry signal is false on the first bar and on every
    bar that still lacks a CCI value, that is on bars [0 .. 2 * cci_len - 3]. *)
Theorem no_entry_during_warmup (momo : Momo) (df : list Bar) (p ce : float)
    (cbh : bool) (ups : list string) (i : nat) :
  momentum_entries (frame_rows momo df) p ce cbh ups !! i = Some true ->
  (1 <= i)%nat /\ (2 * cci_len momo - 2 <= i)%nat /\ (i < length df)%nat.
Proof.
  intros H.
  pose proof (lookup_lt_Some _ _ _ H) as Hlen.
  rewrite entries_length, frame_rows_length in Hlen.
  split; [|split; [|done]].
  - destruct i as [|i]; [|lia]. exfalso.
    assert (H0 : (0 < length (frame_rows momo df))%nat)
      by (rewrite frame_rows_length; lia).
    apply lookup_lt_is_Some in H0 as [r0 H0].
    revert H. unfold momentum_entries, sand, sor. cbv zeta.
    repeat destruct (bool_decide _); destruct cbh;
      rewrite !lookup_zip_with, !list_lookup_fmap, H0,
        (false_col_lookup _ _ _ H0), ?(col_shift1_0 _ _ _ H0),
        ?(map4_lookup _ _ _ _ _ _ _ _ _ _
            (col_shift1_0 _ (open ∘ bar) _ H0)
            (col_shift1_0 _ (high ∘ bar) _ H0)
            (col_shift1_0 _ (low ∘ bar) _ H0)
            (col_shift1_0 _ (close ∘ bar) _ H0)),
        ?(map4_lookup _ _ _ _ _ _ NaN NaN NaN NaN
            (shift1_lookup_0 _ NaN (col_shift1_0 _ (open ∘ bar) _ H0))
            (shift1_lookup_0 _ NaN (col_shift1_0 _ (close ∘ bar) _ H0))
            (col_shift1_0 _ (open ∘ bar) _ H0)
            (col_shift1_0 _ (close ∘ bar) _ H0));
      done.
  - apply entries_need_cci in H as (r & Hr & Hc).
    apply frame_rows_bar in Hr as [_ Hcci].
    destruct (decide (i < 2 * cci_len momo - 2)%nat) as [Hw|]; [|lia].
    rewrite (cci_long_warmup df (cci_len momo) i Hlen Hw) in Hcci.
    cbn in Hcci. rewrite Hcci in Hc. by rewrite fgt_NaN_l in Hc.
Qed.

Lemma no_entry_during_warmup_witness :
  (2 * cci_len ex_momo - 2 <= 29)%nat.
Proof.
  apply (no_entry_during_warmup ex_momo ex_frame (Fin 0.2) (Fin 0) true
           use_patterns_default 29).
  vm_compute. reflexivity.
Defined.
